(** * vue-web-storage: the storage engine and its codec

    A shallow embedding of the functions of [src/types.ts] (codec and
    expiry policy, which [storage.ts] imports as [./utils]) and
    [src/storage.ts] (the [WebStorage] class), together with the parts of
    the JavaScript platform they call: UTF-16 strings, numbers, JSON,
    [btoa]/[atob], the relational operator [>], the Web Storage facility
    and [Date.now()].

    Layout: part I holds every definition (platform first, then the
    repository's functions under their own names, [getStorageSize] and
    the batch operations of [src/composables.ts] included); part II holds
    the lemmas and the theorems about them; part III holds further
    properties of the same functions. *)

From Stdlib Require Import ZArith NArith List String Ascii Bool Lia Eqdep_dec.
Import ListNotations.

Set Warnings "-register-all".

(* ================================================================== *)
(** * Part I. Definitions *)
(* ================================================================== *)

(** ** JavaScript strings

    A string is a sequence of UTF-16 code units.  Code units are kept as
    [N]; a well-formed string holds only values below 65536. *)

Definition jsstring := list N.

Definition unit_ok (c : N) : bool := (c <? 65536)%N.

Definition str_ok (s : jsstring) : bool := forallb unit_ok s.

(** ASCII literals. *)
Definition lit (s : string) : jsstring := map N_of_ascii (list_ascii_of_string s).

(** JSON text written with an apostrophe standing for the double quote. *)
Definition jtext (s : string) : jsstring :=
  map (fun c => if (c =? 39)%N then 34%N else c) (lit s).

Fixpoint str_eqb (a b : jsstring) : bool :=
  match a, b with
  | [], [] => true
  | x :: a', y :: b' => (x =? y)%N && str_eqb a' b'
  | _, _ => false
  end.

(** [String.prototype.startsWith]. *)
Fixpoint startsWith (s p : jsstring) {struct p} : bool :=
  match p, s with
  | [], _ => true
  | x :: p', y :: s' => (x =? y)%N && startsWith s' p'
  | _ :: _, [] => false
  end.

(** [String.prototype.charCodeAt]: [None] stands for [NaN] (index out of
    range). *)
Definition charCodeAt (s : jsstring) (i : nat) : option N := nth_error s i.

(** ** JavaScript numbers

    Finite numbers are exact decimals: an integer [Int z], or
    [Dec m e] for [m * 10^e] with [e < 0] and [m] not a multiple of ten.
    The two zeroes are identified; binary64 rounding and range are not
    represented: a numeral is read, a number written and a sum formed
    exactly.  This agrees with the platform wherever the platform is
    exact, in particular on the integers of magnitude at most [2^53]
    ([exact_int] below), which include every millisecond timestamp; what
    is stated about the value of a sum is stated for these. *)

Inductive jsnum :=
| NaN
| Inf (negative : bool)
| Int (z : Z)
| Dec (m e : Z).

Definition num_ok (x : jsnum) : bool :=
  match x with
  | Dec m e => (e <? 0)%Z && negb (m mod 10 =? 0)%Z
  | _ => true
  end.

Fixpoint strip_zeros (fuel : nat) (m e : Z) : Z * Z :=
  match fuel with
  | O => (m, e)
  | S f =>
      if (e <? 0)%Z && (m mod 10 =? 0)%Z
      then strip_zeros f (m / 10)%Z (e + 1)%Z
      else (m, e)
  end.

(** The number [m * 10^e] in normal form. *)
Definition mk_num (m e : Z) : jsnum :=
  if (m =? 0)%Z then Int 0
  else if (0 <=? e)%Z then Int (m * 10 ^ e)
  else let '(m', e') := strip_zeros (Z.to_nat (- e)) m e in
       if (e' =? 0)%Z then Int m' else Dec m' e'.

Definition mant_exp (x : jsnum) : Z * Z :=
  match x with
  | Int z => (z, 0%Z)
  | Dec m e => (m, e)
  | _ => (0%Z, 0%Z)
  end.

(** Both mantissas of two finite numbers at their common exponent. *)
Definition aligned (a b : jsnum) : Z * Z * Z :=
  let '(ma, ea) := mant_exp a in
  let '(mb, eb) := mant_exp b in
  let e := Z.min ea eb in
  ((ma * 10 ^ (ea - e))%Z, (mb * 10 ^ (eb - e))%Z, e).

(** [a + b]. *)
Definition num_add (a b : jsnum) : jsnum :=
  match a, b with
  | NaN, _ | _, NaN => NaN
  | Inf s, Inf t => if Bool.eqb s t then Inf s else NaN
  | Inf s, _ | _, Inf s => Inf s
  | Int x, Int y => Int (x + y)
  | _, _ => let '(x, y, e) := aligned a b in mk_num (x + y) e
  end.

(** [a < b]; any comparison with [NaN] is false. *)
Definition num_lt (a b : jsnum) : bool :=
  match a, b with
  | NaN, _ | _, NaN => false
  | Inf s, Inf t => s && negb t
  | Inf s, _ => s
  | _, Inf t => negb t
  | Int x, Int y => (x <? y)%Z
  | _, _ => let '(x, y, _) := aligned a b in (x <? y)%Z
  end.

(** Truthiness of a number: [0] and [NaN] are falsy. *)
Definition num_truthy (x : jsnum) : bool :=
  match x with
  | NaN => false
  | Int z => negb (z =? 0)%Z
  | _ => true
  end.

(** *** Decimal digits *)

Definition is_digit (c : N) : bool := (48 <=? c)%N && (c <=? 57)%N.

Fixpoint digits_fuel (fuel : nat) (n : N) : jsstring :=
  match fuel with
  | O => []
  | S f =>
      if (n <? 10)%N then [(48 + n)%N]
      else digits_fuel f (n / 10)%N ++ [(48 + n mod 10)%N]
  end.

(** The decimal numeral of [n], most significant digit first. *)
Definition digits (n : N) : jsstring := digits_fuel (S (N.size_nat n)) n.

(** The value of a run of digits, continuing from [acc]. *)
Definition digits_value (acc : N) (ds : jsstring) : N :=
  fold_left (fun a c => (10 * a + (c - 48))%N) ds acc.

Fixpoint drop_trailing_zeros_rev (r : jsstring) : jsstring :=
  match r with
  | c :: r' => if (c =? 48)%N then drop_trailing_zeros_rev r' else r
  | [] => []
  end.

Definition drop_trailing_zeros (ds : jsstring) : jsstring :=
  rev (drop_trailing_zeros_rev (rev ds)).

Definition zeros (n : nat) : jsstring := repeat 48%N n.

(** *** [Number::toString] (radix 10)

    With [ds] the [k] significant digits and [n] the position of the
    decimal point after the first digit of [ds]. *)

Definition exponent_part (n : Z) : jsstring :=
  (if (n - 1 <? 0)%Z then 45%N else 43%N) :: digits (Z.abs_N (n - 1)).

Definition layout_digits (ds : jsstring) (n : Z) : jsstring :=
  let k := Z.of_nat (List.length ds) in
  if (k <=? n)%Z && (n <=? 21)%Z then ds ++ zeros (Z.to_nat (n - k))
  else if (0 <? n)%Z && (n <=? 21)%Z then
    firstn (Z.to_nat n) ds ++ 46%N :: skipn (Z.to_nat n) ds
  else if (-6 <? n)%Z && (n <=? 0)%Z then
    48%N :: 46%N :: zeros (Z.to_nat (- n)) ++ ds
  else
    match ds with
    | [] => []
    | [d] => d :: 101%N :: exponent_part n
    | d :: rest => d :: 46%N :: rest ++ 101%N :: exponent_part n
    end.

Definition num_to_string (x : jsnum) : jsstring :=
  match x with
  | NaN => lit "NaN"
  | Inf false => lit "Infinity"
  | Inf true => lit "-Infinity"
  | Int z =>
      if (z =? 0)%Z then [48%N] else
      let ds := digits (Z.abs_N z) in
      (if (z <? 0)%Z then [45%N] else []) ++
      layout_digits (drop_trailing_zeros ds) (Z.of_nat (List.length ds))
  | Dec m e =>
      let ds := digits (Z.abs_N m) in
      (if (m <? 0)%Z then [45%N] else []) ++
      layout_digits ds (Z.of_nat (List.length ds) + e)
  end.

(** *** [StringToNumber]: the value of a string used as a number *)

Definition is_str_ws (c : N) : bool :=
  existsb (N.eqb c)
    [9; 10; 11; 12; 13; 32; 160; 5760; 8232; 8233; 8239; 8287; 12288; 65279]%N
  || ((8192 <=? c)%N && (c <=? 8202)%N).

Fixpoint trim_start (s : jsstring) : jsstring :=
  match s with
  | c :: s' => if is_str_ws c then trim_start s' else s
  | [] => []
  end.

Definition trim (s : jsstring) : jsstring := rev (trim_start (rev (trim_start s))).

Fixpoint span_digits (s : jsstring) : jsstring * jsstring :=
  match s with
  | c :: s' =>
      if is_digit c then let '(ds, r) := span_digits s' in (c :: ds, r)
      else ([], s)
  | [] => ([], [])
  end.

(** The value of a digit of the given radix, if [c] is one. *)
Definition radix_digit (radix c : N) : option N :=
  let v := if is_digit c then Some (c - 48)%N
           else if (97 <=? c)%N && (c <=? 102)%N then Some (c - 87)%N
           else if (65 <=? c)%N && (c <=? 70)%N then Some (c - 55)%N
           else None in
  match v with
  | Some d => if (d <? radix)%N then Some d else None
  | None => None
  end.

Fixpoint radix_value (radix acc : N) (s : jsstring) : option N :=
  match s with
  | [] => Some acc
  | c :: s' =>
      match radix_digit radix c with
      | Some d => radix_value radix (radix * acc + d)%N s'
      | None => None
      end
  end.

(** An optional exponent part [e], [e+] or [e-] followed by digits;
    [None] when the text is not one. *)
Definition exponent_opt (s : jsstring) : option (Z * jsstring) :=
  match s with
  | c :: s1 =>
      if (c =? 101)%N || (c =? 69)%N then
        let '(neg, s2) :=
          match s1 with
          | d :: s2 => if (d =? 45)%N then (true, s2)
                       else if (d =? 43)%N then (false, s2) else (false, s1)
          | [] => (false, s1)
          end in
        let '(ds, r) := span_digits s2 in
        match ds with
        | [] => None
        | _ => let v := Z.of_N (digits_value 0 ds) in
               Some (if neg then (- v)%Z else v, r)
        end
      else Some (0%Z, s)
  | [] => Some (0%Z, [])
  end.

Definition str_decimal (s : jsstring) : jsnum :=
  let '(neg, s0) :=
    match s with
    | c :: s' => if (c =? 45)%N then (true, s')
                 else if (c =? 43)%N then (false, s') else (false, s)
    | [] => (false, s)
    end in
  if str_eqb s0 (lit "Infinity") then Inf neg else
  let '(ip, r1) := span_digits s0 in
  let '(fp, r2) :=
    match r1 with
    | c :: r => if (c =? 46)%N then span_digits r else ([], r1)
    | [] => ([], r1)
    end in
  match ip ++ fp with
  | [] => NaN
  | ds =>
      match exponent_opt r2 with
      | Some (x, []) =>
          let m := Z.of_N (digits_value 0 ds) in
          mk_num (if neg then - m else m)%Z (x - Z.of_nat (List.length fp))%Z
      | _ => NaN
      end
  end.

Definition string_to_number (s : jsstring) : jsnum :=
  match trim s with
  | [] => Int 0
  | c :: d :: (_ :: _) as r =>
      let radix :=
        if (c =? 48)%N then
          if (d =? 120)%N || (d =? 88)%N then 16%N
          else if (d =? 111)%N || (d =? 79)%N then 8%N
          else if (d =? 98)%N || (d =? 66)%N then 2%N else 0%N
        else 0%N in
      if (radix =? 0)%N then str_decimal (c :: d :: r)
      else match radix_value radix 0 r with
           | Some v => Int (Z.of_N v)
           | None => NaN
           end
  | t => str_decimal t
  end.

(** ** JavaScript values

    The plain data the engine stores and returns.  An object is the list
    of its own enumerable string-keyed properties in enumeration order
    (keys distinct in a well-formed value; the reordering of integer-like
    keys and the prototype chain are not represented).  Functions, symbols
    and cyclic structures are outside the type. *)

Inductive jsval :=
| JUndefined
| JNull
| JBool (b : bool)
| JNum (x : jsnum)
| JStr (s : jsstring)
| JDate (t : Z)
| JArr (items : list jsval)
| JObj (props : list (jsstring * jsval)).

Definition props := list (jsstring * jsval).

Fixpoint own_key (k : jsstring) (o : props) : bool :=
  match o with
  | [] => false
  | (k', _) :: o' => str_eqb k k' || own_key k o'
  end.

(** [o[k]] for an own data property; [undefined] when there is none. *)
Fixpoint prop_get (o : props) (k : jsstring) : jsval :=
  match o with
  | [] => JUndefined
  | (k', v) :: o' => if str_eqb k k' then v else prop_get o' k
  end.

(** [CreateDataProperty]: replaces the value of an existing key in place,
    otherwise appends. *)
Fixpoint prop_define (o : props) (k : jsstring) (v : jsval) : props :=
  match o with
  | [] => [(k, v)]
  | (k', v') :: o' =>
      if str_eqb k k' then (k', v) :: o' else (k', v') :: prop_define o' k v
  end.

(** The assignment [o[k] = v] on an ordinary object: the key [__proto__]
    reaches the accessor of [Object.prototype] and creates no own
    property. *)
Definition prop_assign (o : props) (k : jsstring) (v : jsval) : props :=
  if str_eqb k (lit "__proto__") then o else prop_define o k v.

Definition is_object (v : jsval) : bool :=
  match v with
  | JDate _ | JArr _ | JObj _ => true
  | _ => false
  end.

(** [typeof v === 'object'] *)
Definition typeof_object (v : jsval) : bool :=
  match v with
  | JNull => true
  | _ => is_object v
  end.

(** [ToBoolean] *)
Definition truthy (v : jsval) : bool :=
  match v with
  | JUndefined | JNull => false
  | JBool b => b
  | JNum x => num_truthy x
  | JStr s => match s with [] => false | _ => true end
  | _ => true
  end.

(** [a ?? b] *)
Definition nullish_or (a b : jsval) : jsval :=
  match a with
  | JUndefined | JNull => b
  | _ => a
  end.

(** [k in v] for an object [v] and a property name [k] that is neither
    an array index, nor [length], nor a name defined on the built-in
    prototypes (the engine asks for [value] and [expires] only). *)
Definition js_in (k : jsstring) (v : jsval) : bool :=
  match v with
  | JObj o => own_key k o
  | _ => false
  end.

(** [v.k]: own property of an ordinary object, else [undefined] (same
    restriction on [k]). *)
Definition js_get (v : jsval) (k : jsstring) : jsval :=
  match v with
  | JObj o => prop_get o k
  | _ => JUndefined
  end.

(** ** Exceptions *)

Inductive exn :=
| TypeError
| SyntaxError
| InvalidCharacterError
| QuotaExceededError.

Inductive result (A : Type) :=
| Ok (a : A)
| Throw (e : exn).
Arguments Ok {A} a.
Arguments Throw {A} e.

(** ** [Date.prototype.toISOString] *)

Definition pad (width : nat) (n : Z) : jsstring :=
  let ds := digits (Z.abs_N n) in
  zeros (width - List.length ds) ++ ds.

(** Year, month and day of the given day number (days since 1970-01-01)
    in the proleptic Gregorian calendar. *)
Definition civil_from_days (z0 : Z) : Z * Z * Z :=
  let z := (z0 + 719468)%Z in
  let era := (z / 146097)%Z in
  let doe := (z - era * 146097)%Z in
  let yoe := ((doe - doe / 1460 + doe / 36524 - doe / 146096) / 365)%Z in
  let doy := (doe - (365 * yoe + yoe / 4 - yoe / 100))%Z in
  let mp := ((5 * doy + 2) / 153)%Z in
  let d := (doy - (153 * mp + 2) / 5 + 1)%Z in
  let m := (if mp <? 10 then mp + 3 else mp - 9)%Z in
  let y := (yoe + era * 400 + (if m <=? 2 then 1 else 0))%Z in
  (y, m, d).

Definition valid_time (t : Z) : bool := (Z.abs t <=? 8640000000000000)%Z.

Definition toISOString (t : Z) : jsstring :=
  let '(y, m, d) := civil_from_days (t / 86400000) in
  let ms := (t mod 86400000)%Z in
  (if (0 <=? y)%Z && (y <=? 9999)%Z then pad 4 y
   else (if (y <? 0)%Z then 45%N else 43%N) :: pad 6 y)
  ++ 45%N :: pad 2 m ++ 45%N :: pad 2 d
  ++ 84%N :: pad 2 (ms / 3600000) ++ 58%N :: pad 2 (ms / 60000 mod 60)
  ++ 58%N :: pad 2 (ms / 1000 mod 60) ++ 46%N :: pad 3 (ms mod 1000) ++ [90%N].

(** ** Coercions used by the relational operator *)

Fixpoint join (sep : jsstring) (l : list jsstring) : jsstring :=
  match l with
  | [] => []
  | [x] => x
  | x :: l' => x ++ sep ++ join sep l'
  end.

Fixpoint sequence {A} (l : list (result A)) : result (list A) :=
  match l with
  | [] => Ok []
  | Ok a :: l' =>
      match sequence l' with
      | Ok r => Ok (a :: r)
      | Throw e => Throw e
      end
  | Throw e :: _ => Throw e
  end.

(** [ToString].  A data object whose own [toString] property shadows the
    inherited method has nothing callable left to convert it: [TypeError].
    An array is joined by [Array.prototype.toString].  The text of a
    [Date] depends on the host's time zone and is never a numeral; the
    ISO text stands for it. *)
Fixpoint to_string (v : jsval) : result jsstring :=
  match v with
  | JUndefined => Ok (lit "undefined")
  | JNull => Ok (lit "null")
  | JBool true => Ok (lit "true")
  | JBool false => Ok (lit "false")
  | JNum x => Ok (num_to_string x)
  | JStr s => Ok s
  | JDate t => Ok (if valid_time t then toISOString t else lit "Invalid Date")
  | JArr items =>
      match sequence (map (fun x =>
                match x with
                | JUndefined | JNull => Ok []
                | _ => to_string x
                end) items) with
      | Ok parts => Ok (join [44%N] parts)
      | Throw e => Throw e
      end
  | JObj o =>
      if own_key (lit "toString") o then Throw TypeError
      else Ok (lit "[object Object]")
  end.

(** [ToNumber (ToPrimitive v number)] *)
Definition to_number (v : jsval) : result jsnum :=
  match v with
  | JUndefined => Ok NaN
  | JNull => Ok (Int 0)
  | JBool b => Ok (Int (if b then 1 else 0))
  | JNum x => Ok x
  | JStr s => Ok (string_to_number s)
  | JDate t => Ok (if valid_time t then Int t else NaN)
  | JArr _ | JObj _ =>
      match to_string v with
      | Ok s => Ok (string_to_number s)
      | Throw e => Throw e
      end
  end.

(** [a > b] with a number on the left. *)
Definition js_gt (a : jsnum) (b : jsval) : result bool :=
  match to_number b with
  | Ok y => Ok (num_lt y a)
  | Throw e => Throw e
  end.

(** ** JSON

    *** [JSON.stringify] (no replacer, no indentation) *)

Definition hex_digit (n : N) : N := if (n <? 10)%N then (48 + n)%N else (87 + n)%N.

Definition escape_u (c : N) : jsstring :=
  [92; 117; hex_digit (c / 4096); hex_digit (c / 256 mod 16);
   hex_digit (c / 16 mod 16); hex_digit (c mod 16)]%N.

Definition is_high (c : N) : bool := (55296 <=? c)%N && (c <=? 56319)%N.
Definition is_low (c : N) : bool := (56320 <=? c)%N && (c <=? 57343)%N.

(** One code unit that is not a surrogate. *)
Definition quote_unit (c : N) : jsstring :=
  if (c =? 8)%N then [92; 98]%N
  else if (c =? 9)%N then [92; 116]%N
  else if (c =? 10)%N then [92; 110]%N
  else if (c =? 12)%N then [92; 102]%N
  else if (c =? 13)%N then [92; 114]%N
  else if (c =? 34)%N then [92; 34]%N
  else if (c =? 92)%N then [92; 92]%N
  else if (c <? 32)%N then escape_u c
  else [c].

(** Surrogate pairs are copied, lone surrogates are escaped. *)
Fixpoint quote_units (s : jsstring) : jsstring :=
  match s with
  | [] => []
  | c :: rest =>
      if is_high c then
        match rest with
        | d :: rest' =>
            if is_low d then c :: d :: quote_units rest'
            else escape_u c ++ quote_units rest
        | [] => escape_u c
        end
      else if is_low c then escape_u c ++ quote_units rest
      else quote_unit c ++ quote_units rest
  end.

(** [QuoteJSONString] *)
Definition quote (s : jsstring) : jsstring := 34%N :: quote_units s ++ [34%N].

Definition num_finite (x : jsnum) : bool :=
  match x with
  | Int _ | Dec _ _ => true
  | _ => false
  end.

(** [SerializeJSONProperty]; [None] is the result [undefined]. *)
Fixpoint stringify (v : jsval) : option jsstring :=
  match v with
  | JUndefined => None
  | JNull => Some (lit "null")
  | JBool true => Some (lit "true")
  | JBool false => Some (lit "false")
  | JNum x => Some (if num_finite x then num_to_string x else lit "null")
  | JStr s => Some (quote s)
  | JDate t => Some (if valid_time t then quote (toISOString t) else lit "null")
  | JArr items =>
      Some (91%N :: join [44%N]
              (map (fun x => match stringify x with
                             | Some t => t
                             | None => lit "null"
                             end) items) ++ [93%N])
  | JObj o =>
      Some (123%N :: join [44%N]
              (flat_map (fun kv => match stringify (snd kv) with
                                   | Some t => [quote (fst kv) ++ 58%N :: t]
                                   | None => []
                                   end) o) ++ [125%N])
  end.

(** *** [JSON.parse] (no reviver) *)

Definition is_ws (c : N) : bool :=
  (c =? 9)%N || (c =? 10)%N || (c =? 13)%N || (c =? 32)%N.

Fixpoint skip_ws (s : jsstring) : jsstring :=
  match s with
  | c :: s' => if is_ws c then skip_ws s' else s
  | [] => []
  end.

Definition hex4 (a b c d : N) : option N :=
  match radix_digit 16 a, radix_digit 16 b, radix_digit 16 c, radix_digit 16 d with
  | Some x, Some y, Some z, Some w => Some (4096 * x + 256 * y + 16 * z + w)%N
  | _, _, _, _ => None
  end.

Definition unescape (c : N) : option N :=
  if (c =? 34)%N || (c =? 92)%N || (c =? 47)%N then Some c
  else if (c =? 98)%N then Some 8%N
  else if (c =? 102)%N then Some 12%N
  else if (c =? 110)%N then Some 10%N
  else if (c =? 114)%N then Some 13%N
  else if (c =? 116)%N then Some 9%N
  else None.

(** The characters of a string literal after its opening quote, up to and
    including the closing quote. *)
Fixpoint parse_chars (s : jsstring) : option (jsstring * jsstring) :=
  match s with
  | [] => None
  | c :: rest =>
      if (c =? 34)%N then Some ([], rest)
      else if (c =? 92)%N then
        match rest with
        | e :: r1 =>
            if (e =? 117)%N then
              match r1 with
              | h1 :: h2 :: h3 :: h4 :: r2 =>
                  match hex4 h1 h2 h3 h4, parse_chars r2 with
                  | Some u, Some (t, r) => Some (u :: t, r)
                  | _, _ => None
                  end
              | _ => None
              end
            else
              match unescape e, parse_chars r1 with
              | Some u, Some (t, r) => Some (u :: t, r)
              | _, _ => None
              end
        | [] => None
        end
      else if (c <? 32)%N then None
      else match parse_chars rest with
           | Some (t, r) => Some (c :: t, r)
           | None => None
           end
  end.

(** A number literal: [-]? int frac? exp?, without leading zeroes. *)
Definition parse_int_part (s : jsstring) : jsstring * jsstring :=
  match s with
  | c :: s' => if (c =? 48)%N then ([c], s') else span_digits s
  | [] => ([], [])
  end.

Definition parse_frac_part (s : jsstring) : option (jsstring * jsstring) :=
  match s with
  | c :: r =>
      if (c =? 46)%N then
        match span_digits r with
        | ([], _) => None
        | (fp, r2) => Some (fp, r2)
        end
      else Some ([], s)
  | [] => Some ([], [])
  end.

Definition signed (neg : bool) (m : Z) : Z := if neg then (- m)%Z else m.

(** The value of a numeral, exactly (the platform rounds it to the nearest
    binary64 number, which is this value whenever binary64 holds it). *)
Definition parse_unsigned (neg : bool) (s : jsstring) : option (jsnum * jsstring) :=
  let '(ip, r1) := parse_int_part s in
  match ip with
  | [] => None
  | _ =>
      match parse_frac_part r1 with
      | None => None
      | Some (fp, r2) =>
          match exponent_opt r2 with
          | None => None
          | Some (x, r3) =>
              Some (mk_num (signed neg (Z.of_N (digits_value 0 (ip ++ fp))))
                           (x - Z.of_nat (List.length fp))%Z, r3)
          end
      end
  end.

Definition parse_number (s : jsstring) : option (jsnum * jsstring) :=
  match s with
  | c :: s' => if (c =? 45)%N then parse_unsigned true s' else parse_unsigned false s
  | [] => None
  end.

Definition expect (word : jsstring) (v : jsval) (s : jsstring)
  : option (jsval * jsstring) :=
  if startsWith s word then Some (v, skipn (List.length word) s) else None.

(** The recursive descent; every call spends one unit of [fuel]. *)
Fixpoint parse_value (fuel : nat) (s : jsstring) {struct fuel}
  : option (jsval * jsstring) :=
  match fuel with
  | O => None
  | S f =>
      match skip_ws s with
      | [] => None
      | c :: r =>
          if (c =? 123)%N then
            match skip_ws r with
            | [] => None
            | d :: r' =>
                if (d =? 125)%N then Some (JObj [], r')
                else match parse_members f (d :: r') with
                     | Some (kvs, r2) =>
                         Some (JObj (fold_left (fun o kv =>
                                       prop_define o (fst kv) (snd kv)) kvs []), r2)
                     | None => None
                     end
            end
          else if (c =? 91)%N then
            match skip_ws r with
            | [] => None
            | d :: r' =>
                if (d =? 93)%N then Some (JArr [], r')
                else match parse_elements f (d :: r') with
                     | Some (vs, r2) => Some (JArr vs, r2)
                     | None => None
                     end
            end
          else if (c =? 34)%N then
            match parse_chars r with
            | Some (t, r') => Some (JStr t, r')
            | None => None
            end
          else if (c =? 116)%N then expect (lit "true") (JBool true) (c :: r)
          else if (c =? 102)%N then expect (lit "false") (JBool false) (c :: r)
          else if (c =? 110)%N then expect (lit "null") JNull (c :: r)
          else match parse_number (c :: r) with
               | Some (x, r') => Some (JNum x, r')
               | None => None
               end
      end
  end

(** One or more elements, then the closing bracket. *)
with parse_elements (fuel : nat) (s : jsstring) {struct fuel}
  : option (list jsval * jsstring) :=
  match fuel with
  | O => None
  | S f =>
      match parse_value f s with
      | Some (v, r) =>
          match skip_ws r with
          | c :: r' =>
              if (c =? 93)%N then Some ([v], r')
              else if (c =? 44)%N then
                match parse_elements f r' with
                | Some (vs, r2) => Some (v :: vs, r2)
                | None => None
                end
              else None
          | [] => None
          end
      | None => None
      end
  end

(** One or more members, then the closing brace. *)
with parse_members (fuel : nat) (s : jsstring) {struct fuel}
  : option (list (jsstring * jsval) * jsstring) :=
  match fuel with
  | O => None
  | S f =>
      match skip_ws s with
      | q :: r0 =>
          if (q =? 34)%N then
            match parse_chars r0 with
            | Some (k, r1) =>
                match skip_ws r1 with
                | colon :: r2 =>
                    if (colon =? 58)%N then
                      match parse_value f r2 with
                      | Some (v, r3) =>
                          match skip_ws r3 with
                          | c :: r' =>
                              if (c =? 125)%N then Some ([(k, v)], r')
                              else if (c =? 44)%N then
                                match parse_members f r' with
                                | Some (kvs, r4) => Some ((k, v) :: kvs, r4)
                                | None => None
                                end
                              else None
                          | [] => None
                          end
                      | None => None
                      end
                    else None
                | [] => None
                end
            | None => None
            end
          else None
      | [] => None
      end
  end.

(** [JSON.parse text]: one value between optional white space; anything
    else is a [SyntaxError]. *)
Definition JSON_parse (text : jsstring) : result jsval :=
  match parse_value (2 * List.length text + 2) text with
  | Some (v, r) =>
      match skip_ws r with
      | [] => Ok v
      | _ => Throw SyntaxError
      end
  | None => Throw SyntaxError
  end.

(** ** [btoa] and [atob] *)

Definition b64_char (i : N) : N :=
  if (i <? 26)%N then (65 + i)%N
  else if (i <? 52)%N then (71 + i)%N
  else if (i <? 62)%N then (i - 4)%N
  else if (i =? 62)%N then 43%N
  else 47%N.

Definition b64_index (c : N) : option N :=
  if (65 <=? c)%N && (c <=? 90)%N then Some (c - 65)%N
  else if (97 <=? c)%N && (c <=? 122)%N then Some (c - 71)%N
  else if (48 <=? c)%N && (c <=? 57)%N then Some (c + 4)%N
  else if (c =? 43)%N then Some 62%N
  else if (c =? 47)%N then Some 63%N
  else None.

Fixpoint b64_encode (s : list N) : jsstring :=
  match s with
  | [] => []
  | [a] => [b64_char (a / 4); b64_char (a mod 4 * 16); 61; 61]%N
  | [a; b] =>
      [b64_char (a / 4); b64_char (a mod 4 * 16 + b / 16);
       b64_char (b mod 16 * 4); 61]%N
  | a :: b :: c :: rest =>
      [b64_char (a / 4); b64_char (a mod 4 * 16 + b / 16);
       b64_char (b mod 16 * 4 + c / 64); b64_char (c mod 64)]%N
      ++ b64_encode rest
  end.

(** [btoa]: every code unit must be a byte. *)
Definition btoa (s : jsstring) : result jsstring :=
  if forallb (fun c => (c <=? 255)%N) s then Ok (b64_encode s)
  else Throw InvalidCharacterError.

Fixpoint b64_indices (s : jsstring) : option (list N) :=
  match s with
  | [] => Some []
  | c :: s' =>
      match b64_index c, b64_indices s' with
      | Some i, Some l => Some (i :: l)
      | _, _ => None
      end
  end.

Fixpoint b64_decode (l : list N) : list N :=
  match l with
  | a :: b :: c :: d :: rest =>
      [a * 4 + b / 16; b mod 16 * 16 + c / 4; c mod 4 * 64 + d]%N
      ++ b64_decode rest
  | [a; b; c] => [a * 4 + b / 16; b mod 16 * 16 + c / 4]%N
  | [a; b] => [(a * 4 + b / 16)%N]
  | _ => []
  end.

Definition is_ascii_ws (c : N) : bool :=
  (c =? 9)%N || (c =? 10)%N || (c =? 12)%N || (c =? 13)%N || (c =? 32)%N.

(** Up to two trailing [=] removed (given in reverse). *)
Definition drop_padding_rev (r : jsstring) : jsstring :=
  match r with
  | p :: r1 =>
      if (p =? 61)%N then
        match r1 with
        | q :: r2 => if (q =? 61)%N then r2 else r1
        | [] => r1
        end
      else r
  | [] => r
  end.

(** [atob]: the forgiving base64 decoder. *)
Definition atob (s : jsstring) : result jsstring :=
  let d0 := filter (fun c => negb (is_ascii_ws c)) s in
  let d1 := if (List.length d0 mod 4 =? 0)%nat
            then rev (drop_padding_rev (rev d0)) else d0 in
  if (List.length d1 mod 4 =? 1)%nat then Throw InvalidCharacterError
  else match b64_indices d1 with
       | Some l => Ok (b64_decode l)
       | None => Throw InvalidCharacterError
       end.

(* ------------------------------------------------------------------ *)
(** ** [src/types.ts]: the codec *)

Definition default_encryptKey : jsstring := lit "vue-web-storage".

(** [key.charCodeAt(i % keyLength)] as the right operand of [^]: an index
    out of range (the empty key) gives [NaN], which [^] reads as 0. *)
Definition key_code (key : jsstring) (i : nat) : N :=
  match charCodeAt key (i mod List.length key) with
  | Some k => k
  | None => 0%N
  end.

(** The loop body [String.fromCharCode(charCode ^ keyCode)] from index [i]
    on. *)
Fixpoint xor_from (i : nat) (text key : jsstring) : jsstring :=
  match text with
  | [] => []
  | c :: rest =>
      (N.lxor c (key_code key i) mod 65536)%N :: xor_from (S i) rest key
  end.

Definition key_or_default (key : option jsstring) : jsstring :=
  match key with
  | Some k => k
  | None => default_encryptKey
  end.

Definition encrypt (text : jsstring) (key : option jsstring) : result jsstring :=
  btoa (xor_from 0 text (key_or_default key)).

Definition decrypt (encryptedText : jsstring) (key : option jsstring) : jsstring :=
  match atob encryptedText with
  | Ok text => xor_from 0 text (key_or_default key)
  | Throw _ => encryptedText
  end.

(** [serialize]; [Ok None] is the result [undefined] of [JSON.stringify],
    on which [encrypt] raises when it reads [text.length]. *)
Definition serialize (data : jsval) (shouldEncrypt : bool)
    (encryptKey : option jsstring) : result (option jsstring) :=
  match stringify data with
  | Some jsonString =>
      if shouldEncrypt then
        match encrypt jsonString encryptKey with
        | Ok t => Ok (Some t)
        | Throw e => Throw e
        end
      else Ok (Some jsonString)
  | None => if shouldEncrypt then Throw TypeError else Ok None
  end.

Definition deserialize (data : jsstring) (encrypted : bool)
    (encryptKey : option jsstring) : jsval :=
  let jsonString := if encrypted then decrypt data encryptKey else data in
  match JSON_parse jsonString with
  | Ok v => v
  | Throw _ => JNull
  end.

Fixpoint deepClone (obj : jsval) : jsval :=
  match obj with
  | JDate t => JDate t
  | JArr items => JArr (map deepClone items)
  | JObj o =>
      JObj (fold_left (fun copy kv => prop_assign copy (fst kv) (deepClone (snd kv)))
                      o [])
  | _ => obj
  end.

(* ------------------------------------------------------------------ *)
(** ** The platform state

    *** The Web Storage facility

    One namespace: its entries in enumeration order (a new key is
    appended, an existing key is overwritten in place), the quota in code
    units, and the journal of the calls made on it. *)

Inductive StorageCall :=
| CallKey (i : nat)
| CallGetItem (k : jsstring)
| CallSetItem (k v : jsstring)
| CallRemoveItem (k : jsstring).

Record Storage := {
  entries : list (jsstring * jsstring);
  quota : N;
  journal : list StorageCall
}.

Fixpoint lookup (k : jsstring) (l : list (jsstring * jsstring)) : option jsstring :=
  match l with
  | [] => None
  | (k', v) :: l' => if str_eqb k k' then Some v else lookup k l'
  end.

Fixpoint store (k v : jsstring) (l : list (jsstring * jsstring))
  : list (jsstring * jsstring) :=
  match l with
  | [] => [(k, v)]
  | (k', v') :: l' =>
      if str_eqb k k' then (k', v) :: l' else (k', v') :: store k v l'
  end.

Definition erase (k : jsstring) (l : list (jsstring * jsstring))
  : list (jsstring * jsstring) :=
  filter (fun kv => negb (str_eqb k (fst kv))) l.

Fixpoint used (l : list (jsstring * jsstring)) : N :=
  match l with
  | [] => 0%N
  | (k, v) :: l' => (N.of_nat (List.length k + List.length v) + used l')%N
  end.

Definition journaled (c : StorageCall) (s : Storage) : Storage :=
  {| entries := entries s; quota := quota s; journal := journal s ++ [c] |}.

(** *** The clock

    [Date.now()] returns the current reading; [later] holds the readings
    the following calls will see (the last one stays). *)

Record Clock := {
  now : Z;
  later : list Z
}.

Definition tick (c : Clock) : Clock :=
  match later c with
  | [] => c
  | t :: l => {| now := t; later := l |}
  end.

(** *** Events *)

Inductive StorageType := LOCAL | SESSION.

Inductive StorageEventType := EvSet | EvGet | EvRemove | EvClear | EvExpired.

Definition event_eqb (a b : StorageEventType) : bool :=
  match a, b with
  | EvSet, EvSet | EvGet, EvGet | EvRemove, EvRemove
  | EvClear, EvClear | EvExpired, EvExpired => true
  | _, _ => false
  end.

(** [Partial<StorageEventData>] as the call sites build it. *)
Record EventPayload := {
  p_key : option jsstring;
  p_value : option jsval
}.

Record StorageEventData := {
  ev_type : StorageEventType;
  ev_key : option jsstring;
  ev_value : option jsval;
  ev_timestamp : Z
}.

(** A listener is known by its identity; what it does with the event is
    its own business (its exceptions are caught by [emit], and it is
    assumed not to call back into the storage). *)
Definition StorageEventListener := nat.

(** *** The world *)

Record World := {
  localStorage : Storage;
  sessionStorage : Storage;
  clock : Clock;
  delivered : list (StorageEventListener * StorageEventData)
}.

(** ** Computations: state and exceptions *)

Definition M (St A : Type) : Type := St -> result A * St.

Definition ret {St A} (a : A) : M St A := fun s => (Ok a, s).

Definition bind {St A B} (m : M St A) (k : A -> M St B) : M St B :=
  fun s => match m s with
           | (Ok a, s') => k a s'
           | (Throw e, s') => (Throw e, s')
           end.

Definition throw {St A} (e : exn) : M St A := fun s => (Throw e, s).

(** [try { body } catch (error) { handler }] *)
Definition try_catch {St A} (body : M St A) (handler : exn -> M St A) : M St A :=
  fun s => match body s with
           | (Ok a, s') => (Ok a, s')
           | (Throw e, s') => handler e s'
           end.

Definition of_result {St A} (r : result A) : M St A := fun s => (r, s).

Notation "x <- m ;; k" := (bind m (fun x => k))
  (at level 61, m at next level, right associativity).
Notation "m ;;; k" := (bind m (fun _ => k))
  (at level 61, right associativity).

(** A computation on the world, run where local variables [L] are part
    of the state. *)
Definition global {L A} (m : M World A) : M (World * L) A :=
  fun s => let '(r, w) := m (fst s) in (r, (w, snd s)).

Definition local {L} : M (World * L) L := fun s => (Ok (snd s), s).

Definition assign {L} (f : L -> L) : M (World * L) unit :=
  fun s => (Ok tt, (fst s, f (snd s))).

(** A block that declares local variables with initial values [l]. *)
Definition block {L A} (l : L) (m : M (World * L) A) : M World A :=
  fun w => let '(r, s) := m (w, l) in (r, fst s).

(** [for (let i = from; i < from + count; i++) body(i)] *)
Fixpoint for_each {St} (count from : nat) (body : nat -> M St unit) : M St unit :=
  match count with
  | O => ret tt
  | S n => body from ;;; for_each n (S from) body
  end.

Fixpoint for_all {St A} (l : list A) (body : A -> M St unit) : M St unit :=
  match l with
  | [] => ret tt
  | a :: l' => body a ;;; for_all l' body
  end.

Definition Date_now : M World Z :=
  fun w => (Ok (now (clock w)),
            {| localStorage := localStorage w; sessionStorage := sessionStorage w;
               clock := tick (clock w); delivered := delivered w |}).

(* ------------------------------------------------------------------ *)
(** ** [src/types.ts]: the expiry policy *)

Definition isExpired (expires : jsval) : M World bool :=
  match expires with
  | JNull => ret false
  | _ => t <- Date_now ;; of_result (js_gt (Int t) expires)
  end.

(** The argument is [None] for [undefined].  The sum is formed exactly:
    it is the platform's sum whenever the reading, the duration and their
    sum are integers binary64 holds exactly, and whenever the duration is
    not finite. *)
Definition calculateExpires (expires : option jsnum) : M World jsval :=
  match expires with
  | None => ret JNull
  | Some d => t <- Date_now ;; ret (JNum (num_add (Int t) d))
  end.

(* ------------------------------------------------------------------ *)
(** ** [src/storage.ts]: the class [WebStorage] *)

(** [StorageOptions] as given by the caller, [None] for an absent
    option.  An option is absent or holds a value of its declared type:
    one passed explicitly as [undefined], which the spread of the
    constructor would put over the default, is not represented
    ([Required<StorageOptions>] is the declared type of the resolved
    options, and the methods are written for it). *)
Record StorageOptions := {
  o_type : option StorageType;
  o_defaultExpires : option jsnum;
  o_prefix : option jsstring;
  o_encrypt : option bool;
  o_encryptKey : option jsstring
}.

(** [Required<StorageOptions>] *)
Record Options := {
  opt_type : StorageType;
  opt_defaultExpires : jsnum;
  opt_prefix : jsstring;
  opt_encrypt : bool;
  opt_encryptKey : jsstring
}.

Record SetOptions := {
  s_expires : option jsnum;
  s_encrypt : option bool
}.

(** [defaultValue] is [JUndefined] when the option is absent. *)
Record GetOptions := {
  defaultValue : jsval
}.

Record StorageStats := {
  total : nat;
  expired : nat;
  valid : nat;
  usedBytes : nat
}.

Record WebStorage := {
  options : Options;
  listeners : list (StorageEventType * list StorageEventListener)
}.

Definition option_or {A} (o : option A) (d : A) : A :=
  match o with
  | Some a => a
  | None => d
  end.

Definition resolve (o : StorageOptions) : Options :=
  {| opt_type := option_or (o_type o) LOCAL;
     opt_defaultExpires := option_or (o_defaultExpires o) (Int 0);
     opt_prefix := option_or (o_prefix o) (lit "vue-storage-");
     opt_encrypt := option_or (o_encrypt o) false;
     opt_encryptKey := option_or (o_encryptKey o) (lit "vue-web-storage") |}.

(** *** [this.storage] and the calls made on it *)

Definition storage_of (this : WebStorage) (w : World) : Storage :=
  match opt_type (options this) with
  | LOCAL => localStorage w
  | SESSION => sessionStorage w
  end.

Definition with_storage (this : WebStorage) (s : Storage) (w : World) : World :=
  match opt_type (options this) with
  | LOCAL => {| localStorage := s; sessionStorage := sessionStorage w;
                clock := clock w; delivered := delivered w |}
  | SESSION => {| localStorage := localStorage w; sessionStorage := s;
                  clock := clock w; delivered := delivered w |}
  end.

Definition storage_length (this : WebStorage) : M World nat :=
  fun w => (Ok (List.length (entries (storage_of this w))), w).

Definition storage_key (this : WebStorage) (i : nat) : M World (option jsstring) :=
  fun w => let s := storage_of this w in
           (Ok (option_map fst (nth_error (entries s) i)),
            with_storage this (journaled (CallKey i) s) w).

Definition storage_getItem (this : WebStorage) (k : jsstring)
  : M World (option jsstring) :=
  fun w => let s := storage_of this w in
           (Ok (lookup k (entries s)),
            with_storage this (journaled (CallGetItem k) s) w).

Definition storage_setItem (this : WebStorage) (k v : jsstring) : M World unit :=
  fun w => let s := journaled (CallSetItem k v) (storage_of this w) in
           let l := store k v (entries s) in
           if (used l <=? quota s)%N
           then (Ok tt, with_storage this
                          {| entries := l; quota := quota s; journal := journal s |} w)
           else (Throw QuotaExceededError, with_storage this s w).

Definition storage_removeItem (this : WebStorage) (k : jsstring) : M World unit :=
  fun w => let s := journaled (CallRemoveItem k) (storage_of this w) in
           (Ok tt, with_storage this
                     {| entries := erase k (entries s); quota := quota s;
                        journal := journal s |} w).

(** *** Methods *)

Definition getFullKey (this : WebStorage) (key : jsstring) : jsstring :=
  opt_prefix (options this) ++ key.

Fixpoint listeners_get (type : StorageEventType)
    (m : list (StorageEventType * list StorageEventListener))
  : option (list StorageEventListener) :=
  match m with
  | [] => None
  | (t, ls) :: m' => if event_eqb type t then Some ls else listeners_get type m'
  end.

(** The call [listener(eventData)] inside its own [try]. *)
Definition invoke (eventData : StorageEventData) (listener : StorageEventListener)
  : M World unit :=
  fun w => (Ok tt,
            {| localStorage := localStorage w; sessionStorage := sessionStorage w;
               clock := clock w;
               delivered := delivered w ++ [(listener, eventData)] |}).

Definition emit (this : WebStorage) (type : StorageEventType) (data : EventPayload)
  : M World unit :=
  match listeners_get type (listeners this) with
  | Some (l :: ls) =>
      t <- Date_now ;;
      let eventData := {| ev_type := type; ev_key := p_key data;
                          ev_value := p_value data; ev_timestamp := t |} in
      for_all (l :: ls) (invoke eventData)
  | _ => ret tt
  end.

Definition no_payload : EventPayload := {| p_key := None; p_value := None |}.
Definition key_payload (key : jsstring) : EventPayload :=
  {| p_key := Some key; p_value := None |}.
Definition key_value_payload (key : jsstring) (value : jsval) : EventPayload :=
  {| p_key := Some key; p_value := Some value |}.

(** [(options.expires ?? this.options.defaultExpires) || undefined] *)
Definition effective_expires (this : WebStorage) (o : SetOptions) : option jsnum :=
  let d := option_or (s_expires o) (opt_defaultExpires (options this)) in
  if num_truthy d then Some d else None.

Definition envelope (value expires : jsval) (created : Z) : jsval :=
  JObj [(lit "value", value); (lit "expires", expires);
        (lit "created", JNum (Int created))].

(** [setItem] converts its argument to a string. *)
Definition text_of (t : option jsstring) : jsstring := option_or t (lit "undefined").

Definition set (this : WebStorage) (key : jsstring) (value : jsval) (o : SetOptions)
  : M World bool :=
  try_catch
    (let fullKey := getFullKey this key in
     expires <- calculateExpires (effective_expires this o) ;;
     let cloned := deepClone value in
     created <- Date_now ;;
     let item := envelope cloned expires created in
     let shouldEncrypt := option_or (s_encrypt o) (opt_encrypt (options this)) in
     serializedData <- of_result
       (serialize item shouldEncrypt (Some (opt_encryptKey (options this)))) ;;
     storage_setItem this fullKey (text_of serializedData) ;;;
     emit this EvSet (key_value_payload key value) ;;;
     ret true)
    (fun _ => ret false).

Definition remove (this : WebStorage) (key : jsstring) : M World bool :=
  try_catch
    (let fullKey := getFullKey this key in
     storage_removeItem this fullKey ;;;
     emit this EvRemove (key_payload key) ;;;
     ret true)
    (fun _ => ret false).

(** [!data] for the result of [getItem]. *)
Definition no_data (data : option jsstring) : bool :=
  match data with
  | None | Some [] => true
  | Some _ => false
  end.

Definition decode (this : WebStorage) (data : option jsstring) : jsval :=
  deserialize (option_or data []) (opt_encrypt (options this))
              (Some (opt_encryptKey (options this))).

Definition get (this : WebStorage) (key : jsstring) (o : GetOptions)
  : M World jsval :=
  try_catch
    (let fullKey := getFullKey this key in
     data <- storage_getItem this fullKey ;;
     if no_data data then ret (nullish_or (defaultValue o) JNull)
     else
       let item := decode this data in
       if negb (truthy item) || negb (typeof_object item)
          || negb (js_in (lit "value") item)
       then ret (nullish_or (defaultValue o) JNull)
       else
         gone <- isExpired (js_get item (lit "expires")) ;;
         if gone : bool then
           remove this key ;;;
           emit this EvExpired (key_payload key) ;;;
           ret (nullish_or (defaultValue o) JNull)
         else
           emit this EvGet (key_value_payload key (js_get item (lit "value"))) ;;;
           ret (deepClone (js_get item (lit "value"))))
    (fun _ => ret (nullish_or (defaultValue o) JNull)).

Definition has (this : WebStorage) (key : jsstring) : M World bool :=
  try_catch
    (let fullKey := getFullKey this key in
     data <- storage_getItem this fullKey ;;
     if no_data data then ret false
     else
       let item := decode this data in
       if negb (truthy item) || negb (typeof_object item)
          || negb (js_in (lit "expires") item)
       then ret false
       else
         gone <- isExpired (js_get item (lit "expires")) ;;
         if gone : bool then remove this key ;;; ret false
         else ret true)
    (fun _ => ret false).

(** [key && key.startsWith(this.options.prefix)] *)
Definition prefixed (this : WebStorage) (key : option jsstring) : bool :=
  match key with
  | None | Some [] => false
  | Some k => startsWith k (opt_prefix (options this))
  end.

(** The storage is not written inside the three scanning loops, so its
    length is read once. *)
Definition clear (this : WebStorage) : M World bool :=
  try_catch
    (block ([] : list jsstring)
       (n <- global (storage_length this) ;;
        for_each n 0 (fun i =>
          key <- global (storage_key this i) ;;
          if prefixed this key
          then assign (fun keysToRemove => keysToRemove ++ [option_or key []])
          else ret tt) ;;;
        keysToRemove <- local ;;
        for_all keysToRemove (fun key => global (storage_removeItem this key)) ;;;
        global (emit this EvClear no_payload) ;;;
        ret true))
    (fun _ => ret false).

(** Local variables of [clearExpired]: [clearedCount] and [keysToRemove]. *)
Definition clearExpired (this : WebStorage) : M World nat :=
  block (0, [] : list jsstring)
    (try_catch
       (n <- global (storage_length this) ;;
        for_each n 0 (fun i =>
          fullKey <- global (storage_key this i) ;;
          if negb (prefixed this fullKey) then ret tt
          else
            data <- global (storage_getItem this (option_or fullKey [])) ;;
            if no_data data then ret tt
            else
              let item := decode this data in
              if truthy item && typeof_object item && js_in (lit "expires") item
              then
                gone <- global (isExpired (js_get item (lit "expires"))) ;;
                if gone : bool
                then assign (fun l => (fst l, snd l ++ [option_or fullKey []]))
                else ret tt
              else ret tt) ;;;
        l <- local ;;
        for_all (snd l) (fun key =>
          global (storage_removeItem this key) ;;;
          assign (fun l => (S (fst l), snd l))) ;;;
        l <- local ;;
        (if (0 <? fst l)%nat then global (emit this EvExpired no_payload)
         else ret tt) ;;;
        ret (fst l))
       (fun _ => l <- local ;; ret (fst l))).

(** [keys]: here [has] may remove entries while the loop runs, so the
    length is read at every turn; [fuel] bounds the number of turns by
    the length on entry. *)
Fixpoint keys_loop (this : WebStorage) (fuel i : nat)
  : M (World * list jsstring) unit :=
  match fuel with
  | O => ret tt
  | S f =>
      n <- global (storage_length this) ;;
      if (i <? n)%nat then
        fullKey <- global (storage_key this i) ;;
        (if prefixed this fullKey then
           let key := skipn (List.length (opt_prefix (options this)))
                            (option_or fullKey []) in
           present <- global (has this key) ;;
           if present : bool then assign (fun keys => keys ++ [key]) else ret tt
         else ret tt) ;;;
        keys_loop this f (S i)
      else ret tt
  end.

Definition keys (this : WebStorage) : M World (list jsstring) :=
  block ([] : list jsstring)
    (try_catch
       (n <- global (storage_length this) ;; keys_loop this n 0)
       (fun _ => ret tt) ;;;
     local).

Definition count_entry (fullKey data : jsstring) (s : StorageStats) : StorageStats :=
  {| total := S (total s); expired := expired s; valid := valid s;
     usedBytes := usedBytes s + (List.length fullKey + List.length data) |}.

Definition count_expired (s : StorageStats) : StorageStats :=
  {| total := total s; expired := S (expired s); valid := valid s;
     usedBytes := usedBytes s |}.

Definition count_valid (s : StorageStats) : StorageStats :=
  {| total := total s; expired := expired s; valid := S (valid s);
     usedBytes := usedBytes s |}.

Definition getStats (this : WebStorage) : M World StorageStats :=
  block {| total := 0; expired := 0; valid := 0; usedBytes := 0 |}
    (try_catch
       (n <- global (storage_length this) ;;
        for_each n 0 (fun i =>
          fullKey <- global (storage_key this i) ;;
          if negb (prefixed this fullKey) then ret tt
          else
            data <- global (storage_getItem this (option_or fullKey [])) ;;
            if no_data data then ret tt
            else
              assign (count_entry (option_or fullKey []) (option_or data [])) ;;;
              let item := decode this data in
              if truthy item && typeof_object item && js_in (lit "expires") item
              then
                gone <- global (isExpired (js_get item (lit "expires"))) ;;
                if gone : bool then assign count_expired else assign count_valid
              else assign count_valid))
       (fun _ => ret tt) ;;;
     local).

Definition listeners_add (type : StorageEventType) (listener : StorageEventListener)
    (m : list (StorageEventType * list StorageEventListener))
  : list (StorageEventType * list StorageEventListener) :=
  let add ls := if existsb (Nat.eqb listener) ls then ls else ls ++ [listener] in
  (fix go m :=
     match m with
     | [] => [(type, add [])]
     | (t, ls) :: m' =>
         if event_eqb type t then (t, add ls) :: m' else (t, ls) :: go m'
     end) m.

Definition on (this : WebStorage) (type : StorageEventType)
    (listener : StorageEventListener) : WebStorage :=
  {| options := options this;
     listeners := listeners_add type listener (listeners this) |}.

Definition off (this : WebStorage) (type : StorageEventType)
    (listener : StorageEventListener) : WebStorage :=
  {| options := options this;
     listeners := map (fun tl =>
                    if event_eqb type (fst tl)
                    then (fst tl, filter (fun l => negb (Nat.eqb listener l)) (snd tl))
                    else tl) (listeners this) |}.

(** The constructor: resolves the options and sweeps once. *)
Definition new_WebStorage (o : StorageOptions) : M World WebStorage :=
  let this := {| options := resolve o; listeners := [] |} in
  clearExpired this ;;; ret this.

(** ** [src/types.ts]: [getStorageSize]
    A [Storage] object shows its entries as own named properties, except
    under the names found on its prototype chain ([Storage.prototype],
    then [Object.prototype]): there the inherited member is what
    [storage[key]] and [for...in] see, and [hasOwnProperty] answers
    [false]. *)
Definition inherited_names : list jsstring :=
  map lit ["length"; "key"; "getItem"; "setItem"; "removeItem"; "clear";
           "constructor"; "hasOwnProperty"; "isPrototypeOf"; "propertyIsEnumerable";
           "toLocaleString"; "toString"; "valueOf"; "__proto__";
           "__defineGetter__"; "__defineSetter__"; "__lookupGetter__";
           "__lookupSetter__"]%string.

Definition own_name (k : jsstring) : bool :=
  negb (existsb (str_eqb k) inherited_names).

(** [for (let key in storage) if (storage.hasOwnProperty(key))
    total += storage[key].length + key.length] (the keys of a namespace
    are distinct, so each is visited once). *)
Definition getStorageSize (storage : Storage) : nat :=
  fold_left (fun total kv =>
               if own_name (fst kv)
               then total + (List.length (option_or (lookup (fst kv) (entries storage)) [])
                             + List.length (fst kv))
               else total)
            (entries storage) 0.

(** ** [src/composables.ts]: [useBatchStorage]
    [useBatchStorage(options)] builds an engine and returns it with three
    closures over it; they are given here as functions of the engine.
    An absent [setOptions] or [getOptions] is the record of absent
    options. *)
Definition useBatchStorage (options : StorageOptions) : M World WebStorage :=
  new_WebStorage options.

(** [Object.entries(items).forEach(([key, value]) => storage.set(...))] *)
Definition batchSet (storage : WebStorage) (items : props) (setOptions : SetOptions)
  : M World unit :=
  for_all items (fun kv => set storage (fst kv) (snd kv) setOptions ;;; ret tt).

(** The local variable is [result]. *)
Definition batchGet (storage : WebStorage) (keys : list jsstring)
    (getOptions : GetOptions) : M World props :=
  block ([] : props)
    (for_all keys (fun key =>
       v <- global (get storage key getOptions) ;;
       assign (fun result => prop_assign result key v)) ;;;
     local).

Definition batchRemove (storage : WebStorage) (keys : list jsstring) : M World unit :=
  for_all keys (fun key => remove storage key ;;; ret tt).

(* ------------------------------------------------------------------ *)
(** ** Vocabulary of the statements

    What may follow a number in a text for the number to end there. *)

Definition not_digit_next (rest : jsstring) : bool :=
  match rest with
  | [] => true
  | c :: _ => negb (is_digit c)
  end.

Definition ends_number (rest : jsstring) : bool :=
  match rest with
  | [] => true
  | c :: _ => negb (is_digit c) && negb (c =? 46)%N && negb (c =? 101)%N
              && negb (c =? 69)%N
  end.

Fixpoint nodup_keys (o : props) : bool :=
  match o with
  | [] => true
  | (k, _) :: o' => negb (own_key k o') && nodup_keys o'
  end.

(** A property name that [deepClone] copies. *)
Definition plain_key (k : jsstring) : bool :=
  str_ok k && negb (str_eqb k (lit "__proto__")).

(** The values JSON represents exactly: [null], booleans, finite numbers,
    strings, arrays of such values, and objects of such values under
    distinct plain keys. *)
Fixpoint json_value (v : jsval) : bool :=
  match v with
  | JUndefined | JDate _ => false
  | JNull | JBool _ => true
  | JNum x => num_finite x && num_ok x
  | JStr s => str_ok s
  | JArr items => forallb json_value items
  | JObj o =>
      forallb (fun kv => plain_key (fst kv) && json_value (snd kv)) o
      && nodup_keys o
  end.

(** The text of an array element, and of an object member. *)
Definition element_text (x : jsval) : jsstring :=
  match stringify x with
  | Some t => t
  | None => lit "null"
  end.

Definition member_text (kv : jsstring * jsval) : jsstring :=
  quote (fst kv) ++ 58%N :: element_text (snd kv).

(** The fuel the parser spends on a value. *)
Fixpoint size (v : jsval) : nat :=
  match v with
  | JArr items => S (fold_right (fun x n => S (size x + n)) 0 items)
  | JObj o => S (fold_right (fun kv n => S (size (snd kv) + n)) 0 o)
  | _ => 1
  end.

Definition size_elems (items : list jsval) : nat :=
  fold_right (fun x n => S (size x + n)) 0 items.

Definition size_members (o : props) : nat :=
  fold_right (fun kv n => S (size (snd kv) + n)) 0 o.

Definition reads_back (x : jsval) : Prop :=
  forall fuel rest, size x <= fuel -> ends_number rest = true ->
    parse_value fuel (element_text x ++ rest) = Some (x, rest).

Definition bytes (s : jsstring) : bool := forallb (fun c => (c <=? 255)%N) s.

(** The encoder's output in sextets, and its padding. *)
Fixpoint sextets (s : list N) : list N :=
  match s with
  | [] => []
  | [a] => [a / 4; a mod 4 * 16]%N
  | [a; b] => [a / 4; a mod 4 * 16 + b / 16; b mod 16 * 4]%N
  | a :: b :: c :: rest =>
      [a / 4; a mod 4 * 16 + b / 16; b mod 16 * 4 + c / 64; c mod 64]%N
      ++ sextets rest
  end.

Fixpoint padding (s : list N) : jsstring :=
  match s with
  | [] => []
  | [_] => [61; 61]%N
  | [_; _] => [61%N]
  | _ :: _ :: _ :: rest => padding rest
  end.

Definition deliveries (eventData : StorageEventData) (ls : list StorageEventListener)
  : list (StorageEventListener * StorageEventData) :=
  map (fun l => (l, eventData)) ls.

Definition registered (this : WebStorage) (type : StorageEventType)
  : list StorageEventListener :=
  match listeners_get type (listeners this) with
  | Some ls => ls
  | None => []
  end.

(** The world after [emit]: the clock is read once if anyone listens,
    and every listener of the kind receives the same record. *)
Definition emitted (this : WebStorage) (type : StorageEventType) (data : EventPayload)
    (w : World) : World :=
  match registered this type with
  | [] => w
  | ls => {| localStorage := localStorage w; sessionStorage := sessionStorage w;
             clock := tick (clock w);
             delivered := delivered w ++
               deliveries {| ev_type := type; ev_key := p_key data;
                             ev_value := p_value data;
                             ev_timestamp := now (clock w) |} ls |}
  end.

Definition ticked (w : World) : World :=
  {| localStorage := localStorage w; sessionStorage := sessionStorage w;
     clock := tick (clock w); delivered := delivered w |}.

(** [isExpired] at the clock reading [t]. *)
Definition expired_at (t : Z) (expires : jsval) : result bool :=
  match expires with
  | JNull => Ok false
  | _ => js_gt (Int t) expires
  end.

(** The world after [getItem], [removeItem] and [key]. *)
Definition noted (this : WebStorage) (c : StorageCall) (w : World) : World :=
  with_storage this (journaled c (storage_of this w)) w.

Definition removed (this : WebStorage) (k : jsstring) (w : World) : World :=
  let s := journaled (CallRemoveItem k) (storage_of this w) in
  with_storage this {| entries := erase k (entries s); quota := quota s;
                       journal := journal s |} w.

(** The guard of [has], [clearExpired] and [getStats]. *)
Definition has_expires (item : jsval) : bool :=
  truthy item && typeof_object item && js_in (lit "expires") item.

(** The guard of [get]. *)
Definition has_value (item : jsval) : bool :=
  truthy item && typeof_object item && js_in (lit "value") item.

Definition or_null (o : GetOptions) : jsval := nullish_or (defaultValue o) JNull.

Definition empty_storage : Storage := {| entries := []; quota := 5000000; journal := [] |}.

Definition world_at (t : Z) (l : list (jsstring * jsstring)) : World :=
  {| localStorage := {| entries := l; quota := 5000000; journal := [] |};
     sessionStorage := empty_storage;
     clock := {| now := t; later := [] |};
     delivered := [] |}.

Definition no_options : StorageOptions :=
  {| o_type := None; o_defaultExpires := None; o_prefix := None;
     o_encrypt := None; o_encryptKey := None |}.

(** An engine with the default options and nobody listening. *)
Definition plain_engine : WebStorage :=
  {| options := resolve no_options; listeners := [] |}.

Definition no_set_options : SetOptions := {| s_expires := None; s_encrypt := None |}.
Definition no_get_options : GetOptions := {| defaultValue := JUndefined |}.

Definition remove_listener_engine : WebStorage := on plain_engine EvRemove 7.

Definition expired_entry : list (jsstring * jsstring) :=
  [(lit "vue-storage-k", jtext "{'value':1,'expires':1500,'created':500}")].

(** The [expires] field computed at the clock reading [t]. *)
Definition expires_for (this : WebStorage) (o : SetOptions) (t : Z) : jsval :=
  match effective_expires this o with
  | None => JNull
  | Some d => JNum (num_add (Int t) d)
  end.

(** The world once the expiry is computed: the clock was read only if
    there is a duration. *)
Definition after_expiry (this : WebStorage) (o : SetOptions) (w : World) : World :=
  match effective_expires this o with
  | None => w
  | Some _ => ticked w
  end.

(** The world after a successful [setItem]. *)
Definition written (this : WebStorage) (k text : jsstring) (w : World) : World :=
  let s := journaled (CallSetItem k text) (storage_of this w) in
  with_storage this {| entries := store k text (entries s); quota := quota s;
                       journal := journal s |} w.

Definition fits (this : WebStorage) (k text : jsstring) (w : World) : bool :=
  (used (store k text (entries (storage_of this w))) <=? quota (storage_of this w))%N.

Definition write_flag (this : WebStorage) (o : SetOptions) : bool :=
  option_or (s_encrypt o) (opt_encrypt (options this)).

(** The envelope [set] builds in the world [w]. *)
Definition item_of (this : WebStorage) (value : jsval) (o : SetOptions) (w : World)
  : jsval :=
  envelope (deepClone value) (expires_for this o (now (clock w)))
           (now (clock (after_expiry this o w))).

Definition with_expires (d : Z) : SetOptions :=
  {| s_expires := Some (Int d); s_encrypt := None |}.

(** The [expires] field as JSON keeps it: a non-finite number is written
    as [null]. *)
Definition kept_expires (e : jsval) : jsval :=
  match e with
  | JNum x => if num_finite x then e else JNull
  | _ => e
  end.

(** The integers binary64 holds exactly: those of magnitude at most
    [2^53].  Every reading of the clock is one, and the sum of two of
    them, when it is one of them again, is computed without rounding;
    its decimal text is written and read back exactly. *)
Definition exact_int (z : Z) : bool := (Z.abs z <=? 9007199254740992)%Z.

(** The same world at another moment. *)
Definition at_clock (c : Clock) (w : World) : World :=
  {| localStorage := localStorage w; sessionStorage := sessionStorage w;
     clock := c; delivered := delivered w |}.

Definition sample_value : jsval :=
  JObj [(lit "name", JStr (lit "Ann"));
        (lit "tags", JArr [JNum (Int 1); JNum (Dec 25 (-1)); JBool true; JNull])].

Definition encrypting_engine : WebStorage :=
  {| options := resolve {| o_type := Some SESSION; o_defaultExpires := None;
                           o_prefix := Some (lit "app-"); o_encrypt := Some true;
                           o_encryptKey := Some (lit "my-secret-key") |};
     listeners := [] |}.

Definition with_encrypt (b : bool) : SetOptions :=
  {| s_expires := None; s_encrypt := Some b |}.

Definition hoare {St A} (P : St -> Prop) (m : M St A) (Q : result A -> St -> Prop)
  : Prop :=
  forall s, P s -> Q (fst (m s)) (snd (m s)).

(** The postcondition that asks [I] of the final state, however the
    computation ends. *)
Definition always {St A} (I : St -> Prop) : result A -> St -> Prop := fun _ s => I s.

(** Loops: [I] holds at every turn; [E] describes the state in which a
    turn may raise. *)
Definition loop_post {St} (I E : St -> Prop) : result unit -> St -> Prop :=
  fun r s => match r with Ok _ => I s | Throw _ => E s end.

(** Computations that keep an invariant, however they end. *)
Definition stable {St A} (I : St -> Prop) (m : M St A) : Prop :=
  hoare I m (always I).

Definition key_in_scope (this : WebStorage) (k : jsstring) : bool :=
  startsWith k (opt_prefix (options this)).

(** Enumeration by index is in scope; a read, a write or a removal is in
    scope when its key carries the prefix. *)
Definition call_in_scope (this : WebStorage) (c : StorageCall) : bool :=
  match c with
  | CallKey _ => true
  | CallGetItem k | CallRemoveItem k | CallSetItem k _ => key_in_scope this k
  end.

(** The namespace the engine is not bound to. *)
Definition other_storage (this : WebStorage) (w : World) : Storage :=
  match opt_type (options this) with
  | LOCAL => sessionStorage w
  | SESSION => localStorage w
  end.

(** [w] is reached from [w0] by calls in scope only: what the journal
    gained is in scope, and no entry out of scope changed. *)
Definition scoped (this : WebStorage) (w0 w : World) : Prop :=
  (exists j, journal (storage_of this w) = journal (storage_of this w0) ++ j
             /\ forallb (call_in_scope this) j = true)
  /\ (forall k, key_in_scope this k = false ->
        lookup k (entries (storage_of this w)) = lookup k (entries (storage_of this w0)))
  /\ other_storage this w = other_storage this w0.

(** The invariant with local variables that satisfy [R]. *)
Definition scoped_with {L} (this : WebStorage) (w0 : World) (R : L -> Prop)
  : World * L -> Prop :=
  fun s => scoped this w0 (fst s) /\ R (snd s).

Definition all_in_scope (this : WebStorage) (l : list jsstring) : Prop :=
  forallb (key_in_scope this) l = true.

Inductive Call :=
| DoSet (key : jsstring) (value : jsval) (o : SetOptions)
| DoGet (key : jsstring) (o : GetOptions)
| DoHas (key : jsstring)
| DoRemove (key : jsstring)
| DoClear
| DoClearExpired
| DoKeys
| DoGetStats.

(** The world after the call. *)
Definition perform (this : WebStorage) (c : Call) (w : World) : World :=
  match c with
  | DoSet key value o => snd (set this key value o w)
  | DoGet key o => snd (get this key o w)
  | DoHas key => snd (has this key w)
  | DoRemove key => snd (remove this key w)
  | DoClear => snd (clear this w)
  | DoClearExpired => snd (clearExpired this w)
  | DoKeys => snd (keys this w)
  | DoGetStats => snd (getStats this w)
  end.

Definition carries_prefix (this : WebStorage) (kv : jsstring * jsstring) : bool :=
  prefixed this (Some (fst kv)).

Definition scan_keys (this : WebStorage) (l : list (jsstring * jsstring))
  : list jsstring :=
  map fst (filter (carries_prefix this) l).

(** The world after [storage.key(i)] for [count] indices from [from]. *)
Fixpoint scanned (this : WebStorage) (count from : nat) (w : World) : World :=
  match count with
  | O => w
  | S n => scanned this n (S from) (noted this (CallKey from) w)
  end.

Definition clear_turn (this : WebStorage) (i : nat) : M (World * list jsstring) unit :=
  key <- global (storage_key this i) ;;
  if prefixed this key
  then assign (fun keysToRemove => keysToRemove ++ [option_or key []])
  else ret tt.

(** The world after [removeItem] for each key of [l]. *)
Definition removed_all (this : WebStorage) (l : list jsstring) (w : World) : World :=
  fold_left (fun w k => removed this k w) l w.

Definition engine_with_prefix (p : string) : WebStorage :=
  {| options := resolve {| o_type := None; o_defaultExpires := None;
                           o_prefix := Some (lit p); o_encrypt := None;
                           o_encryptKey := None |};
     listeners := [] |}.

(** The namespace after [A.set("k1", 1)] and [B.set("k2", 2)]. *)
Definition two_tenants : World :=
  snd (set (engine_with_prefix "b-") (lit "k2") (JNum (Int 2)) no_set_options
         (snd (set (engine_with_prefix "a-") (lit "k1") (JNum (Int 1)) no_set_options
                 (world_at 1000 [])))).

(** One turn of the loop of [clearExpired]. *)
Definition sweep_turn (this : WebStorage) (i : nat)
  : M (World * (nat * list jsstring)) unit :=
  fullKey <- global (storage_key this i) ;;
  if negb (prefixed this fullKey) then ret tt
  else
    data <- global (storage_getItem this (option_or fullKey [])) ;;
    if no_data data then ret tt
    else
      let item := decode this data in
      if truthy item && typeof_object item && js_in (lit "expires") item
      then
        gone <- global (isExpired (js_get item (lit "expires"))) ;;
        if gone : bool
        then assign (fun l => (fst l, snd l ++ [option_or fullKey []]))
        else ret tt
      else ret tt.

(** One turn of the loop of [getStats]. *)
Definition stats_turn (this : WebStorage) (i : nat) : M (World * StorageStats) unit :=
  fullKey <- global (storage_key this i) ;;
  if negb (prefixed this fullKey) then ret tt
  else
    data <- global (storage_getItem this (option_or fullKey [])) ;;
    if no_data data then ret tt
    else
      assign (count_entry (option_or fullKey []) (option_or data [])) ;;;
      let item := decode this data in
      if truthy item && typeof_object item && js_in (lit "expires") item
      then
        gone <- global (isExpired (js_get item (lit "expires"))) ;;
        if gone : bool then assign count_expired else assign count_valid
      else assign count_valid.

(** The keys [clearExpired] may collect: those under which the storage
    holds an envelope with an [expires] field. *)
Definition sweepable (this : WebStorage) (l0 : list (jsstring * jsstring))
    (k : jsstring) : Prop :=
  exists d, lookup k l0 = Some d /\ has_expires (decode this (Some d)) = true.

(** The storage still holds [l0]. *)
Definition holds {L} (this : WebStorage) (l0 : list (jsstring * jsstring))
    (R : L -> Prop) : World * L -> Prop :=
  fun s => entries (storage_of this (fst s)) = l0 /\ R (snd s).

Definition garbled_entry : list (jsstring * jsstring) :=
  [(lit "vue-storage-k", lit "not json at all")].

Definition unclassifiable_entry : list (jsstring * jsstring) :=
  [(lit "vue-storage-x", jtext "{'expires':{'toString':0}}")].

(** No entry of [w] is new: a key present in [w] was present in [w0]. *)
Definition shrunk (this : WebStorage) (w0 w : World) : Prop :=
  forall k, lookup k (entries (storage_of this w)) <> None ->
            lookup k (entries (storage_of this w0)) <> None.

(** Each logical key of [ks] names, under the prefix, an entry of [w0]. *)
Definition listed (this : WebStorage) (w0 : World) (ks : list jsstring) : Prop :=
  forall k, In k ks ->
            lookup (getFullKey this k) (entries (storage_of this w0)) <> None.

(** ** Vocabulary of the further properties *)

(** The values [deepClone] copies without loss: every object in them has
    distinct keys, none of which is [__proto__]. *)
Fixpoint cloneable (v : jsval) : bool :=
  match v with
  | JArr items => forallb cloneable items
  | JObj o =>
      forallb (fun kv => negb (str_eqb (fst kv) (lit "__proto__")) && cloneable (snd kv)) o
      && nodup_keys o
  | _ => true
  end.

(** Every write of the batch reports success. *)
Fixpoint batch_written (storage : WebStorage) (items : props) (o : SetOptions)
    (w : World) : Prop :=
  match items with
  | [] => True
  | kv :: rest =>
      fst (set storage (fst kv) (snd kv) o w) = Ok true
      /\ batch_written storage rest o (snd (set storage (fst kv) (snd kv) o w))
  end.

(** The entries [l] hold, under the key [k], a never-expiring envelope of
    the value [v]. *)
Definition item_in (this : WebStorage) (l : list (jsstring * jsstring))
    (k : jsstring) (v : jsval) : Prop :=
  exists text created,
    lookup (getFullKey this k) l = Some text /\ text <> []
    /\ decode this (Some text) = envelope v JNull created.

(** The scans while time stands still: the entries, the clock and the
    deliveries of [w] are those of [w0]. *)
Definition steady (this : WebStorage) (w0 w : World) : Prop :=
  entries (storage_of this w) = entries (storage_of this w0)
  /\ clock w = clock w0
  /\ delivered w = delivered w0.

(** The text a scan reads for a key it finds at an index: the one
    [getItem] returns for it when the key carries the prefix, none
    otherwise. *)
Definition scan_text (this : WebStorage) (l0 : list (jsstring * jsstring))
    (k : jsstring) : jsstring :=
  if prefixed this (Some k) then option_or (lookup k l0) [] else [].

(** The entries a scan looks into. *)
Definition counted (this : WebStorage) (l0 : list (jsstring * jsstring))
    (kv : jsstring * jsstring) : bool :=
  match scan_text this l0 (fst kv) with
  | [] => false
  | _ => true
  end.

(** The [expires] field a scan finds in a text, if any. *)
Definition expiry_in (this : WebStorage) (d : jsstring) : option jsval :=
  if has_expires (decode this (Some d))
  then Some (js_get (decode this (Some d)) (lit "expires"))
  else None.

(** The entries a scan looks into and finds an [expires] field in. *)
Definition dated (this : WebStorage) (l0 : list (jsstring * jsstring))
    (kv : jsstring * jsstring) : bool :=
  counted this l0 kv
  && has_expires (decode this (Some (scan_text this l0 (fst kv)))).

(** The text holds an expiry that is in the past at the reading [t]. *)
Definition gone_at (this : WebStorage) (t : Z) (d : jsstring) : bool :=
  match expiry_in this d with
  | Some e => match expired_at t e with Ok true => true | _ => false end
  | None => false
  end.

(** The text holds an expiry whose comparison with the clock raises. *)
Definition raises_at (this : WebStorage) (t : Z) (d : jsstring) : bool :=
  match expiry_in this d with
  | Some e => match expired_at t e with Throw _ => true | _ => false end
  | None => false
  end.

(** The entries [clearExpired] removes at the reading [t]. *)
Definition swept (this : WebStorage) (t : Z) (l0 : list (jsstring * jsstring))
    (kv : jsstring * jsstring) : bool :=
  counted this l0 kv && gone_at this t (scan_text this l0 (fst kv)).

(** No entry a scan looks into makes the comparison raise. *)
Definition comparable (this : WebStorage) (t : Z) (l0 : list (jsstring * jsstring))
  : Prop :=
  forall kv, In kv l0 -> raises_at this t (scan_text this l0 (fst kv)) = false.

(** What [getStats] adds to its counts for the entry [kv], at the
    reading [t]. *)
Definition tally (this : WebStorage) (t : Z) (l0 : list (jsstring * jsstring))
    (s : StorageStats) (kv : jsstring * jsstring) : StorageStats :=
  match scan_text this l0 (fst kv) with
  | [] => s
  | d => if gone_at this t d
         then count_expired (count_entry (fst kv) d s)
         else count_valid (count_entry (fst kv) d s)
  end.

Definition no_stats : StorageStats :=
  {| total := 0; expired := 0; valid := 0; usedBytes := 0 |}.

(** What one turn of [getStats] makes of the entry [kv] when the clock is
    [c] and the counts are [s]: the clock and the counts after it.  The
    clock is read only for an [expires] field other than [null]. *)
Definition tally_at (this : WebStorage) (l0 : list (jsstring * jsstring))
    (cs : Clock * StorageStats) (kv : jsstring * jsstring) : Clock * StorageStats :=
  match scan_text this l0 (fst kv) with
  | [] => cs
  | d =>
      let s := count_entry (fst kv) d (snd cs) in
      match expiry_in this d with
      | None | Some JNull => (fst cs, count_valid s)
      | Some e =>
          (tick (fst cs),
           match expired_at (now (fst cs)) e with
           | Ok true => count_expired s
           | _ => count_valid s
           end)
      end
  end.

(** The code units [getStats] adds up for an entry it counts. *)
Definition weight (this : WebStorage) (l0 : list (jsstring * jsstring))
    (kv : jsstring * jsstring) : nat :=
  List.length (fst kv) + List.length (scan_text this l0 (fst kv)).

(** The text holds an expiry that is not in the past at the reading
    [t]. *)
Definition live_at (this : WebStorage) (t : Z) (d : jsstring) : bool :=
  match expiry_in this d with
  | Some e => match expired_at t e with Ok false => true | _ => false end
  | None => false
  end.

(** The entries [has] answers [true] for at the reading [t]. *)
Definition known (this : WebStorage) (t : Z) (l0 : list (jsstring * jsstring))
    (kv : jsstring * jsstring) : bool :=
  counted this l0 kv && live_at this t (scan_text this l0 (fst kv)).

(** The logical key of an entry: its key without the prefix. *)
Definition logical_key (this : WebStorage) (kv : jsstring * jsstring) : jsstring :=
  skipn (List.length (opt_prefix (options this))) (fst kv).

(** The keys of a namespace are distinct. *)
Fixpoint distinct_keys (l : list (jsstring * jsstring)) : bool :=
  match l with
  | [] => true
  | kv :: rest => negb (existsb (fun kv' => str_eqb (fst kv) (fst kv')) rest)
                  && distinct_keys rest
  end.

(* ================================================================== *)
(** * Part II. Lemmas and theorems *)
(* ================================================================== *)

Ltac Zify.zify_post_hook ::= Z.to_euclidean_division_equations.

(** ** Strings and the storage list *)

Lemma str_eqb_eq a b : str_eqb a b = true <-> a = b.
Proof.
  revert b; induction a as [|x a IH]; intros [|y b]; simpl; split; try easy.
  - intros H. apply andb_true_iff in H as [H1 H2].
    apply N.eqb_eq in H1. apply IH in H2. congruence.
  - intros H. injection H as -> ->. rewrite N.eqb_refl. simpl. now apply IH.
Qed.

Lemma str_eqb_refl a : str_eqb a a = true.
Proof. now apply str_eqb_eq. Qed.

Lemma str_eqb_neq a b : str_eqb a b = false <-> a <> b.
Proof.
  split.
  - intros H E. apply str_eqb_eq in E. congruence.
  - intros H. destruct (str_eqb a b) eqn:E; [|easy]. apply str_eqb_eq in E. now destruct H.
Qed.

Lemma str_eqb_sym a b : str_eqb a b = str_eqb b a.
Proof.
  destruct (str_eqb a b) eqn:E.
  - apply str_eqb_eq in E. subst. now rewrite str_eqb_refl.
  - symmetry. apply str_eqb_neq. apply str_eqb_neq in E. congruence.
Qed.

Lemma startsWith_app p k : startsWith (p ++ k) p = true.
Proof. induction p as [|x p IH]; simpl; [easy|]. now rewrite N.eqb_refl, IH. Qed.

Lemma startsWith_prefix s p : startsWith s p = true <-> exists k, s = p ++ k.
Proof.
  split.
  - revert s; induction p as [|x p IH]; intros s H; simpl in *.
    + now exists s.
    + destruct s as [|y s]; [easy|]. apply andb_true_iff in H as [H1 H2].
      apply N.eqb_eq in H1. destruct (IH _ H2) as [k ->]. exists k. now subst.
  - intros [k ->]. apply startsWith_app.
Qed.

Lemma lookup_store_same k v l : lookup k (store k v l) = Some v.
Proof.
  induction l as [|[k' v'] l IH]; simpl.
  - now rewrite str_eqb_refl.
  - destruct (str_eqb k k') eqn:E; simpl; rewrite E; [easy|apply IH].
Qed.

Lemma lookup_store_other k k' v l : k' <> k -> lookup k' (store k v l) = lookup k' l.
Proof.
  intros N. induction l as [|[k0 v0] l IH]; simpl.
  - apply str_eqb_neq in N. now rewrite N.
  - destruct (str_eqb k k0) eqn:E; simpl.
    + apply str_eqb_eq in E. subst. apply str_eqb_neq in N. now rewrite N.
    + now rewrite IH.
Qed.

Lemma lookup_erase_same k l : lookup k (erase k l) = None.
Proof.
  induction l as [|[k' v'] l IH]; simpl; [easy|].
  destruct (str_eqb k k') eqn:E; simpl; [easy|]. now rewrite E.
Qed.

Lemma lookup_erase_other k k' l : k' <> k -> lookup k' (erase k l) = lookup k' l.
Proof.
  intros N. induction l as [|[k0 v0] l IH]; simpl; [easy|].
  destruct (str_eqb k k0) eqn:E; simpl.
  - apply str_eqb_eq in E. subst. apply str_eqb_neq in N. now rewrite N.
  - now rewrite IH.
Qed.

(** ** JSON: what is written is read back

    *** Decimal numerals *)

Lemma is_digit_spec c : is_digit c = true <-> (48 <= c <= 57)%N.
Proof. unfold is_digit. rewrite andb_true_iff, !N.leb_le. tauto. Qed.

Lemma digits_value_app acc a b :
  digits_value acc (a ++ b) = digits_value (digits_value acc a) b.
Proof. apply fold_left_app. Qed.

Lemma digits_value_zeros k acc :
  digits_value acc (zeros k) = (acc * 10 ^ N.of_nat k)%N.
Proof.
  revert acc; induction k as [|k IH]; intros acc.
  - simpl. lia.
  - change (zeros (S k)) with (48%N :: zeros k). cbn [digits_value fold_left].
    fold (digits_value (10 * acc + (48 - 48)) (zeros k)). rewrite IH.
    rewrite Nat2N.inj_succ, N.pow_succ_r'. simpl (48 - 48)%N. lia.
Qed.

Lemma digits_fuel_S f n :
  digits_fuel (S f) n =
  if (n <? 10)%N then [(48 + n)%N]
  else digits_fuel f (n / 10)%N ++ [(48 + n mod 10)%N].
Proof. reflexivity. Qed.

Lemma digits_fuel_spec fuel : forall n, (n < 10 ^ N.of_nat (S fuel))%N ->
  forallb is_digit (digits_fuel (S fuel) n) = true /\
  (forall acc, digits_value acc (digits_fuel (S fuel) n)
               = (acc * 10 ^ N.of_nat (List.length (digits_fuel (S fuel) n)) + n)%N) /\
  (exists d r, digits_fuel (S fuel) n = d :: r /\ (n <> 0%N -> d <> 48%N)).
Proof.
  induction fuel as [|f IH]; intros n Hn; rewrite digits_fuel_S;
    destruct (n <? 10)%N eqn:E.
  1, 3: apply N.ltb_lt in E; repeat split;
    [ cbn [forallb]; rewrite andb_true_r; apply is_digit_spec; lia
    | intros acc; unfold digits_value; cbn [fold_left List.length];
      change (N.of_nat 1) with 1%N; lia
    | exists (48 + n)%N, []; split; [easy|lia] ].
  - apply N.ltb_ge in E. change (10 ^ N.of_nat 1)%N with 10%N in Hn. lia.
  - apply N.ltb_ge in E.
    assert (Hq : (n / 10 < 10 ^ N.of_nat (S f))%N).
    { apply N.Div0.div_lt_upper_bound.
      rewrite (Nat2N.inj_succ (S f)), N.pow_succ_r' in Hn. exact Hn. }
    destruct (IH _ Hq) as (A & B & (d & r & C & D)).
    pose proof (N.mod_lt n 10 ltac:(lia)) as Hm.
    pose proof (N.div_mod n 10 ltac:(lia)) as Hd.
    repeat split.
    + rewrite forallb_app, A. cbn [forallb]. rewrite andb_true_r.
      apply is_digit_spec. lia.
    + intros acc. rewrite digits_value_app, B. unfold digits_value at 1.
      cbn [fold_left]. rewrite length_app. cbn [List.length].
      rewrite Nat2N.inj_add. change (N.of_nat 1) with 1%N.
      rewrite N.pow_add_r. change (10 ^ 1)%N with 10%N. nia.
    + exists d, (r ++ [(48 + n mod 10)%N]). split; [now rewrite C|].
      intros _. apply D. lia.
Qed.

Lemma pos_size_bound p : (N.pos p < 2 ^ N.of_nat (Pos.size_nat p))%N.
Proof.
  induction p as [p IH|p IH|]; cbn [Pos.size_nat];
    rewrite ?Nat2N.inj_succ, ?N.pow_succ_r'; lia.
Qed.

Lemma size_nat_bound n : (n < 10 ^ N.of_nat (S (N.size_nat n)))%N.
Proof.
  assert (H : (n < 2 ^ N.of_nat (N.size_nat n))%N).
  { destruct n as [|p]; [simpl; lia|]. apply pos_size_bound. }
  rewrite Nat2N.inj_succ, N.pow_succ_r'.
  assert (2 ^ N.of_nat (N.size_nat n) <= 10 ^ N.of_nat (N.size_nat n))%N.
  { apply N.pow_le_mono_l. lia. }
  lia.
Qed.

Lemma digits_spec n :
  forallb is_digit (digits n) = true /\
  (forall acc, digits_value acc (digits n)
               = (acc * 10 ^ N.of_nat (List.length (digits n)) + n)%N) /\
  (exists d r, digits n = d :: r /\ (n <> 0%N -> d <> 48%N)).
Proof. apply digits_fuel_spec, size_nat_bound. Qed.

Lemma span_digits_app ds rest :
  forallb is_digit ds = true -> not_digit_next rest = true ->
  span_digits (ds ++ rest) = (ds, rest).
Proof.
  intros H R. induction ds as [|d ds IH]; cbn [app].
  - destruct rest as [|c rest]; [easy|]. cbn [span_digits].
    cbn [not_digit_next] in R. apply negb_true_iff in R. now rewrite R.
  - cbn [forallb] in H. apply andb_true_iff in H as [H1 H2].
    cbn [span_digits]. rewrite H1, (IH H2). reflexivity.
Qed.

Lemma zeros_digits k : forallb is_digit (zeros k) = true.
Proof. induction k; [easy|]. cbn. exact IHk. Qed.

Lemma zeros_app_one k : zeros k ++ [48%N] = 48%N :: zeros k.
Proof. induction k; [easy|]. cbn. f_equal. exact IHk. Qed.

Lemma rev_zeros k : rev (zeros k) = zeros k.
Proof.
  induction k as [|k IH]; [easy|]. change (zeros (S k)) with (48%N :: zeros k).
  cbn [rev]. rewrite IH. apply zeros_app_one.
Qed.

Lemma drop_trailing_zeros_rev_spec r :
  exists j, r = zeros j ++ drop_trailing_zeros_rev r.
Proof.
  induction r as [|c r (j & E)].
  - now exists 0%nat.
  - cbn [drop_trailing_zeros_rev]. destruct (c =? 48)%N eqn:C.
    + apply N.eqb_eq in C. subst c. exists (S j). cbn. f_equal. exact E.
    + now exists 0%nat.
Qed.

Lemma drop_trailing_zeros_spec ds :
  exists j, ds = drop_trailing_zeros ds ++ zeros j.
Proof.
  destruct (drop_trailing_zeros_rev_spec (rev ds)) as (j & E).
  exists j. unfold drop_trailing_zeros.
  rewrite <- (rev_involutive ds) at 1. rewrite E at 1.
  now rewrite rev_app_distr, rev_zeros.
Qed.

(** The head of a numeral survives the removal of trailing zeroes. *)
Lemma drop_trailing_zeros_head d r :
  d <> 48%N -> exists r', drop_trailing_zeros (d :: r) = d :: r'.
Proof.
  intros D. destruct (drop_trailing_zeros_spec (d :: r)) as (j & E).
  destruct (drop_trailing_zeros (d :: r)) as [|d' r'] eqn:S.
  - cbn [app] in E. destruct j; [easy|]. cbn in E. congruence.
  - cbn [app] in E. injection E as <- _. now exists r'.
Qed.

Lemma exponent_opt_part n rest :
  not_digit_next rest = true ->
  exponent_opt (101%N :: exponent_part n ++ rest) = Some ((n - 1)%Z, rest).
Proof.
  intros R. unfold exponent_part, exponent_opt.
  change (101 =? 101)%N with true. cbn [orb app].
  destruct (digits_spec (Z.abs_N (n - 1))) as (A & B & (d & r & C & _)).
  destruct (n - 1 <? 0)%Z eqn:S.
  - change (45 =? 45)%N with true. cbn iota.
    rewrite (span_digits_app _ _ A R), C, <- C, B.
    apply Z.ltb_lt in S. f_equal. f_equal. lia.
  - change (43 =? 45)%N with false. change (43 =? 43)%N with true. cbn iota.
    rewrite (span_digits_app _ _ A R), C, <- C, B.
    apply Z.ltb_ge in S. f_equal. f_equal. lia.
Qed.

Lemma exponent_opt_none rest :
  ends_number rest = true -> exponent_opt rest = Some (0%Z, rest).
Proof.
  destruct rest as [|c rest]; [easy|]. cbn [ends_number exponent_opt].
  rewrite !andb_true_iff, !negb_true_iff. intros (((_ & _) & E1) & E2).
  now rewrite E1, E2.
Qed.

Lemma mk_num_int m e : (0 <= e)%Z -> mk_num m e = Int (m * 10 ^ e).
Proof.
  intros E. unfold mk_num. destruct (m =? 0)%Z eqn:M.
  - apply Z.eqb_eq in M. subst. now rewrite Z.mul_0_l.
  - apply Z.leb_le in E. now rewrite E.
Qed.

Lemma mk_num_dec m e :
  (e <? 0)%Z && negb (m mod 10 =? 0)%Z = true -> mk_num m e = Dec m e.
Proof.
  intros H. apply andb_true_iff in H as [E M]. apply negb_true_iff in M.
  unfold mk_num. destruct (m =? 0)%Z eqn:M0.
  - apply Z.eqb_eq in M0. subst. easy.
  - apply Z.ltb_lt in E. destruct (0 <=? e)%Z eqn:E0; [apply Z.leb_le in E0; lia|].
    destruct (Z.to_nat (- e)) as [|f] eqn:F; [lia|].
    cbn [strip_zeros]. rewrite M, andb_false_r.
    destruct (e =? 0)%Z eqn:E1; [apply Z.eqb_eq in E1; lia|reflexivity].
Qed.

Lemma parse_int_part_digits d r rest :
  forallb is_digit (d :: r) = true -> d <> 48%N -> not_digit_next rest = true ->
  parse_int_part ((d :: r) ++ rest) = (d :: r, rest).
Proof.
  intros H D R. cbn [app parse_int_part]. apply N.eqb_neq in D. rewrite D.
  now apply (span_digits_app (d :: r)).
Qed.

Lemma parse_frac_part_digits fp rest :
  forallb is_digit fp = true -> fp <> [] -> not_digit_next rest = true ->
  parse_frac_part (46%N :: fp ++ rest) = Some (fp, rest).
Proof.
  intros H F R. cbn [parse_frac_part]. change (46 =? 46)%N with true. cbn iota.
  rewrite (span_digits_app _ _ H R). now destruct fp.
Qed.

Lemma parse_frac_part_none rest :
  ends_number rest = true -> parse_frac_part rest = Some ([], rest).
Proof.
  destruct rest as [|c rest]; [easy|]. cbn [ends_number parse_frac_part].
  rewrite !andb_true_iff, !negb_true_iff. intros (((_ & E) & _) & _).
  now rewrite E.
Qed.

Lemma ends_number_not_digit rest : ends_number rest = true -> not_digit_next rest = true.
Proof.
  destruct rest as [|c rest]; [easy|]. cbn. rewrite !andb_true_iff. tauto.
Qed.

Lemma forallb_firstn {A} (f : A -> bool) n l :
  forallb f l = true -> forallb f (firstn n l) = true.
Proof.
  revert l; induction n as [|n IH]; intros [|a l]; cbn; try easy.
  rewrite !andb_true_iff. intros [H1 H2]. split; [easy|now apply IH].
Qed.

Lemma forallb_skipn {A} (f : A -> bool) n l :
  forallb f l = true -> forallb f (skipn n l) = true.
Proof.
  revert l; induction n as [|n IH]; intros [|a l]; cbn; try easy.
  rewrite !andb_true_iff. intros [H1 H2]. now apply IH.
Qed.

Lemma digits_value_0_zeros k ds :
  digits_value 0 (48%N :: zeros k ++ ds) = digits_value 0 ds.
Proof.
  change (48%N :: zeros k ++ ds) with (zeros (S k) ++ ds).
  rewrite digits_value_app, digits_value_zeros. now rewrite N.mul_0_l.
Qed.

(** What [layout_digits] writes, [parse_unsigned] reads back. *)
Lemma parse_unsigned_layout neg d r n rest :
  forallb is_digit (d :: r) = true -> d <> 48%N -> ends_number rest = true ->
  parse_unsigned neg (layout_digits (d :: r) n ++ rest)
  = Some (mk_num (signed neg (Z.of_N (digits_value 0 (d :: r))))
                 (n - Z.of_nat (List.length (d :: r))), rest).
Proof.
  intros H D R. pose proof (ends_number_not_digit _ R) as R'.
  unfold layout_digits. set (ds := d :: r) in *.
  set (k := Z.of_nat (List.length ds)).
  assert (K : (1 <= k)%Z) by (unfold k, ds; cbn [List.length]; lia).
  destruct ((k <=? n)%Z && (n <=? 21)%Z) eqn:C1.
  { (* digits then zeroes *)
    apply andb_true_iff in C1 as [C1 _]. apply Z.leb_le in C1.
    unfold parse_unsigned. rewrite <- app_assoc.
    assert (Hz : parse_int_part (ds ++ zeros (Z.to_nat (n - k)) ++ rest)
                 = (ds ++ zeros (Z.to_nat (n - k)), rest)).
    { rewrite app_assoc. unfold ds. cbn [app].
      apply (parse_int_part_digits d (r ++ zeros (Z.to_nat (n - k)))); try easy.
      change (d :: r ++ zeros (Z.to_nat (n - k))) with (ds ++ zeros (Z.to_nat (n - k))).
      now rewrite forallb_app, H, zeros_digits. }
    rewrite Hz. unfold ds at 1. cbn [app]. fold ds.
    rewrite (parse_frac_part_none _ R), (exponent_opt_none _ R).
    rewrite app_nil_r. cbn [List.length]. rewrite Z.sub_0_r.
    f_equal. f_equal.
    change (d :: r ++ zeros (Z.to_nat (n - k))) with (ds ++ zeros (Z.to_nat (n - k))).
    rewrite digits_value_app, digits_value_zeros.
    rewrite !mk_num_int by lia. f_equal.
    rewrite Z.pow_0_r, Z.mul_1_r.
    rewrite N2Z.inj_mul, N2Z.inj_pow, nat_N_Z, Z2Nat.id by lia.
    destruct neg; cbn [signed]; lia. }
  destruct ((0 <? n)%Z && (n <=? 21)%Z) eqn:C2.
  { (* point inside the digits *)
    apply andb_true_iff in C2 as [C2 C2']. apply Z.ltb_lt in C2.
    assert (Hk : (n < k)%Z).
    { apply andb_false_iff in C1 as [C1|C1]; [apply Z.leb_gt in C1; lia|congruence]. }
    unfold parse_unsigned. rewrite <- app_assoc. cbn [app].
    assert (Hn : firstn (Z.to_nat n) ds = d :: firstn (Z.to_nat n - 1) r).
    { destruct (Z.to_nat n) as [|m] eqn:M; [lia|]. unfold ds. cbn [firstn].
      now replace (S m - 1)%nat with m by lia. }
    rewrite Hn. 
    assert (Hf : forallb is_digit (d :: firstn (Z.to_nat n - 1) r) = true).
    { rewrite <- Hn. now apply forallb_firstn. }
    rewrite (parse_int_part_digits d _ (46%N :: skipn (Z.to_nat n) ds ++ rest) Hf D eq_refl).
    assert (Hs : skipn (Z.to_nat n) ds <> []).
    { intros E. apply (f_equal (@List.length _)) in E. rewrite length_skipn in E.
      cbn [List.length] in E. unfold k in Hk. lia. }
    rewrite (parse_frac_part_digits _ _ (forallb_skipn _ _ _ H) Hs R').
    rewrite (exponent_opt_none _ R). rewrite <- Hn, firstn_skipn.
    rewrite length_skipn. f_equal. f_equal. f_equal. unfold k. lia. }
  destruct ((-6 <? n)%Z && (n <=? 0)%Z) eqn:C3.
  { (* leading zeroes *)
    apply andb_true_iff in C3 as [_ C3]. apply Z.leb_le in C3.
    unfold parse_unsigned. cbn [app parse_int_part].
    change (48 =? 48)%N with true. cbn iota. rewrite <- app_assoc.
    assert (Hf : forallb is_digit (zeros (Z.to_nat (- n)) ++ ds) = true).
    { now rewrite forallb_app, zeros_digits, H. }
    assert (He : zeros (Z.to_nat (- n)) ++ ds <> []).
    { unfold ds. now destruct (zeros (Z.to_nat (- n))). }
    rewrite app_assoc.
    rewrite (parse_frac_part_digits _ _ Hf He R'), (exponent_opt_none _ R).
    cbn [app]. rewrite digits_value_0_zeros, length_app. unfold zeros at 1.
    rewrite repeat_length.
    f_equal. f_equal. f_equal. unfold k. lia. }
  (* exponential notation *)
  unfold ds at 1. destruct r as [|d2 r].
  - unfold parse_unsigned. cbn [app].
    change (d :: 101%N :: exponent_part n ++ rest)
      with ([d] ++ 101%N :: exponent_part n ++ rest).
    rewrite (parse_int_part_digits d [] (101%N :: exponent_part n ++ rest) H D eq_refl).
    cbn [parse_frac_part]. change (101 =? 46)%N with false. cbn iota.
    rewrite (exponent_opt_part n _ R'). cbn [app List.length]. unfold ds.
    f_equal. f_equal. f_equal. unfold k, ds. cbn [List.length]. lia.
  - unfold parse_unsigned. cbn [app].
    assert (Hd : forallb is_digit [d] = true).
    { cbn [forallb] in *. apply andb_true_iff in H as [H _]. now rewrite H. }
    assert (Hf : forallb is_digit (d2 :: r) = true).
    { unfold ds in H. cbn [forallb] in H. apply andb_true_iff in H as [_ H]. exact H. }
    rewrite <- app_assoc. cbn [app].
    change (d :: 46%N :: d2 :: r ++ 101%N :: exponent_part n ++ rest)
      with ([d] ++ 46%N :: (d2 :: r) ++ 101%N :: exponent_part n ++ rest).
    rewrite (parse_int_part_digits d []
               (46%N :: (d2 :: r) ++ 101%N :: exponent_part n ++ rest) Hd D eq_refl).
    rewrite (parse_frac_part_digits (d2 :: r) (101%N :: exponent_part n ++ rest)
               Hf ltac:(easy) eq_refl).
    rewrite (exponent_opt_part n _ R'). unfold ds. cbn [app].
    f_equal. f_equal. f_equal. unfold k, ds. cbn [List.length]. lia.
Qed.

Lemma layout_digits_head d r n :
  is_digit d = true ->
  exists c t, layout_digits (d :: r) n = c :: t /\ is_digit c = true.
Proof.
  intros D. unfold layout_digits. cbv zeta.
  destruct ((Z.of_nat (List.length (d :: r)) <=? n)%Z && (n <=? 21)%Z).
  { cbn [app]. eexists _, _. split; [reflexivity|exact D]. }
  destruct ((0 <? n)%Z && (n <=? 21)%Z) eqn:C.
  { apply andb_true_iff in C as [C _]. apply Z.ltb_lt in C.
    destruct (Z.to_nat n) as [|m] eqn:M; [lia|]. cbn [firstn app].
    eexists _, _. split; [reflexivity|exact D]. }
  destruct ((-6 <? n)%Z && (n <=? 0)%Z).
  { eexists _, _. split; [reflexivity|reflexivity]. }
  destruct r; eexists _, _; (split; [reflexivity|exact D]).
Qed.

Lemma parse_number_unsigned c t :
  is_digit c = true -> parse_number (c :: t) = parse_unsigned false (c :: t).
Proof.
  intros D. cbn [parse_number]. destruct (c =? 45)%N eqn:E; [|reflexivity].
  apply N.eqb_eq in E. subst. discriminate.
Qed.

Lemma parse_number_layout (neg : bool) d r n rest :
  forallb is_digit (d :: r) = true -> d <> 48%N -> ends_number rest = true ->
  parse_number ((if neg then [45%N] else []) ++ layout_digits (d :: r) n ++ rest)
  = Some (mk_num (signed neg (Z.of_N (digits_value 0 (d :: r))))
                 (n - Z.of_nat (List.length (d :: r))), rest).
Proof.
  intros H D R. destruct neg.
  - cbn [app parse_number]. change (45 =? 45)%N with true. cbn iota.
    now apply parse_unsigned_layout.
  - cbn [app]. assert (Hd : is_digit d = true).
    { cbn [forallb] in H. now apply andb_true_iff in H as [H _]. }
    destruct (layout_digits_head d r n Hd) as (c & t & E & C).
    rewrite <- (parse_unsigned_layout false d r n rest H D R).
    rewrite E. cbn [app]. now apply parse_number_unsigned.
Qed.

Lemma digits_of_nonzero n :
  n <> 0%N ->
  exists d r, digits n = d :: r /\ d <> 48%N /\
              forallb is_digit (d :: r) = true /\ digits_value 0 (d :: r) = n.
Proof.
  intros Hn. destruct (digits_spec n) as (A & B & (d & r & C & D)).
  exists d, r. rewrite <- C. split; [reflexivity|]. split; [auto|].
  split; [exact A|]. rewrite B. lia.
Qed.

Lemma signed_abs z : signed (z <? 0)%Z (Z.of_N (Z.abs_N z)) = z.
Proof.
  unfold signed. destruct (z <? 0)%Z eqn:E.
  - apply Z.ltb_lt in E. lia.
  - apply Z.ltb_ge in E. lia.
Qed.

Lemma signed_mul neg a b : (signed neg a * b = signed neg (a * b))%Z.
Proof. destruct neg; cbn [signed]; lia. Qed.

(** A number survives its way through a JSON text. *)
Lemma parse_number_to_string x rest :
  num_finite x = true -> num_ok x = true -> ends_number rest = true ->
  parse_number (num_to_string x ++ rest) = Some (x, rest).
Proof.
  intros F W R. destruct x as [| |z|m e]; try discriminate.
  - (* integers *)
    cbn [num_to_string]. destruct (z =? 0)%Z eqn:Z0.
    + apply Z.eqb_eq in Z0. subst z. cbn [app].
      rewrite (parse_number_unsigned 48 rest eq_refl).
      unfold parse_unsigned. cbn [parse_int_part]. change (48 =? 48)%N with true.
      cbn iota. now rewrite (parse_frac_part_none _ R), (exponent_opt_none _ R).
    + apply Z.eqb_neq in Z0.
      destruct (digits_of_nonzero (Z.abs_N z) ltac:(lia)) as (d & r & E & D & A & V).
      rewrite E.
      destruct (drop_trailing_zeros_spec (d :: r)) as (j & S).
      destruct (drop_trailing_zeros_head d r D) as (r' & S').
      rewrite S' in *.
      assert (A' : forallb is_digit (d :: r') = true).
      { rewrite S, forallb_app in A. now apply andb_true_iff in A as [A _]. }
      rewrite <- app_assoc, (parse_number_layout (z <? 0)%Z d r' _ rest A' D R).
      f_equal. f_equal.
      assert (L : (Z.of_nat (List.length (d :: r))
                   - Z.of_nat (List.length (d :: r')) = Z.of_nat j)%Z).
      { rewrite S at 1. rewrite length_app. unfold zeros. rewrite repeat_length. lia. }
      rewrite L, mk_num_int by lia. f_equal.
      rewrite signed_mul.
      transitivity (signed (z <? 0)%Z (Z.of_N (Z.abs_N z))); [|apply signed_abs].
      f_equal. rewrite <- V. rewrite S. rewrite digits_value_app, digits_value_zeros.
      rewrite N2Z.inj_mul, N2Z.inj_pow, nat_N_Z. reflexivity.
  - (* proper decimals *)
    cbn [num_to_string]. cbn [num_ok] in W.
    assert (M0 : m <> 0%Z).
    { intros ->. apply andb_true_iff in W as [_ W]. discriminate. }
    destruct (digits_of_nonzero (Z.abs_N m) ltac:(lia)) as (d & r & E & D & A & V).
    rewrite E, <- app_assoc, (parse_number_layout (m <? 0)%Z d r _ rest A D R).
    f_equal. f_equal. rewrite V, signed_abs.
    replace (Z.of_nat (List.length (d :: r)) + e - Z.of_nat (List.length (d :: r)))%Z
      with e by lia.
    now apply mk_num_dec.
Qed.

(** *** String literals *)

Lemma radix_digit_hex d : (d < 16)%N -> radix_digit 16 (hex_digit d) = Some d.
Proof.
  intros H. unfold hex_digit, radix_digit, is_digit.
  destruct (d <? 10)%N eqn:E.
  - apply N.ltb_lt in E.
    replace ((48 <=? 48 + d)%N && (48 + d <=? 57)%N) with true
      by (symmetry; apply andb_true_iff; split; apply N.leb_le; lia).
    replace (48 + d - 48)%N with d by lia.
    now replace (d <? 16)%N with true by (symmetry; apply N.ltb_lt; lia).
  - apply N.ltb_ge in E.
    replace ((48 <=? 87 + d)%N && (87 + d <=? 57)%N) with false
      by (symmetry; apply andb_false_iff; right; apply N.leb_gt; lia).
    replace ((97 <=? 87 + d)%N && (87 + d <=? 102)%N) with true
      by (symmetry; apply andb_true_iff; split; apply N.leb_le; lia).
    replace (87 + d - 87)%N with d by lia.
    now replace (d <? 16)%N with true by (symmetry; apply N.ltb_lt; lia).
Qed.

Lemma parse_chars_escape_u c t' t r :
  (c < 65536)%N -> parse_chars t' = Some (t, r) ->
  parse_chars (escape_u c ++ t') = Some (c :: t, r).
Proof.
  intros C P. unfold escape_u. cbn [app parse_chars].
  change (92 =? 34)%N with false. change (92 =? 92)%N with true.
  change (117 =? 117)%N with true. cbn iota.
  unfold hex4. rewrite !radix_digit_hex by lia. rewrite P.
  f_equal. f_equal. f_equal. lia.
Qed.

Lemma parse_chars_literal c t' t r :
  (32 <= c)%N -> c <> 34%N -> c <> 92%N -> parse_chars t' = Some (t, r) ->
  parse_chars (c :: t') = Some (c :: t, r).
Proof.
  intros C Q B P. cbn [parse_chars].
  apply N.eqb_neq in Q, B. rewrite Q, B.
  replace (c <? 32)%N with false by (symmetry; apply N.ltb_ge; lia).
  now rewrite P.
Qed.

Lemma parse_chars_quote_unit c t' t r :
  parse_chars t' = Some (t, r) ->
  parse_chars (quote_unit c ++ t') = Some (c :: t, r).
Proof.
  intros P. unfold quote_unit.
  repeat match goal with
  | |- context [if (c =? ?k)%N then _ else _] =>
      let E := fresh "E" in
      destruct (c =? k)%N eqn:E;
      [ apply N.eqb_eq in E; subst c; cbn; now rewrite P | apply N.eqb_neq in E ]
  end.
  destruct (c <? 32)%N eqn:L.
  - apply N.ltb_lt in L. apply parse_chars_escape_u; [lia|exact P].
  - apply N.ltb_ge in L. cbn [app]. now apply parse_chars_literal.
Qed.

Lemma surrogate_range c : is_high c = true \/ is_low c = true ->
  (32 <= c < 65536)%N /\ c <> 34%N /\ c <> 92%N.
Proof.
  unfold is_high, is_low. rewrite !andb_true_iff, !N.leb_le. lia.
Qed.

Lemma parse_chars_quote_units_len n : forall s t' rest,
  (List.length s <= n)%nat ->
  parse_chars t' = Some ([], rest) ->
  parse_chars (quote_units s ++ t') = Some (s, rest).
Proof.
  induction n as [|n IH]; intros s t' rest L P.
  - destruct s; [exact P|cbn in L; lia].
  - destruct s as [|c s]; [exact P|]. cbn [List.length] in L.
    cbn [quote_units]. destruct (is_high c) eqn:H.
    + destruct (surrogate_range c (or_introl H)) as (C1 & C2 & C3).
      destruct s as [|d s].
      * apply parse_chars_escape_u; [lia|exact P].
      * destruct (is_low d) eqn:Ld.
        -- destruct (surrogate_range d (or_intror Ld)) as (D1 & D2 & D3).
           cbn [app]. apply parse_chars_literal; try lia.
           apply parse_chars_literal; try lia.
           apply IH; [cbn [List.length] in L; lia|exact P].
        -- rewrite <- app_assoc. apply parse_chars_escape_u; [lia|].
           apply IH; [lia|exact P].
    + destruct (is_low c) eqn:Lc.
      * destruct (surrogate_range c (or_intror Lc)) as (C1 & C2 & C3).
        rewrite <- app_assoc. apply parse_chars_escape_u; [lia|].
        apply IH; [lia|exact P].
      * rewrite <- app_assoc. apply parse_chars_quote_unit.
        apply IH; [lia|exact P].
Qed.

(** What [quote] writes, [parse_chars] reads back after the opening
    quote. *)
Lemma parse_chars_quote s rest :
  parse_chars (quote_units s ++ 34%N :: rest) = Some (s, rest).
Proof. now apply (parse_chars_quote_units_len (List.length s)). Qed.

(** *** Values *)

Lemma jsval_induction (P : jsval -> Prop) :
  P JUndefined -> P JNull -> (forall b, P (JBool b)) -> (forall x, P (JNum x)) ->
  (forall s, P (JStr s)) -> (forall t, P (JDate t)) ->
  (forall items, Forall P items -> P (JArr items)) ->
  (forall o, Forall (fun kv => P (snd kv)) o -> P (JObj o)) ->
  forall v, P v.
Proof.
  intros HU HN HB HX HS HD HA HO.
  fix IH 1.
  intros [| |b|x|s|t|items|o];
    [exact HU|exact HN|apply HB|apply HX|apply HS|apply HD| |].
  - apply HA. induction items as [|x items IHl]; constructor; [apply IH|exact IHl].
  - apply HO. induction o as [|[k x] o IHl]; constructor; [apply IH|exact IHl].
Qed.

Lemma stringify_arr items :
  stringify (JArr items) = Some (91%N :: join [44%N] (map element_text items) ++ [93%N]).
Proof. reflexivity. Qed.

Lemma stringify_obj o :
  forallb (fun kv => json_value (snd kv)) o = true ->
  (forall x, In x (map snd o) -> json_value x = true -> stringify x <> None) ->
  stringify (JObj o) = Some (123%N :: join [44%N] (map member_text o) ++ [125%N]).
Proof.
  intros H S. cbn [stringify]. f_equal. f_equal. f_equal. f_equal.
  induction o as [|[k x] o IH]; [reflexivity|].
  cbn [forallb snd] in H. apply andb_true_iff in H as [H1 H2].
  cbn [flat_map map fst snd]. unfold member_text at 1. unfold element_text. cbn [fst snd].
  destruct (stringify x) eqn:E.
  - cbn [app]. f_equal. apply IH; [exact H2|]. intros y Y. apply S. now right.
  - exfalso. apply (S x); [now left|exact H1|exact E].
Qed.

Lemma json_value_stringify v : json_value v = true -> stringify v <> None.
Proof. destruct v as [| |[|]| | | | |]; cbn; congruence. Qed.

Lemma own_key_app k a b : own_key k (a ++ b) = own_key k a || own_key k b.
Proof.
  induction a as [|[k' v] a IH]; [reflexivity|]. cbn [app own_key].
  now rewrite IH, orb_assoc.
Qed.

Lemma prop_define_fresh o k v :
  own_key k o = false -> prop_define o k v = o ++ [(k, v)].
Proof.
  induction o as [|[k' v'] o IH]; [reflexivity|]. cbn [own_key prop_define app].
  intros H. apply orb_false_iff in H as [H1 H2]. rewrite H1. f_equal. now apply IH.
Qed.

Lemma nodup_keys_app_cons a k v b :
  nodup_keys (a ++ (k, v) :: b) = true ->
  own_key k a = false /\ nodup_keys ((a ++ [(k, v)]) ++ b) = true.
Proof.
  intros H. split.
  - induction a as [|[k' v'] a IH]; [reflexivity|].
    cbn [app nodup_keys] in H. apply andb_true_iff in H as [H1 H2].
    cbn [own_key]. rewrite (IH H2), orb_false_r.
    apply negb_true_iff in H1. rewrite own_key_app in H1.
    apply orb_false_iff in H1 as [_ H1]. cbn [own_key] in H1.
    apply orb_false_iff in H1 as [H1 _]. now rewrite str_eqb_sym.
  - now rewrite <- app_assoc.
Qed.

Lemma fold_define_nodup o : forall acc,
  nodup_keys (acc ++ o) = true ->
  fold_left (fun o kv => prop_define o (fst kv) (snd kv)) o acc = acc ++ o.
Proof.
  induction o as [|[k v] o IH]; intros acc H; cbn [fold_left fst snd].
  - now rewrite app_nil_r.
  - destruct (nodup_keys_app_cons _ _ _ _ H) as [F N].
    rewrite (prop_define_fresh _ _ _ F), (IH _ N). now rewrite <- app_assoc.
Qed.

Lemma parse_value_S f s :
  parse_value (S f) s =
  match skip_ws s with
  | [] => None
  | c :: r =>
      if (c =? 123)%N then
        match skip_ws r with
        | [] => None
        | d :: r' =>
            if (d =? 125)%N then Some (JObj [], r')
            else match parse_members f (d :: r') with
                 | Some (kvs, r2) =>
                     Some (JObj (fold_left (fun o kv =>
                                   prop_define o (fst kv) (snd kv)) kvs []), r2)
                 | None => None
                 end
        end
      else if (c =? 91)%N then
        match skip_ws r with
        | [] => None
        | d :: r' =>
            if (d =? 93)%N then Some (JArr [], r')
            else match parse_elements f (d :: r') with
                 | Some (vs, r2) => Some (JArr vs, r2)
                 | None => None
                 end
        end
      else if (c =? 34)%N then
        match parse_chars r with
        | Some (t, r') => Some (JStr t, r')
        | None => None
        end
      else if (c =? 116)%N then expect (lit "true") (JBool true) (c :: r)
      else if (c =? 102)%N then expect (lit "false") (JBool false) (c :: r)
      else if (c =? 110)%N then expect (lit "null") JNull (c :: r)
      else match parse_number (c :: r) with
           | Some (x, r') => Some (JNum x, r')
           | None => None
           end
  end.
Proof. reflexivity. Qed.

Lemma parse_elements_S f s :
  parse_elements (S f) s =
  match parse_value f s with
  | Some (v, r) =>
      match skip_ws r with
      | c :: r' =>
          if (c =? 93)%N then Some ([v], r')
          else if (c =? 44)%N then
            match parse_elements f r' with
            | Some (vs, r2) => Some (v :: vs, r2)
            | None => None
            end
          else None
      | [] => None
      end
  | None => None
  end.
Proof. reflexivity. Qed.

Lemma parse_members_S f s :
  parse_members (S f) s =
  match skip_ws s with
  | q :: r0 =>
      if (q =? 34)%N then
        match parse_chars r0 with
        | Some (k, r1) =>
            match skip_ws r1 with
            | colon :: r2 =>
                if (colon =? 58)%N then
                  match parse_value f r2 with
                  | Some (v, r3) =>
                      match skip_ws r3 with
                      | c :: r' =>
                          if (c =? 125)%N then Some ([(k, v)], r')
                          else if (c =? 44)%N then
                            match parse_members f r' with
                            | Some (kvs, r4) => Some ((k, v) :: kvs, r4)
                            | None => None
                            end
                          else None
                      | [] => None
                      end
                  | None => None
                  end
                else None
            | [] => None
            end
        | None => None
        end
      else None
  | [] => None
  end.
Proof. reflexivity. Qed.

(** The first character of a number is a sign or a digit. *)
Lemma num_to_string_head x :
  num_finite x = true -> num_ok x = true ->
  exists c t, num_to_string x = c :: t /\ (c = 45%N \/ is_digit c = true).
Proof.
  intros F W. destruct x as [| |z|m e]; try discriminate; cbn [num_to_string].
  - destruct (z =? 0)%Z eqn:Z0.
    { eexists _, _; split; [reflexivity|now right]. }
    destruct (z <? 0)%Z.
    { eexists _, _; split; [reflexivity|now left]. }
    apply Z.eqb_neq in Z0.
    destruct (digits_of_nonzero (Z.abs_N z) ltac:(lia)) as (d & r & E & D & A & V).
    rewrite E. destruct (drop_trailing_zeros_head d r D) as (r' & S'). rewrite S'.
    cbn [forallb] in A. apply andb_true_iff in A as [A _].
    destruct (layout_digits_head d r' (Z.of_nat (List.length (d :: r))) A)
      as (c & t & L & C).
    rewrite L. cbn [app]. eexists _, _; split; [reflexivity|now right].
  - destruct (m <? 0)%Z.
    { eexists _, _; split; [reflexivity|now left]. }
    assert (M0 : m <> 0%Z).
    { intros ->. cbn [num_ok] in W. apply andb_true_iff in W as [_ W]. discriminate. }
    destruct (digits_of_nonzero (Z.abs_N m) ltac:(lia)) as (d & r & E & D & A & V).
    rewrite E. cbn [forallb] in A. apply andb_true_iff in A as [A _].
    destruct (layout_digits_head d r (Z.of_nat (List.length (d :: r)) + e) A)
      as (c & t & L & C).
    rewrite L. cbn [app]. eexists _, _; split; [reflexivity|now right].
Qed.

Lemma parse_value_number f c r :
  c = 45%N \/ is_digit c = true ->
  parse_value (S f) (c :: r) =
  match parse_number (c :: r) with
  | Some (x, r') => Some (JNum x, r')
  | None => None
  end.
Proof.
  intros H. rewrite parse_value_S.
  assert (R : (c = 45 \/ 48 <= c <= 57)%N).
  { destruct H as [H|H]; [now left|right; now apply is_digit_spec]. }
  assert (W : is_ws c = false).
  { unfold is_ws. rewrite !orb_false_iff, !N.eqb_neq. lia. }
  cbn [skip_ws]. rewrite W.
  repeat match goal with
  | |- context [if (c =? ?k)%N then _ else _] =>
      replace (c =? k)%N with false by (symmetry; apply N.eqb_neq; lia)
  end.
  reflexivity.
Qed.

Lemma parse_elements_text items :
  Forall reads_back items -> items <> [] ->
  forall fuel rest, size_elems items <= fuel ->
    parse_elements fuel (join [44%N] (map element_text items) ++ 93%N :: rest)
    = Some (items, rest).
Proof.
  induction 1 as [|x items Hx Hl IH]; [easy|]. intros _ fuel rest L.
  destruct fuel as [|f]; [cbn in L; lia|]. cbn [size_elems fold_right] in L.
  fold (size_elems items) in L. rewrite parse_elements_S.
  destruct items as [|y items].
  - cbn [map join]. rewrite (Hx f (93%N :: rest)) by (lia || reflexivity).
    reflexivity.
  - cbn [map join]. rewrite <- !app_assoc. cbn [app].
    rewrite (Hx f) by (lia || reflexivity). cbn [skip_ws is_ws].
    change (is_ws 44) with false. cbn iota.
    change (44 =? 93)%N with false. change (44 =? 44)%N with true. cbn iota.
    change (element_text y :: map element_text items)
      with (map element_text (y :: items)).
    rewrite IH; [reflexivity|easy|lia].
Qed.

Lemma parse_members_text o :
  Forall (fun kv => reads_back (snd kv)) o -> o <> [] ->
  forall fuel rest, size_members o <= fuel ->
    parse_members fuel (join [44%N] (map member_text o) ++ 125%N :: rest)
    = Some (o, rest).
Proof.
  induction 1 as [|[k x] o Hx Hl IH]; [easy|]. intros _ fuel rest L.
  destruct fuel as [|f]; [cbn in L; lia|]. cbn [size_members fold_right snd] in L.
  fold (size_members o) in L. rewrite parse_members_S. cbn [snd] in Hx.
  assert (Q : forall tail,
    skip_ws (member_text (k, x) ++ tail)
    = 34%N :: quote_units k ++ 34%N :: 58%N :: element_text x ++ tail).
  { intros tail. unfold member_text, quote. cbn [fst snd app].
    rewrite <- !app_assoc. reflexivity. }
  destruct o as [|y o].
  - cbn [map join]. rewrite Q. change (34 =? 34)%N with true. cbn iota.
    rewrite parse_chars_quote. cbn [skip_ws]. change (is_ws 58) with false.
    cbn iota. change (58 =? 58)%N with true. cbn iota.
    rewrite (Hx f (125%N :: rest)) by (lia || reflexivity). reflexivity.
  - cbn [map join]. rewrite <- !app_assoc. rewrite Q.
    change (34 =? 34)%N with true. cbn iota.
    rewrite parse_chars_quote. cbn [skip_ws]. change (is_ws 58) with false.
    cbn iota. change (58 =? 58)%N with true. cbn iota.
    cbn [app]. rewrite (Hx f) by (lia || reflexivity). cbn [skip_ws].
    change (is_ws 44) with false. cbn iota.
    change (44 =? 125)%N with false. change (44 =? 44)%N with true. cbn iota.
    change (member_text y :: map member_text o) with (map member_text (y :: o)).
    rewrite IH; [reflexivity|easy|lia].
Qed.

Lemma element_text_head v :
  json_value v = true ->
  exists c t, element_text v = c :: t /\ is_ws c = false /\ c <> 93%N.
Proof.
  destruct v as [| |[|]|x|s| |items|o]; try discriminate; intros J;
    try (eexists _, _; split; [reflexivity|split; [reflexivity|discriminate]]).
  cbn [json_value] in J. apply andb_true_iff in J as [F W].
  destruct (num_to_string_head x F W) as (c & t & E & C).
  exists c, t. unfold element_text. cbn [stringify]. rewrite F.
  split; [exact E|].
  assert (R : (c = 45 \/ 48 <= c <= 57)%N).
  { destruct C as [C|C]; [now left|right; now apply is_digit_spec]. }
  split; [|lia]. unfold is_ws. rewrite !orb_false_iff, !N.eqb_neq. lia.
Qed.

Lemma skip_ws_head c t : is_ws c = false -> skip_ws (c :: t) = c :: t.
Proof. intros H. cbn [skip_ws]. now rewrite H. Qed.

Lemma forallb_Forall_impl {A} (f : A -> bool) (P : A -> Prop) l :
  forallb f l = true -> Forall (fun x => f x = true -> P x) l -> Forall P l.
Proof.
  intros H F. induction F as [|x l Hx Hl IH]; [constructor|].
  cbn [forallb] in H. apply andb_true_iff in H as [H1 H2].
  constructor; [auto|auto].
Qed.

(** Every JSON value is read back from its own text. *)
Lemma parse_value_text v : json_value v = true -> reads_back v.
Proof.
  induction v as [| |b|x|s|t|items IH|o IH] using jsval_induction;
    intros J fuel rest L R; try discriminate;
    (destruct fuel as [|f]; [cbn in L; lia|]).
  - reflexivity.
  - destruct b; reflexivity.
  - cbn [json_value] in J. apply andb_true_iff in J as [F W].
    destruct (num_to_string_head x F W) as (c & t & E & C).
    unfold element_text. cbn [stringify]. rewrite F.
    rewrite E. cbn [app]. rewrite (parse_value_number f c _ C).
    change (c :: t ++ rest) with ((c :: t) ++ rest). rewrite <- E.
    now rewrite (parse_number_to_string x rest F W R).
  - unfold element_text. cbn [stringify]. unfold quote. rewrite parse_value_S.
    cbn [app]. rewrite skip_ws_head by reflexivity.
    change (34 =? 123)%N with false. change (34 =? 91)%N with false.
    change (34 =? 34)%N with true. cbn iota.
    rewrite <- app_assoc. cbn [app]. now rewrite parse_chars_quote.
  - cbn [json_value] in J. pose proof (forallb_Forall_impl _ _ _ J IH) as RB.
    unfold element_text. rewrite stringify_arr, parse_value_S.
    cbn [app]. rewrite skip_ws_head by reflexivity.
    change (91 =? 123)%N with false. change (91 =? 91)%N with true. cbn iota.
    rewrite <- app_assoc. cbn [app].
    destruct items as [|x items]; [reflexivity|].
    assert (Jx : json_value x = true).
    { cbn [forallb] in J. now apply andb_true_iff in J as [J _]. }
    destruct (element_text_head x Jx) as (c & t & E & W & C).
    assert (H : exists t', join [44%N] (map element_text (x :: items)) ++ 93%N :: rest
                           = c :: t').
    { cbn [map join]. rewrite E. destruct (map element_text items);
        cbn [app]; eexists; reflexivity. }
    destruct H as (t' & H). rewrite H, (skip_ws_head c t' W).
    apply N.eqb_neq in C. rewrite C. rewrite <- H.
    rewrite parse_elements_text; [reflexivity|exact RB|easy|].
    cbn [size] in L. fold (size_elems (x :: items)) in L. lia.
  - cbn [json_value] in J. apply andb_true_iff in J as [J N].
    assert (J' : forallb (fun kv => json_value (snd kv)) o = true).
    { clear - J. induction o as [|kv o IHo]; [reflexivity|].
      cbn [forallb] in *. apply andb_true_iff in J as [J1 J2].
      apply andb_true_iff in J1 as [_ J1]. now rewrite J1, IHo. }
    assert (RB : Forall (fun kv => reads_back (snd kv)) o).
    { apply (forallb_Forall_impl (fun kv => json_value (snd kv))
               (fun kv => reads_back (snd kv)) o J' IH). }
    unfold element_text.
    rewrite (stringify_obj o J' (fun x _ => json_value_stringify x)), parse_value_S.
    cbn [app]. rewrite skip_ws_head by reflexivity.
    change (123 =? 123)%N with true. cbn iota.
    rewrite <- app_assoc. cbn [app].
    destruct o as [|[k x] o]; [reflexivity|].
    assert (H : exists t', join [44%N] (map member_text ((k, x) :: o)) ++ 125%N :: rest
                           = 34%N :: t').
    { cbn [map]. unfold member_text at 1, quote. cbn [fst snd].
      destruct (map member_text o); cbn [join app]; eexists; reflexivity. }
    destruct H as (t' & H). rewrite H, (skip_ws_head 34 t' eq_refl).
    change (34 =? 125)%N with false. cbn iota. rewrite <- H.
    rewrite parse_members_text; [|exact RB|easy|].
    + now rewrite (fold_define_nodup ((k, x) :: o) [] N).
    + cbn [size] in L. fold (size_members ((k, x) :: o)) in L. lia.
Qed.

Lemma join_cons sep (x y : jsstring) l :
  join sep (x :: y :: l) = x ++ sep ++ join sep (y :: l).
Proof. reflexivity. Qed.

Lemma size_elems_join (f : jsval -> jsstring) items :
  Forall (fun x => size x <= List.length (f x)) items ->
  size_elems items <= List.length (join [44%N] (map f items)) + 1.
Proof.
  induction 1 as [|x items Hx Hl IH]; [cbn; lia|].
  cbn [size_elems fold_right]. fold (size_elems items).
  destruct items as [|y items].
  - cbn. lia.
  - change (map f (x :: y :: items)) with (f x :: f y :: map f items).
    rewrite join_cons, !length_app. cbn [List.length].
    change (f y :: map f items) with (map f (y :: items)). lia.
Qed.

Lemma size_members_join o :
  Forall (fun kv => size (snd kv) <= List.length (element_text (snd kv))) o ->
  size_members o <= List.length (join [44%N] (map member_text o)) + 1.
Proof.
  induction 1 as [|[k x] o Hx Hl IH]; [cbn; lia|].
  cbn [size_members fold_right snd]. fold (size_members o). cbn [snd] in Hx.
  assert (M : size x <= List.length (member_text (k, x))).
  { unfold member_text. rewrite length_app. cbn [List.length snd]. lia. }
  destruct o as [|y o].
  - cbn [map join size_members fold_right]. lia.
  - change (map member_text ((k, x) :: y :: o))
      with (member_text (k, x) :: member_text y :: map member_text o).
    rewrite join_cons, !length_app. cbn [List.length].
    change (member_text y :: map member_text o) with (map member_text (y :: o)). lia.
Qed.

Lemma size_le_text v : json_value v = true -> size v <= List.length (element_text v).
Proof.
  induction v as [| |b|x|s|t|items IH|o IH] using jsval_induction;
    intros J; try discriminate.
  - cbn. lia.
  - destruct b; cbn; lia.
  - cbn [json_value] in J. apply andb_true_iff in J as [F W].
    destruct (num_to_string_head x F W) as (c & t & E & _).
    unfold element_text. cbn [stringify size]. rewrite F, E. cbn [List.length]. lia.
  - unfold element_text. cbn [stringify size]. unfold quote. cbn [List.length]. lia.
  - cbn [json_value] in J.
    pose proof (forallb_Forall_impl _ _ _ J IH) as S.
    pose proof (size_elems_join element_text items S).
    unfold element_text. rewrite stringify_arr. cbn [size].
    fold (size_elems items). cbn [List.length]. rewrite length_app. cbn [List.length]. lia.
  - cbn [json_value] in J. apply andb_true_iff in J as [J N].
    assert (J' : forallb (fun kv => json_value (snd kv)) o = true).
    { clear - J. induction o as [|kv o IHo]; [reflexivity|].
      cbn [forallb] in *. apply andb_true_iff in J as [J1 J2].
      apply andb_true_iff in J1 as [_ J1]. now rewrite J1, IHo. }
    pose proof (forallb_Forall_impl (fun kv => json_value (snd kv))
                  (fun kv => size (snd kv) <= List.length (element_text (snd kv)))
                  o J' IH) as S.
    pose proof (size_members_join o S).
    unfold element_text.
    rewrite (stringify_obj o J' (fun x _ => json_value_stringify x)). cbn [size].
    fold (size_members o). cbn [List.length]. rewrite length_app. cbn [List.length]. lia.
Qed.

Lemma json_value_text v : json_value v = true -> stringify v = Some (element_text v).
Proof.
  intros J. unfold element_text. destruct (stringify v) eqn:E; [reflexivity|].
  now apply json_value_stringify in E.
Qed.

(** [JSON.parse(JSON.stringify(v))] gives [v] back. *)
Lemma JSON_parse_stringify v t :
  json_value v = true -> stringify v = Some t -> JSON_parse t = Ok v.
Proof.
  intros J E. rewrite (json_value_text v J) in E. injection E as <-.
  unfold JSON_parse. pose proof (size_le_text v J) as S.
  pose proof (parse_value_text v J (2 * List.length (element_text v) + 2) []
                ltac:(lia) eq_refl) as P.
  rewrite app_nil_r in P. now rewrite P.
Qed.

(** ** Base64 *)

Lemma b64_index_char i : (i < 64)%N -> b64_index (b64_char i) = Some i.
Proof.
  intros H. unfold b64_char.
  destruct (i <? 26)%N eqn:A; [apply N.ltb_lt in A|apply N.ltb_ge in A].
  { unfold b64_index.
    replace ((65 <=? 65 + i)%N && (65 + i <=? 90)%N) with true
      by (symmetry; apply andb_true_iff; split; apply N.leb_le; lia).
    f_equal. lia. }
  destruct (i <? 52)%N eqn:B; [apply N.ltb_lt in B|apply N.ltb_ge in B].
  { unfold b64_index.
    replace ((65 <=? 71 + i)%N && (71 + i <=? 90)%N) with false
      by (symmetry; apply andb_false_iff; right; apply N.leb_gt; lia).
    replace ((97 <=? 71 + i)%N && (71 + i <=? 122)%N) with true
      by (symmetry; apply andb_true_iff; split; apply N.leb_le; lia).
    f_equal. lia. }
  destruct (i <? 62)%N eqn:C; [apply N.ltb_lt in C|apply N.ltb_ge in C].
  { unfold b64_index.
    replace ((65 <=? i - 4)%N && (i - 4 <=? 90)%N) with false
      by (symmetry; apply andb_false_iff; left; apply N.leb_gt; lia).
    replace ((97 <=? i - 4)%N && (i - 4 <=? 122)%N) with false
      by (symmetry; apply andb_false_iff; left; apply N.leb_gt; lia).
    replace ((48 <=? i - 4)%N && (i - 4 <=? 57)%N) with true
      by (symmetry; apply andb_true_iff; split; apply N.leb_le; lia).
    f_equal. lia. }
  assert (E : i = 62%N \/ i = 63%N) by lia.
  destruct E as [-> | ->]; reflexivity.
Qed.

(** No character of the alphabet is white space, padding or a brace. *)
Lemma b64_char_range i :
  let c := b64_char i in
  ((65 <= c <= 90) \/ (97 <= c <= 122) \/ (48 <= c <= 57) \/ c = 43 \/ c = 47)%N.
Proof.
  unfold b64_char.
  destruct (i <? 26)%N eqn:A; [apply N.ltb_lt in A; lia|apply N.ltb_ge in A].
  destruct (i <? 52)%N eqn:B; [apply N.ltb_lt in B; lia|apply N.ltb_ge in B].
  destruct (i <? 62)%N eqn:C; [apply N.ltb_lt in C; lia|apply N.ltb_ge in C].
  destruct (i =? 62)%N; lia.
Qed.

Lemma b64_char_not_ws i : is_ascii_ws (b64_char i) = false.
Proof.
  pose proof (b64_char_range i) as H. cbv zeta in H. unfold is_ascii_ws.
  rewrite !orb_false_iff, !N.eqb_neq. lia.
Qed.

Lemma b64_char_not_pad i : (b64_char i =? 61)%N = false.
Proof.
  pose proof (b64_char_range i) as H. cbv zeta in H. apply N.eqb_neq. lia.
Qed.

Lemma list_ind3 {A} (P : list A -> Prop) :
  P [] -> (forall a, P [a]) -> (forall a b, P [a; b]) ->
  (forall a b c l, P l -> P (a :: b :: c :: l)) -> forall l, P l.
Proof.
  intros H0 H1 H2 H3. fix IH 1.
  intros [|a [|b [|c l]]]; [exact H0|apply H1|apply H2|apply H3, IH].
Qed.

Lemma b64_encode_sextets s :
  b64_encode s = map b64_char (sextets s) ++ padding s.
Proof.
  induction s as [|a|a b|a b c s IH] using list_ind3; try reflexivity.
  cbn [b64_encode sextets padding map app]. now rewrite IH.
Qed.

Lemma padding_cases s : padding s = [] \/ padding s = [61%N] \/ padding s = [61; 61]%N.
Proof. induction s using list_ind3; cbn [padding]; auto. Qed.

Lemma sextets_length s :
  exists q r, List.length (sextets s) = 4 * q + r /\ (r = 0 \/ r = 2 \/ r = 3)
              /\ List.length (sextets s ++ padding s)
                 = 4 * (q + match r with 0 => 0 | _ => 1 end).
Proof.
  induction s as [|a|a b|a b c s (q & r & E & R & P)] using list_ind3.
  - exists 0, 0. cbn. auto.
  - exists 0, 2. cbn. auto.
  - exists 0, 3. cbn. auto.
  - exists (S q), r. cbn [sextets padding app List.length]. rewrite E.
    split; [lia|]. split; [exact R|]. rewrite P. lia.
Qed.

Lemma sextets_bound s : bytes s = true -> Forall (fun i => (i < 64)%N) (sextets s).
Proof.
  unfold bytes.
  induction s as [|a|a b|a b c s IH] using list_ind3; cbn [forallb sextets app];
    rewrite ?andb_true_iff, ?N.leb_le; intros H.
  - constructor.
  - repeat constructor; lia.
  - repeat constructor; lia.
  - destruct H as (A & B & C & H). repeat constructor; try lia.
    apply IH. exact H.
Qed.

Lemma b64_decode_sextets s : bytes s = true -> b64_decode (sextets s) = s.
Proof.
  unfold bytes.
  induction s as [|a|a b|a b c s IH] using list_ind3; cbn [forallb sextets app];
    rewrite ?andb_true_iff, ?N.leb_le; intros H.
  - reflexivity.
  - cbn [b64_decode]. f_equal. lia.
  - cbn [b64_decode]. f_equal; [lia|]. f_equal. lia.
  - destruct H as (A & B & C & H). cbn [b64_decode app].
    rewrite (IH H). f_equal; [lia|]. f_equal; [lia|]. f_equal. lia.
Qed.

Lemma b64_indices_chars l :
  Forall (fun i => (i < 64)%N) l -> b64_indices (map b64_char l) = Some l.
Proof.
  induction 1 as [|i l Hi Hl IH]; [reflexivity|].
  cbn [map b64_indices]. now rewrite (b64_index_char i Hi), IH.
Qed.

Lemma filter_all {A} (f : A -> bool) l : forallb f l = true -> filter f l = l.
Proof.
  induction l as [|a l IH]; [reflexivity|]. cbn [forallb filter].
  intros H. apply andb_true_iff in H as [H1 H2]. now rewrite H1, IH.
Qed.

Lemma drop_padding l pad :
  forallb (fun c => negb (c =? 61)%N) l = true ->
  pad = [] \/ pad = [61%N] \/ pad = [61; 61]%N ->
  rev (drop_padding_rev (rev (l ++ pad))) = l.
Proof.
  intros H P. rewrite rev_app_distr.
  assert (K : drop_padding_rev (rev l) = rev l /\
              (match rev l with q :: r2 => (q =? 61)%N = false | [] => True end)).
  { rewrite <- (rev_involutive l) in H. destruct (rev l) as [|q r2]; [easy|].
    cbn [rev] in H. rewrite forallb_app in H. apply andb_true_iff in H as [_ H].
    cbn [forallb] in H. rewrite andb_true_r in H. apply negb_true_iff in H.
    cbn [drop_padding_rev]. now rewrite H. }
  destruct K as [K1 K2].
  destruct P as [-> | [-> | ->]]; cbn [rev app].
  - now rewrite K1, rev_involutive.
  - cbn [drop_padding_rev]. change (61 =? 61)%N with true. cbn iota.
    destruct (rev l) as [|q r2] eqn:E.
    + now rewrite <- (rev_involutive l), E.
    + rewrite K2, <- E. apply rev_involutive.
  - cbn [drop_padding_rev]. change (61 =? 61)%N with true. cbn iota.
    apply rev_involutive.
Qed.

(** [atob(btoa(s))] is [s] whenever [btoa] accepts [s]. *)
Lemma atob_btoa s t : btoa s = Ok t -> atob t = Ok s.
Proof.
  unfold btoa. fold (bytes s). destruct (bytes s) eqn:B; [|discriminate].
  intros E. injection E as <-. rewrite b64_encode_sextets. unfold atob.
  assert (NW : forallb (fun c => negb (is_ascii_ws c))
                 (map b64_char (sextets s) ++ padding s) = true).
  { rewrite forallb_app. apply andb_true_iff. split.
    - apply forallb_forall. intros c C. apply in_map_iff in C as (i & <- & _).
      now rewrite b64_char_not_ws.
    - destruct (padding_cases s) as [-> | [-> | ->]]; reflexivity. }
  rewrite (filter_all _ _ NW).
  destruct (sextets_length s) as (q & r & L & R & P).
  rewrite length_app, length_map, <- length_app, P.
  replace (4 * (q + match r with 0 => 0 | _ => 1 end) mod 4 =? 0) with true.
  2:{ symmetry. apply Nat.eqb_eq. rewrite Nat.mul_comm. apply Nat.Div0.mod_mul. }
  rewrite drop_padding; [| |apply padding_cases].
  2:{ apply forallb_forall. intros c C. apply in_map_iff in C as (i & <- & _).
      now rewrite b64_char_not_pad. }
  rewrite length_map, L.
  replace ((4 * q + r) mod 4 =? 1) with false.
  2:{ symmetry. apply Nat.eqb_neq.
      rewrite Nat.add_comm, Nat.mul_comm, Nat.Div0.mod_add.
      destruct R as [-> | [-> | ->]]; cbn; lia. }
  rewrite (b64_indices_chars _ (sextets_bound s B)).
  now rewrite (b64_decode_sextets s B).
Qed.

(** ** The keyed transform *)

Lemma xor_unit c k :
  (c < 65536)%N -> (N.lxor (N.lxor c k mod 65536) k mod 65536 = c)%N.
Proof.
  intros C. change 65536%N with (2 ^ 16)%N in *.
  rewrite <- (N.mod_small c (2 ^ 16) C) at 2.
  apply N.bits_inj. intros n. destruct (N.lt_ge_cases n 16) as [L|L].
  - rewrite !N.mod_pow2_bits_low, N.lxor_spec by exact L.
    rewrite N.mod_pow2_bits_low, N.lxor_spec by exact L.
    now rewrite xorb_assoc, xorb_nilpotent, xorb_false_r.
  - now rewrite !N.mod_pow2_bits_high by exact L.
Qed.

Lemma xor_from_involutive text key : forall i,
  str_ok text = true -> xor_from i (xor_from i text key) key = text.
Proof.
  induction text as [|c text IH]; intros i H; [reflexivity|].
  cbn [str_ok forallb] in H. apply andb_true_iff in H as [C H].
  cbn [xor_from]. rewrite (IH (S i) H). f_equal.
  apply xor_unit. now apply N.ltb_lt.
Qed.

(** [decrypt] undoes [encrypt] under the same key, whatever the key. *)
Lemma decrypt_encrypt text key t :
  str_ok text = true -> encrypt text key = Ok t -> decrypt t key = text.
Proof.
  intros H E. unfold encrypt in E. unfold decrypt.
  rewrite (atob_btoa _ _ E). now apply xor_from_involutive.
Qed.

(** ** The text of a JSON value is a well-formed string *)

Lemma str_ok_app a b : str_ok (a ++ b) = str_ok a && str_ok b.
Proof. apply forallb_app. Qed.

Lemma str_ok_digits ds : forallb is_digit ds = true -> str_ok ds = true.
Proof.
  intros H. apply forallb_forall. intros c C.
  apply (proj1 (forallb_forall _ _) H), is_digit_spec in C.
  apply N.ltb_lt. lia.
Qed.

Lemma str_ok_zeros k : str_ok (zeros k) = true.
Proof. apply str_ok_digits, zeros_digits. Qed.

Lemma str_ok_exponent_part n : str_ok (exponent_part n) = true.
Proof.
  pose proof (str_ok_digits _ (proj1 (digits_spec (Z.abs_N (n - 1))))) as K.
  unfold exponent_part, str_ok in *. cbn [forallb]. rewrite K.
  now destruct (n - 1 <? 0)%Z.
Qed.

Lemma str_ok_layout ds n : forallb is_digit ds = true -> str_ok (layout_digits ds n) = true.
Proof.
  intros H. pose proof (str_ok_digits ds H) as K.
  pose proof (str_ok_digits _ (forallb_firstn _ (Z.to_nat n) _ H)) as K1.
  pose proof (str_ok_digits _ (forallb_skipn _ (Z.to_nat n) _ H)) as K2.
  pose proof (str_ok_zeros (Z.to_nat (n - Z.of_nat (List.length ds)))) as Z1.
  pose proof (str_ok_zeros (Z.to_nat (- n))) as Z2.
  pose proof (str_ok_exponent_part n) as E.
  unfold layout_digits, str_ok in *. cbv zeta.
  destruct (_ && _).
  { now rewrite forallb_app, K, Z1. }
  destruct (_ && _).
  { rewrite forallb_app. cbn [forallb]. now rewrite K1, K2. }
  destruct (_ && _).
  { cbn [forallb]. now rewrite forallb_app, Z2, K. }
  destruct ds as [|d [|d2 r]]; [reflexivity| |].
  - cbn [forallb] in *. rewrite E. apply andb_true_iff in K as [K _]. now rewrite K.
  - cbn [forallb] in K. apply andb_true_iff in K as [Kd K].
    cbn [forallb]. rewrite Kd. cbn [andb].
    change (forallb unit_ok ((d2 :: r) ++ 101%N :: exponent_part n) = true).
    rewrite forallb_app. cbn [forallb]. rewrite E.
    apply andb_true_iff in K as [Kd2 Kr]. now rewrite Kd2, Kr.
Qed.

Lemma str_ok_num_to_string x : num_ok x = true -> str_ok (num_to_string x) = true.
Proof.
  intros W. destruct x as [|[|]|z|m e]; try reflexivity; cbn [num_to_string].
  - destruct (z =? 0)%Z; [reflexivity|].
    pose proof (proj1 (digits_spec (Z.abs_N z))) as A.
    destruct (drop_trailing_zeros_spec (digits (Z.abs_N z))) as (j & S).
    rewrite S, forallb_app in A. apply andb_true_iff in A as [A _].
    rewrite str_ok_app, (str_ok_layout _ _ A). now destruct (z <? 0)%Z.
  - rewrite str_ok_app, (str_ok_layout _ _ (proj1 (digits_spec _))).
    now destruct (m <? 0)%Z.
Qed.

Lemma hex_digit_ok d : (d < 16)%N -> unit_ok (hex_digit d) = true.
Proof.
  intros H. unfold hex_digit, unit_ok. destruct (d <? 10)%N; apply N.ltb_lt; lia.
Qed.

Lemma str_ok_escape_u c : (c < 65536)%N -> str_ok (escape_u c) = true.
Proof.
  intros H. unfold escape_u, str_ok. cbn [forallb].
  rewrite !hex_digit_ok by lia. reflexivity.
Qed.

Lemma str_ok_quote_unit c : unit_ok c = true -> str_ok (quote_unit c) = true.
Proof.
  intros H. unfold quote_unit.
  repeat match goal with
  | |- context [if (c =? ?k)%N then _ else _] => destruct (c =? k)%N; [reflexivity|]
  end.
  destruct (c <? 32)%N.
  - apply str_ok_escape_u. now apply N.ltb_lt.
  - unfold str_ok. cbn [forallb]. now rewrite H.
Qed.

Lemma str_ok_quote_units_len n : forall s,
  List.length s <= n -> str_ok s = true -> str_ok (quote_units s) = true.
Proof.
  induction n as [|n IH]; intros s L H.
  - destruct s; [reflexivity|cbn in L; lia].
  - destruct s as [|c s]; [reflexivity|]. cbn [List.length] in L.
    unfold str_ok in H. cbn [forallb] in H. apply andb_true_iff in H as [C H].
    pose proof (str_ok_escape_u c (proj1 (N.ltb_lt _ _) C)) as E.
    cbn [quote_units]. destruct (is_high c).
    + destruct s as [|d s]; [exact E|].
      cbn [forallb] in H. apply andb_true_iff in H as [D H'].
      destruct (is_low d).
      * unfold str_ok. cbn [forallb]. rewrite C, D. apply IH; [cbn in L; lia|exact H'].
      * rewrite str_ok_app, E. apply IH; [lia|].
        unfold str_ok. cbn [forallb]. now rewrite D.
    + destruct (is_low c).
      * rewrite str_ok_app, E. apply IH; [lia|exact H].
      * rewrite str_ok_app, (str_ok_quote_unit c C). apply IH; [lia|exact H].
Qed.

Lemma str_ok_quote s : str_ok s = true -> str_ok (quote s) = true.
Proof.
  intros H. unfold quote. change (34%N :: quote_units s ++ [34%N])
    with ([34%N] ++ quote_units s ++ [34%N]).
  now rewrite !str_ok_app, (str_ok_quote_units_len _ s (le_n _) H).
Qed.

Lemma str_ok_join l :
  Forall (fun t => str_ok t = true) l -> str_ok (join [44%N] l) = true.
Proof.
  induction 1 as [|t l Ht Hl IH]; [reflexivity|].
  destruct l as [|u l]; [exact Ht|].
  rewrite join_cons, !str_ok_app, Ht, IH. reflexivity.
Qed.

Lemma str_ok_element_text v : json_value v = true -> str_ok (element_text v) = true.
Proof.
  induction v as [| |b|x|s|t|items IH|o IH] using jsval_induction;
    intros J; try discriminate.
  - reflexivity.
  - now destruct b.
  - cbn [json_value] in J. apply andb_true_iff in J as [F W].
    unfold element_text. cbn [stringify]. rewrite F. now apply str_ok_num_to_string.
  - unfold element_text. cbn [stringify]. now apply str_ok_quote.
  - cbn [json_value] in J. pose proof (forallb_Forall_impl _ _ _ J IH) as S.
    unfold element_text. rewrite stringify_arr.
    change (91%N :: join [44%N] (map element_text items) ++ [93%N])
      with ([91%N] ++ join [44%N] (map element_text items) ++ [93%N]).
    rewrite !str_ok_app, str_ok_join; [reflexivity|].
    apply Forall_map. exact S.
  - cbn [json_value] in J. apply andb_true_iff in J as [J N].
    assert (J' : forallb (fun kv => json_value (snd kv)) o = true).
    { clear - J. induction o as [|kv o IHo]; [reflexivity|].
      cbn [forallb] in *. apply andb_true_iff in J as [J1 J2].
      apply andb_true_iff in J1 as [_ J1]. now rewrite J1, IHo. }
    unfold element_text.
    rewrite (stringify_obj o J' (fun x _ => json_value_stringify x)).
    change (123%N :: join [44%N] (map member_text o) ++ [125%N])
      with ([123%N] ++ join [44%N] (map member_text o) ++ [125%N]).
    rewrite !str_ok_app, str_ok_join; [reflexivity|].
    apply Forall_map. clear - J IH.
    induction IH as [|[k x] o Hx Ho IHo]; constructor.
    + cbn [forallb fst snd] in *. apply andb_true_iff in J as [J _].
      apply andb_true_iff in J as [K J]. unfold plain_key in K.
      apply andb_true_iff in K as [K _].
      unfold member_text. cbn [fst snd].
      change (quote k ++ 58%N :: element_text x)
        with (quote k ++ [58%N] ++ element_text x).
      rewrite !str_ok_app, (str_ok_quote k K), (Hx J). reflexivity.
    + apply IHo. cbn [forallb] in J. now apply andb_true_iff in J as [_ J].
Qed.

(** ** [serialize] and [deserialize] *)

Lemma deserialize_serialize_plain x key t :
  json_value x = true -> serialize x false key = Ok (Some t) ->
  deserialize t false key = x.
Proof.
  intros J S. unfold serialize in S. rewrite (json_value_text x J) in S.
  injection S as <-. unfold deserialize.
  now rewrite (JSON_parse_stringify x _ J (json_value_text x J)).
Qed.

Lemma deserialize_serialize_encrypted x key t :
  json_value x = true -> serialize x true key = Ok (Some t) ->
  deserialize t true key = x.
Proof.
  intros J S. unfold serialize in S. rewrite (json_value_text x J) in S.
  destruct (encrypt (element_text x) key) as [t'|] eqn:E; [|discriminate].
  injection S as <-. unfold deserialize.
  rewrite (decrypt_encrypt _ _ _ (str_ok_element_text x J) E).
  now rewrite (JSON_parse_stringify x _ J (json_value_text x J)).
Qed.

Lemma deserialize_serialize x flag key t :
  json_value x = true -> serialize x flag key = Ok (Some t) ->
  deserialize t flag key = x.
Proof.
  destruct flag; [apply deserialize_serialize_encrypted|apply deserialize_serialize_plain].
Qed.

(** ** [deepClone] *)

Lemma fold_left_agree {A B} (f g : A -> B -> A) l :
  Forall (fun b => forall a, f a b = g a b) l ->
  forall a, fold_left f l a = fold_left g l a.
Proof.
  induction 1 as [|b l Hb Hl IH]; intros a; [reflexivity|].
  cbn [fold_left]. now rewrite Hb, IH.
Qed.

(** A JSON value is its own deep clone. *)
Lemma deepClone_json v : json_value v = true -> deepClone v = v.
Proof.
  induction v as [| |b|x|s|t|items IH|o IH] using jsval_induction;
    intros J; try reflexivity.
  - cbn [json_value] in J. cbn [deepClone]. f_equal.
    pose proof (forallb_Forall_impl _ _ _ J IH) as S. clear - S.
    induction S as [|x l Hx Hl IHl]; [reflexivity|]. cbn [map]. now rewrite Hx, IHl.
  - cbn [json_value] in J. apply andb_true_iff in J as [J N].
    cbn [deepClone]. f_equal.
    rewrite (fold_left_agree _ (fun o kv => prop_define o (fst kv) (snd kv))).
    + now apply (fold_define_nodup o []).
    + clear - J IH. induction IH as [|[k x] o Hx Ho IHo]; constructor.
      * intros a. cbn [forallb fst snd] in *. apply andb_true_iff in J as [J _].
        apply andb_true_iff in J as [K J]. unfold plain_key in K.
        apply andb_true_iff in K as [_ K]. apply negb_true_iff in K.
        unfold prop_assign. now rewrite K, (Hx J).
      * apply IHo. cbn [forallb] in J. now apply andb_true_iff in J as [_ J].
Qed.

(** ** Running computations *)

Lemma bind_ok {St A B} (m : M St A) (k : A -> M St B) s a s' :
  m s = (Ok a, s') -> bind m k s = k a s'.
Proof. intros H. unfold bind. now rewrite H. Qed.

Lemma bind_throw {St A B} (m : M St A) (k : A -> M St B) s e s' :
  m s = (Throw e, s') -> bind m k s = (Throw e, s').
Proof. intros H. unfold bind. now rewrite H. Qed.

Lemma try_catch_ok {St A} (body : M St A) h s a s' :
  body s = (Ok a, s') -> try_catch body h s = (Ok a, s').
Proof. intros H. unfold try_catch. now rewrite H. Qed.

Lemma try_catch_throw {St A} (body : M St A) h s e s' :
  body s = (Throw e, s') -> try_catch body h s = h e s'.
Proof. intros H. unfold try_catch. now rewrite H. Qed.

(** *** The world after a storage call *)

Lemma storage_of_with_storage this s w : storage_of this (with_storage this s w) = s.
Proof. unfold storage_of, with_storage. now destruct (opt_type (options this)). Qed.

Lemma clock_with_storage this s w : clock (with_storage this s w) = clock w.
Proof. unfold with_storage. now destruct (opt_type (options this)). Qed.

Lemma delivered_with_storage this s w : delivered (with_storage this s w) = delivered w.
Proof. unfold with_storage. now destruct (opt_type (options this)). Qed.

(** *** [emit] *)

Lemma for_all_invoke d ls w :
  for_all ls (invoke d) w
  = (Ok tt, {| localStorage := localStorage w; sessionStorage := sessionStorage w;
               clock := clock w; delivered := delivered w ++ deliveries d ls |}).
Proof.
  revert w. induction ls as [|l ls IH]; intros w.
  - cbn. rewrite app_nil_r. now destruct w.
  - cbn [for_all]. unfold bind at 1. cbn [invoke]. rewrite IH. cbn.
    now rewrite <- app_assoc.
Qed.

Lemma emit_run this type data w : emit this type data w = (Ok tt, emitted this type data w).
Proof.
  unfold emit, emitted, registered.
  destruct (listeners_get type (listeners this)) as [[|l ls]|]; try reflexivity.
  unfold bind, Date_now. now rewrite for_all_invoke.
Qed.

Lemma storage_of_emitted this' this type data w :
  storage_of this' (emitted this type data w) = storage_of this' w.
Proof.
  unfold emitted. destruct (registered this type); [reflexivity|].
  unfold storage_of. now destruct (opt_type (options this')).
Qed.

Lemma isExpired_run expires w :
  isExpired expires w
  = (expired_at (now (clock w)) expires,
     match expires with JNull => w | _ => ticked w end).
Proof.
  unfold isExpired, expired_at.
  destruct expires; try reflexivity; unfold bind, Date_now, of_result; reflexivity.
Qed.

Lemma storage_getItem_run this k w :
  storage_getItem this k w
  = (Ok (lookup k (entries (storage_of this w))), noted this (CallGetItem k) w).
Proof. reflexivity. Qed.

Lemma entries_noted this c w :
  entries (storage_of this (noted this c w)) = entries (storage_of this w).
Proof. unfold noted. now rewrite storage_of_with_storage. Qed.

Lemma entries_ticked this w :
  entries (storage_of this (ticked w)) = entries (storage_of this w).
Proof. unfold ticked, storage_of. now destruct (opt_type (options this)). Qed.

Lemma clock_noted this c w : clock (noted this c w) = clock w.
Proof. apply clock_with_storage. Qed.

Lemma delivered_noted this c w : delivered (noted this c w) = delivered w.
Proof. apply delivered_with_storage. Qed.

Lemma storage_removeItem_run this k w :
  storage_removeItem this k w = (Ok tt, removed this k w).
Proof. reflexivity. Qed.

Lemma remove_run this key w :
  remove this key w
  = (Ok true, emitted this EvRemove (key_payload key)
                (removed this (getFullKey this key) w)).
Proof.
  unfold remove. apply try_catch_ok.
  rewrite (bind_ok _ _ _ _ _ (storage_removeItem_run _ _ _)).
  now rewrite (bind_ok _ _ _ _ _ (emit_run _ _ _ _)).
Qed.

Lemma clock_ticked w : clock (ticked w) = tick (clock w).
Proof. reflexivity. Qed.

Lemma delivered_ticked w : delivered (ticked w) = delivered w.
Proof. reflexivity. Qed.

Lemma clock_removed this k w : clock (removed this k w) = clock w.
Proof. apply clock_with_storage. Qed.

Lemma delivered_removed this k w : delivered (removed this k w) = delivered w.
Proof. apply delivered_with_storage. Qed.

Lemma entries_removed this k w :
  entries (storage_of this (removed this k w)) = erase k (entries (storage_of this w)).
Proof. unfold removed. now rewrite storage_of_with_storage. Qed.

Lemma guard_expires item :
  negb (truthy item) || negb (typeof_object item) || negb (js_in (lit "expires") item)
  = negb (has_expires item).
Proof. unfold has_expires. now rewrite !negb_andb. Qed.

Lemma guard_value item :
  negb (truthy item) || negb (typeof_object item) || negb (js_in (lit "value") item)
  = negb (has_value item).
Proof. unfold has_value. now rewrite !negb_andb. Qed.

Lemma no_data_some text : text <> [] -> no_data (Some text) = false.
Proof. now destruct text. Qed.

(** [has] on an entry that is present, step by step. *)
Lemma has_run this key w text :
  lookup (getFullKey this key) (entries (storage_of this w)) = Some text ->
  text <> [] ->
  has this key w =
  let w1 := noted this (CallGetItem (getFullKey this key)) w in
  let item := decode this (Some text) in
  if has_expires item then
    match expired_at (now (clock w)) (js_get item (lit "expires")) with
    | Ok true =>
        (Ok false,
         emitted this EvRemove (key_payload key)
           (removed this (getFullKey this key) (ticked w1)))
    | Ok false =>
        (Ok true, match js_get item (lit "expires") with JNull => w1 | _ => ticked w1 end)
    | Throw _ =>
        (Ok false, ticked w1)
    end
  else (Ok false, w1).
Proof.
  intros L T. cbv zeta. unfold has, try_catch.
  rewrite (bind_ok _ _ _ _ _ (storage_getItem_run _ _ _)), L. cbv beta.
  replace (no_data (Some text)) with false by (now destruct text).
  rewrite guard_expires.
  destruct (has_expires (decode this (Some text))); cbn [negb]; [|reflexivity].
  unfold bind at 1. rewrite isExpired_run, clock_noted.
  destruct (expired_at _ _) as [[|]|e] eqn:E.
  - unfold bind at 1. rewrite remove_run. unfold ret.
    destruct (js_get (decode this (Some text)) (lit "expires")); try reflexivity.
    discriminate.
  - reflexivity.
  - destruct (js_get (decode this (Some text)) (lit "expires")); try reflexivity.
    discriminate.
Qed.

(** [get] on an entry that is present, step by step. *)
Lemma get_run this key o w text :
  lookup (getFullKey this key) (entries (storage_of this w)) = Some text ->
  text <> [] ->
  get this key o w =
  let w1 := noted this (CallGetItem (getFullKey this key)) w in
  let item := decode this (Some text) in
  if has_value item then
    match expired_at (now (clock w)) (js_get item (lit "expires")) with
    | Ok true =>
        (Ok (or_null o),
         emitted this EvExpired (key_payload key)
           (emitted this EvRemove (key_payload key)
              (removed this (getFullKey this key) (ticked w1))))
    | Ok false =>
        (Ok (deepClone (js_get item (lit "value"))),
         emitted this EvGet (key_value_payload key (js_get item (lit "value")))
           match js_get item (lit "expires") with JNull => w1 | _ => ticked w1 end)
    | Throw _ => (Ok (or_null o), ticked w1)
    end
  else (Ok (or_null o), w1).
Proof.
  intros L T. cbv zeta. unfold get, try_catch.
  rewrite (bind_ok _ _ _ _ _ (storage_getItem_run _ _ _)), L. cbv beta.
  replace (no_data (Some text)) with false by (now destruct text).
  rewrite guard_value.
  destruct (has_value (decode this (Some text))); cbn [negb]; [|reflexivity].
  unfold bind at 1. rewrite isExpired_run, clock_noted.
  destruct (expired_at _ _) as [[|]|e] eqn:E.
  - unfold bind at 1. rewrite remove_run. unfold bind at 1. rewrite emit_run.
    unfold ret.
    destruct (js_get (decode this (Some text)) (lit "expires")); try reflexivity.
    discriminate.
  - unfold bind at 1. rewrite emit_run. reflexivity.
  - destruct (js_get (decode this (Some text)) (lit "expires")); try reflexivity.
    discriminate.
Qed.

(** [get] and [has] where the storage holds nothing (or the empty text)
    under the key. *)
Lemma get_absent this key o w :
  no_data (lookup (getFullKey this key) (entries (storage_of this w))) = true ->
  get this key o w = (Ok (or_null o), noted this (CallGetItem (getFullKey this key)) w).
Proof.
  intros L. unfold get, try_catch.
  rewrite (bind_ok _ _ _ _ _ (storage_getItem_run _ _ _)). cbv beta. now rewrite L.
Qed.

Lemma has_absent this key w :
  no_data (lookup (getFullKey this key) (entries (storage_of this w))) = true ->
  has this key w = (Ok false, noted this (CallGetItem (getFullKey this key)) w).
Proof.
  intros L. unfold has, try_catch.
  rewrite (bind_ok _ _ _ _ _ (storage_getItem_run _ _ _)). cbv beta. now rewrite L.
Qed.


Lemma decode_nonempty this text o : decode this (Some text) = JObj o -> text <> [].
Proof.
  intros D ->. unfold decode, deserialize in D. cbn [option_or] in D.
  destruct (opt_encrypt (options this)); discriminate.
Qed.



(** C2, as amended.  [has] on an entry that is present, decodable and
    expired removes it through [remove]: it answers [false], the entry is
    gone, and the listeners registered for [remove] (and nobody else)
    each receive one [remove] event carrying the key. *)
Theorem has_evicts_through_remove this key w text :
  lookup (getFullKey this key) (entries (storage_of this w)) = Some text ->
  text <> [] ->
  has_expires (decode this (Some text)) = true ->
  expired_at (now (clock w)) (js_get (decode this (Some text)) (lit "expires"))
  = Ok true ->
  exists w',
    has this key w = (Ok false, w')
    /\ lookup (getFullKey this key) (entries (storage_of this w')) = None
    /\ delivered w'
       = delivered w ++
         deliveries {| ev_type := EvRemove; ev_key := Some key; ev_value := None;
                       ev_timestamp := now (tick (clock w)) |}
                    (registered this EvRemove).
Proof.
  intros L T D E. rewrite (has_run _ _ _ _ L T). cbv zeta. rewrite D, E.
  eexists. split; [reflexivity|]. split.
  - rewrite storage_of_emitted, entries_removed. apply lookup_erase_same.
  - unfold emitted. destruct (registered this EvRemove) as [|l ls] eqn:R.
    + cbn [deliveries map]. rewrite app_nil_r.
      now rewrite delivered_removed, delivered_ticked, delivered_noted.
    + cbn [delivered clock].
      now rewrite delivered_removed, clock_removed, delivered_ticked, clock_ticked,
        delivered_noted, clock_noted.
Qed.

Lemma has_evicts_through_remove_witness :
  exists w',
    has remove_listener_engine (lit "k") (world_at 2000 expired_entry) = (Ok false, w')
    /\ lookup (getFullKey remove_listener_engine (lit "k"))
              (entries (storage_of remove_listener_engine w')) = None
    /\ delivered w'
       = delivered (world_at 2000 expired_entry) ++
         deliveries {| ev_type := EvRemove; ev_key := Some (lit "k"); ev_value := None;
                       ev_timestamp := now (tick (clock (world_at 2000 expired_entry))) |}
                    (registered remove_listener_engine EvRemove).
Proof.
  apply (has_evicts_through_remove remove_listener_engine (lit "k")
           (world_at 2000 expired_entry)
           (jtext "{'value':1,'expires':1500,'created':500}"));
    [reflexivity|discriminate|reflexivity|reflexivity].
Defined.

(** C2, as stated, fails: with a listener registered for [remove], [has]
    on an expired entry delivers a [remove] event to it. *)
Lemma has_is_not_silent :
  fst (has remove_listener_engine (lit "k") (world_at 2000 expired_entry)) = Ok false
  /\ delivered (snd (has remove_listener_engine (lit "k") (world_at 2000 expired_entry)))
     = [(7, {| ev_type := EvRemove; ev_key := Some (lit "k"); ev_value := None;
               ev_timestamp := 2000 |})].
Proof. split; reflexivity. Qed.

(** ** [set], step by step *)

Lemma calculateExpires_run this o w :
  calculateExpires (effective_expires this o) w
  = (Ok (expires_for this o (now (clock w))), after_expiry this o w).
Proof.
  unfold calculateExpires, expires_for, after_expiry.
  now destruct (effective_expires this o).
Qed.

Lemma storage_setItem_run this k text w :
  storage_setItem this k text w
  = if fits this k text w then (Ok tt, written this k text w)
    else (Throw QuotaExceededError, noted this (CallSetItem k text) w).
Proof. reflexivity. Qed.

Lemma set_run this key value o w :
  set this key value o w =
  let wb := ticked (after_expiry this o w) in
  match serialize (item_of this value o w) (write_flag this o)
                  (Some (opt_encryptKey (options this))) with
  | Ok t =>
      if fits this (getFullKey this key) (text_of t) wb
      then (Ok true,
            emitted this EvSet (key_value_payload key value)
              (written this (getFullKey this key) (text_of t) wb))
      else (Ok false, noted this (CallSetItem (getFullKey this key) (text_of t)) wb)
  | Throw _ => (Ok false, wb)
  end.
Proof.
  cbv zeta. unfold set, try_catch.
  rewrite (bind_ok _ _ _ _ _ (calculateExpires_run _ _ _)).
  unfold bind at 1. cbn [Date_now]. fold (ticked (after_expiry this o w)).
  fold (item_of this value o w). fold (write_flag this o).
  unfold bind at 1, of_result.
  destruct (serialize _ _ _) as [t|e]; [|reflexivity].
  unfold bind at 1. rewrite storage_setItem_run.
  destruct (fits _ _ _ _); [|reflexivity].
  unfold bind at 1. now rewrite emit_run.
Qed.

Lemma entries_written this k text w :
  entries (storage_of this (written this k text w))
  = store k text (entries (storage_of this w)).
Proof. unfold written. now rewrite storage_of_with_storage. Qed.

Lemma clock_written this k text w : clock (written this k text w) = clock w.
Proof. apply clock_with_storage. Qed.

Lemma clock_emitted_now this type data w :
  clock (emitted this type data w) = clock w
  \/ clock (emitted this type data w) = tick (clock w).
Proof. unfold emitted. destruct (registered this type); auto. Qed.

(** What a successful [set] leaves behind. *)
Lemma set_success this key value o w w1 :
  set this key value o w = (Ok true, w1) ->
  exists t,
    serialize (item_of this value o w) (write_flag this o)
              (Some (opt_encryptKey (options this))) = Ok t
    /\ w1 = emitted this EvSet (key_value_payload key value)
              (written this (getFullKey this key) (text_of t)
                 (ticked (after_expiry this o w)))
    /\ lookup (getFullKey this key) (entries (storage_of this w1)) = Some (text_of t).
Proof.
  rewrite set_run. cbv zeta.
  destruct (serialize _ _ _) as [t|e]; [|discriminate].
  destruct (fits _ _ _ _); [|discriminate].
  intros H. injection H as <-. exists t. split; [reflexivity|]. split; [reflexivity|].
  rewrite storage_of_emitted, entries_written. apply lookup_store_same.
Qed.

Lemma serialize_envelope_text value expires created flag key t :
  serialize (envelope value expires created) flag key = Ok t ->
  exists text, t = Some text.
Proof.
  unfold serialize. cbn [stringify envelope]. destruct flag.
  - destruct (encrypt _ _); [|discriminate]. intros H. injection H as <-. eauto.
  - intros H. injection H as <-. eauto.
Qed.

Lemma stringify_envelope_kept value e created :
  stringify (envelope value (kept_expires e) created)
  = stringify (envelope value e created).
Proof.
  destruct e as [| | |x| | | |]; try reflexivity.
  cbn [kept_expires]. destruct x; reflexivity.
Qed.

Lemma serialize_envelope_kept value e created flag key :
  serialize (envelope value (kept_expires e) created) flag key
  = serialize (envelope value e created) flag key.
Proof. unfold serialize. now rewrite stringify_envelope_kept. Qed.

(** A duration of zero or [NaN] is no duration. *)
Lemma effective_expires_falsy this o :
  let d := option_or (s_expires o) (opt_defaultExpires (options this)) in
  d = Int 0 \/ d = NaN -> effective_expires this o = None.
Proof. cbv zeta. unfold effective_expires. now intros [-> | ->]. Qed.

(** C4, as amended.  The envelope a successful [set] persists holds
    [created] = the clock reading taken when the envelope is built.  Its
    [expires] is [null] when there is no effective duration, and also when
    the duration is [+Infinity] or [-Infinity] (JSON writes the sum, which
    is not finite, as [null]).  For an integer duration [z], the reading
    [r] taken just before (when the expiry is computed), [z] and [r + z]
    being integers binary64 holds exactly, [expires] = [r + z]; then
    [created <= expires] holds exactly when [z] is at least the time
    elapsed between the two readings, so for every [z >= 0] when the
    clock does not advance in between. *)
Theorem set_persists_envelope this key value o w w1 :
  set this key value o w = (Ok true, w1) ->
  let r := now (clock w) in
  let created := now (clock (after_expiry this o w)) in
  let d := option_or (s_expires o) (opt_defaultExpires (options this)) in
  exists text expires,
    lookup (getFullKey this key) (entries (storage_of this w1)) = Some text
    /\ serialize (envelope (deepClone value) expires created)
                 (write_flag this o) (Some (opt_encryptKey (options this)))
       = Ok (Some text)
    /\ (d = Int 0 \/ d = NaN -> effective_expires this o = None)
    /\ (effective_expires this o = None -> expires = JNull /\ created = r)
    /\ (forall b, effective_expires this o = Some (Inf b) ->
        expires = JNull /\ created = now (tick (clock w)))
    /\ (forall z, effective_expires this o = Some (Int z) ->
        exact_int r = true -> exact_int z = true -> exact_int (r + z) = true ->
        expires = JNum (Int (r + z))
        /\ created = now (tick (clock w))
        /\ (created <= r + z <-> created - r <= z)%Z
        /\ (later (clock w) = [] -> (0 <= z)%Z -> (created <= r + z)%Z)).
Proof.
  intros S. cbv zeta. destruct (set_success _ _ _ _ _ _ S) as (t & E & _ & L).
  destruct (serialize_envelope_text _ _ _ _ _ _ E) as (text & ->).
  exists text, (kept_expires (expires_for this o (now (clock w)))).
  split; [exact L|]. split; [now rewrite serialize_envelope_kept|].
  split; [apply effective_expires_falsy|]. split; [|split].
  - intros N. unfold expires_for, after_expiry. now rewrite N.
  - intros b B. unfold expires_for, after_expiry. now rewrite B.
  - intros z Z _ _ _. unfold expires_for, after_expiry. rewrite Z. cbn [num_add].
    split; [reflexivity|]. split; [reflexivity|]. split; [lia|].
    intros La Hz. cbn [ticked clock]. unfold tick. rewrite La. lia.
Qed.

Lemma set_persists_envelope_witness :
  let this := plain_engine in
  let o := with_expires 1000 in
  let w := world_at 5000 [] in
  exists text,
    lookup (getFullKey this (lit "k"))
           (entries (storage_of this (snd (set this (lit "k") (JStr (lit "x")) o w))))
    = Some text
    /\ serialize (envelope (JStr (lit "x")) (JNum (Int 6000)) 5000) false
                 (Some (lit "vue-web-storage"))
       = Ok (Some text)
    /\ (now (clock (after_expiry this o w)) <= now (clock w) + 1000)%Z.
Proof.
  cbv zeta.
  destruct (set_persists_envelope plain_engine (lit "k") (JStr (lit "x"))
              (with_expires 1000) (world_at 5000 []) _ eq_refl)
    as (text & expires & L & E & _ & _ & _ & H).
  destruct (H 1000%Z eq_refl eq_refl eq_refl eq_refl) as (X & _ & _ & Le).
  exists text. split; [exact L|]. split; [now rewrite X in E|].
  apply Le; [reflexivity|lia].
Defined.

(** C4, as stated, fails: a negative duration is accepted and persists an
    envelope that expires before it was created. *)
Lemma negative_duration_expires_before_created :
  set plain_engine (lit "k") (JNum (Int 1)) (with_expires (-5)) (world_at 1000 [])
  = (Ok true,
     snd (set plain_engine (lit "k") (JNum (Int 1)) (with_expires (-5)) (world_at 1000 [])))
  /\ entries (localStorage
        (snd (set plain_engine (lit "k") (JNum (Int 1)) (with_expires (-5))
                (world_at 1000 []))))
     = [(lit "vue-storage-k", jtext "{'value':1,'expires':995,'created':1000}")].
Proof. split; reflexivity. Qed.

(** ** Reading back what [set] wrote *)

Lemma strip_zeros_ok fuel : forall m e,
  (e <= 0)%Z -> Z.to_nat (- e) <= fuel ->
  let '(m', e') := strip_zeros fuel m e in
  (e' <= 0)%Z /\ ((e' < 0)%Z -> (m' mod 10)%Z <> 0%Z).
Proof.
  induction fuel as [|f IH]; intros m e E F; cbn [strip_zeros].
  - split; [exact E|lia].
  - destruct (e <? 0)%Z eqn:E0; cbn [andb].
    + destruct (m mod 10 =? 0)%Z eqn:M.
      * apply Z.ltb_lt in E0. apply IH; lia.
      * apply Z.eqb_neq in M. split; [exact E|auto].
    + apply Z.ltb_ge in E0. split; [exact E|lia].
Qed.

Lemma mk_num_ok m e : num_ok (mk_num m e) = true.
Proof.
  unfold mk_num. destruct (m =? 0)%Z; [reflexivity|].
  destruct (0 <=? e)%Z eqn:E; [reflexivity|]. apply Z.leb_gt in E.
  pose proof (strip_zeros_ok (Z.to_nat (- e)) m e ltac:(lia) (le_n _)) as H.
  destruct (strip_zeros (Z.to_nat (- e)) m e) as [m' e']. destruct H as [H1 H2].
  destruct (e' =? 0)%Z eqn:E'; [reflexivity|]. apply Z.eqb_neq in E'.
  cbn [num_ok]. apply andb_true_iff. split; [apply Z.ltb_lt; lia|].
  apply negb_true_iff, Z.eqb_neq, H2. lia.
Qed.

Lemma num_add_int_ok t d : num_ok (num_add (Int t) d) = true.
Proof.
  destruct d as [| |z|m e]; try reflexivity. cbn [num_add].
  destruct (aligned (Int t) (Dec m e)) as [[x y] e']. apply mk_num_ok.
Qed.

Lemma json_value_envelope this value o r created :
  json_value value = true ->
  json_value (envelope value (kept_expires (expires_for this o r)) created) = true.
Proof.
  intros J. unfold envelope. unfold json_value; fold json_value.
  cbn [forallb fst snd nodup_keys own_key].
  rewrite J. apply andb_true_iff. split; [|reflexivity].
  assert (K : json_value (kept_expires (expires_for this o r)) = true).
  { unfold expires_for. destruct (effective_expires this o) as [d|]; [|reflexivity].
    cbn [kept_expires]. destruct (num_finite (num_add (Int r) d)) eqn:F; [|reflexivity].
    cbn [json_value]. now rewrite F, num_add_int_ok. }
  rewrite K. reflexivity.
Qed.

(** The item [get] decodes after a successful [set] made with the
    engine's own flag is the envelope that was built. *)
Lemma decode_after_set this value o w t :
  json_value value = true ->
  write_flag this o = opt_encrypt (options this) ->
  serialize (item_of this value o w) (write_flag this o)
            (Some (opt_encryptKey (options this))) = Ok t ->
  decode this (Some (text_of t))
  = envelope value (kept_expires (expires_for this o (now (clock w))))
             (now (clock (after_expiry this o w)))
  /\ text_of t <> [].
Proof.
  intros J F S. unfold item_of in S. rewrite (deepClone_json _ J) in S.
  rewrite <- serialize_envelope_kept in S.
  destruct (serialize_envelope_text _ _ _ _ _ _ S) as (text & ->).
  cbn [text_of option_or]. unfold decode. cbn [option_or]. rewrite <- F.
  pose proof (deserialize_serialize _ _ _ _
                (json_value_envelope this value o _ _ J) S) as D.
  split; [exact D|]. intros ->.
  destruct (write_flag this o); discriminate.
Qed.

Lemma storage_of_at_clock this c w : storage_of this (at_clock c w) = storage_of this w.
Proof. unfold storage_of. now destruct (opt_type (options this)). Qed.

Lemma at_clock_same w : at_clock (clock w) w = w.
Proof. now destruct w. Qed.

Lemma expired_at_kept t this o r :
  expired_at t (kept_expires (expires_for this o r))
  = Ok match effective_expires this o with
       | Some d => num_finite (num_add (Int r) d) && num_lt (num_add (Int r) d) (Int t)
       | None => false
       end.
Proof.
  unfold expires_for. destruct (effective_expires this o) as [d|]; [|reflexivity].
  cbn [kept_expires]. destruct (num_finite (num_add (Int r) d)); reflexivity.
Qed.

(** After a successful [set] of a JSON value with the engine's own flag,
    [get] at any later moment returns the value unless the expiry has
    passed. *)
Lemma get_after_set this key value o g w w1 c :
  json_value value = true ->
  write_flag this o = opt_encrypt (options this) ->
  set this key value o w = (Ok true, w1) ->
  fst (get this key g (at_clock c w1))
  = match effective_expires this o with
    | Some d =>
        if num_finite (num_add (Int (now (clock w))) d)
           && num_lt (num_add (Int (now (clock w))) d) (Int (now c))
        then Ok (or_null g) else Ok value
    | None => Ok value
    end.
Proof.
  intros J F S. destruct (set_success _ _ _ _ _ _ S) as (t & E & _ & L).
  destruct (decode_after_set _ _ _ _ _ J F E) as (D & T).
  rewrite <- (storage_of_at_clock this c) in L.
  rewrite (get_run _ _ _ _ _ L T). cbv zeta. rewrite D.
  change (has_value (envelope value
            (kept_expires (expires_for this o (now (clock w))))
            (now (clock (after_expiry this o w))))) with true.
  cbv iota.
  change (js_get (envelope value
            (kept_expires (expires_for this o (now (clock w))))
            (now (clock (after_expiry this o w)))) (lit "expires"))
    with (kept_expires (expires_for this o (now (clock w)))).
  change (js_get (envelope value
            (kept_expires (expires_for this o (now (clock w))))
            (now (clock (after_expiry this o w)))) (lit "value"))
    with value.
  cbn [clock at_clock]. rewrite expired_at_kept, (deepClone_json _ J).
  destruct (effective_expires this o) as [d|]; [|reflexivity].
  now destruct (_ && _).
Qed.

(** C1, as amended.  For every JSON value (null, booleans, finite
    numbers, strings, arrays and objects of such, under distinct keys
    other than [__proto__]), every key and every duration: when [set]
    reports success, was made with the engine's configured obfuscation
    flag, and [get] follows no later than the expiry, [get] returns the
    value. *)
Theorem set_then_get this key value o g w w1 :
  json_value value = true ->
  write_flag this o = opt_encrypt (options this) ->
  set this key value o w = (Ok true, w1) ->
  (forall d, effective_expires this o = Some d ->
     num_lt (num_add (Int (now (clock w))) d) (Int (now (clock w1))) = false) ->
  fst (get this key g w1) = Ok value.
Proof.
  intros J F S H. rewrite <- (at_clock_same w1) at 1.
  rewrite (get_after_set _ _ _ _ _ _ _ _ J F S).
  destruct (effective_expires this o) as [d|]; [|reflexivity].
  now rewrite (H d eq_refl), andb_false_r.
Qed.

Lemma set_then_get_witness :
  fst (get encrypting_engine (lit "user") no_get_options
         (snd (set encrypting_engine (lit "user") sample_value (with_expires 1000)
                 (world_at 5000 []))))
  = Ok sample_value.
Proof.
  apply (set_then_get encrypting_engine (lit "user") sample_value (with_expires 1000)
           no_get_options (world_at 5000 [])).
  - reflexivity.
  - reflexivity.
  - vm_compute. reflexivity.
  - intros d H. injection H as <-. vm_compute. reflexivity.
Defined.

(** C1, as stated, fails: a [Date], which [deepClone] copies as a date,
    comes back from [get] as the text of its instant, and [NaN] comes back
    as [null]. *)
Lemma set_then_get_loses_dates :
  fst (set plain_engine (lit "k") (JDate 0) no_set_options (world_at 1000 []))
  = Ok true
  /\ fst (get plain_engine (lit "k") no_get_options
            (snd (set plain_engine (lit "k") (JDate 0) no_set_options
                    (world_at 1000 []))))
     = Ok (JStr (lit "1970-01-01T00:00:00.000Z"))
  /\ fst (get plain_engine (lit "k") no_get_options
            (snd (set plain_engine (lit "k") (JNum NaN) no_set_options
                    (world_at 1000 []))))
     = Ok JNull.
Proof. repeat split; vm_compute; reflexivity. Qed.

(** Reading an entry that decodes to an envelope. *)
Lemma read_envelope this key g w text value e created c :
  lookup (getFullKey this key) (entries (storage_of this w)) = Some text ->
  text <> [] ->
  decode this (Some text) = envelope value e created ->
  fst (get this key g (at_clock c w))
  = match expired_at (now c) e with
    | Ok false => Ok (deepClone value)
    | _ => Ok (or_null g)
    end
  /\ fst (has this key (at_clock c w))
     = match expired_at (now c) e with
       | Ok false => Ok true
       | _ => Ok false
       end.
Proof.
  intros L T D. rewrite <- (storage_of_at_clock this c) in L. split.
  - rewrite (get_run _ _ _ _ _ L T). cbv zeta. rewrite D.
    change (has_value (envelope value e created)) with true. cbv iota.
    change (js_get (envelope value e created) (lit "expires")) with e.
    change (js_get (envelope value e created) (lit "value")) with value.
    cbn [clock at_clock]. now destruct (expired_at (now c) e) as [[|]|].
  - rewrite (has_run _ _ _ _ L T). cbv zeta. rewrite D.
    change (has_expires (envelope value e created)) with true. cbv iota.
    change (js_get (envelope value e created) (lit "expires")) with e.
    cbn [clock at_clock]. now destruct (expired_at (now c) e) as [[|]|].
Qed.

(** C3, as amended.  After a successful [set] of a JSON value made with
    the engine's own flag, the persisted text decodes to an envelope of
    the value with an [expires] field [e], and [get] returns the value
    exactly at the moments [t] for which [t > e] is false ([null] never
    expires).  A write whose effective duration (the per-call one, else
    the configured default) is absent, zero or [NaN] persists [e = null],
    and [get] returns the value at every later moment; so does a write
    whose duration is [+Infinity] or [-Infinity], whose sum with the
    clock JSON writes as [null].  A write with an integer duration [z]
    persists [e = r + z], [r] being the clock reading at which [set]
    computes the expiry ([created] is read after it): the item is
    returned at every moment [t <= r + z] and treated as expired at every
    [t > r + z].  Here [r], [z], [r + z] and [t] are integers binary64
    holds exactly, so that the sum and the comparison are those of the
    platform. *)
Theorem expiry_policy this key value o g w w1 :
  json_value value = true ->
  write_flag this o = opt_encrypt (options this) ->
  set this key value o w = (Ok true, w1) ->
  let r := now (clock w) in
  let d := option_or (s_expires o) (opt_defaultExpires (options this)) in
  exists text e created,
    lookup (getFullKey this key) (entries (storage_of this w1)) = Some text
    /\ decode this (Some text) = envelope value e created
    /\ (forall c, fst (get this key g (at_clock c w1))
                  = match expired_at (now c) e with
                    | Ok false => Ok value
                    | _ => Ok (or_null g)
                    end)
    /\ (d = Int 0 \/ d = NaN -> effective_expires this o = None)
    /\ (effective_expires this o = None ->
        e = JNull /\ forall c, fst (get this key g (at_clock c w1)) = Ok value)
    /\ (forall b, effective_expires this o = Some (Inf b) ->
        e = JNull /\ forall c, fst (get this key g (at_clock c w1)) = Ok value)
    /\ (forall z, effective_expires this o = Some (Int z) ->
        exact_int r = true -> exact_int z = true -> exact_int (r + z) = true ->
        e = JNum (Int (r + z))
        /\ forall c, exact_int (now c) = true ->
             fst (get this key g (at_clock c w1))
             = if (now c <=? r + z)%Z then Ok value else Ok (or_null g)).
Proof.
  intros J F S. cbv zeta.
  destruct (set_success _ _ _ _ _ _ S) as (t & E & _ & L).
  destruct (decode_after_set _ _ _ _ _ J F E) as (D & T).
  exists (text_of t), (kept_expires (expires_for this o (now (clock w)))),
         (now (clock (after_expiry this o w))).
  split; [exact L|]. split; [exact D|]. split; [|split; [|split; [|split]]].
  - intros c. destruct (read_envelope this key g w1 _ _ _ _ c L T D) as [H _].
    now rewrite H, (deepClone_json _ J).
  - apply effective_expires_falsy.
  - intros N. split; [unfold expires_for; now rewrite N|]. intros c.
    now rewrite (get_after_set _ _ _ _ _ _ _ c J F S), N.
  - intros b B. split; [unfold expires_for; now rewrite B|]. intros c.
    now rewrite (get_after_set _ _ _ _ _ _ _ c J F S), B.
  - intros z Z _ _ _. split; [unfold expires_for; now rewrite Z|]. intros c _.
    rewrite (get_after_set _ _ _ _ _ _ _ c J F S), Z. cbn [num_add num_finite num_lt andb].
    rewrite Z.leb_antisym. now destruct (now (clock w) + z <? now c)%Z.
Qed.

Lemma expiry_policy_witness :
  let this := plain_engine in
  let o := with_expires 1000 in
  let w := world_at 5000 [] in
  let w1 := snd (set this (lit "b") (JStr (lit "x")) o w) in
  (exists text created,
     lookup (getFullKey this (lit "b")) (entries (storage_of this w1)) = Some text
     /\ decode this (Some text) = envelope (JStr (lit "x")) (JNum (Int 6000)) created)
  /\ fst (get this (lit "b") no_get_options (at_clock {| now := 6000; later := [] |} w1))
     = Ok (JStr (lit "x"))
  /\ fst (get this (lit "b") no_get_options (at_clock {| now := 6001; later := [] |} w1))
     = Ok JNull.
Proof.
  cbv zeta.
  destruct (expiry_policy plain_engine (lit "b") (JStr (lit "x")) (with_expires 1000)
              no_get_options (world_at 5000 []) _ eq_refl eq_refl eq_refl)
    as (text & e & created & L & D & _ & _ & _ & _ & H).
  destruct (H 1000%Z eq_refl eq_refl eq_refl eq_refl) as [E G].
  split; [exists text, created; split; [exact L|rewrite D, E; reflexivity]|]. split.
  - exact (G {| now := 6000; later := [] |} eq_refl).
  - exact (G {| now := 6001; later := [] |} eq_refl).
Defined.

(** The same for the duration [-Infinity]: the envelope holds
    [expires: null] and the item never expires. *)
Lemma infinite_duration_never_expires :
  let w1 := snd (set plain_engine (lit "k") (JNum (Int 1))
                   {| s_expires := Some (Inf true); s_encrypt := None |}
                   (world_at 1000 [])) in
  entries (localStorage w1)
  = [(lit "vue-storage-k", jtext "{'value':1,'expires':null,'created':1000}")]
  /\ fst (get plain_engine (lit "k") no_get_options
            (at_clock {| now := 999999; later := [] |} w1))
     = Ok (JNum (Int 1)).
Proof. split; vm_compute; reflexivity. Qed.

(** C3, as stated, fails: a write with the per-call duration 0 never
    expires, so it is still returned long after [created + 0]. *)
Lemma zero_duration_never_expires :
  let w1 := snd (set plain_engine (lit "k") (JNum (Int 1)) (with_expires 0)
                   (world_at 1000 [])) in
  entries (localStorage w1)
  = [(lit "vue-storage-k", jtext "{'value':1,'expires':null,'created':1000}")]
  /\ fst (get plain_engine (lit "k") no_get_options
            (at_clock {| now := 999999; later := [] |} w1))
     = Ok (JNum (Int 1)).
Proof. split; vm_compute; reflexivity. Qed.

(** The same with a clock that advances while [set] runs: [expires] is
    1010 though [created + d] is 1015, and the item read at 1015 is
    gone. *)
Lemma expiry_counts_from_first_reading :
  let w := {| localStorage := empty_storage; sessionStorage := empty_storage;
              clock := {| now := 1000; later := [1005%Z] |}; delivered := [] |} in
  let w1 := snd (set plain_engine (lit "k") (JNum (Int 1)) (with_expires 10) w) in
  entries (localStorage w1)
  = [(lit "vue-storage-k", jtext "{'value':1,'expires':1010,'created':1005}")]
  /\ fst (get plain_engine (lit "k") no_get_options
            (at_clock {| now := 1015; later := [] |} w1))
     = Ok JNull.
Proof. split; vm_compute; reflexivity. Qed.

(** ** Reading base64 text as JSON *)

(** A text that starts with a character other than white space and the
    opening brace is never parsed as an object. *)
Lemma parse_value_not_object f c r o rest :
  is_ws c = false -> c <> 123%N -> parse_value f (c :: r) <> Some (JObj o, rest).
Proof.
  intros W C. destruct f as [|f]; [discriminate|].
  rewrite parse_value_S, (skip_ws_head c r W).
  apply N.eqb_neq in C. rewrite C.
  destruct (c =? 91)%N.
  { destruct (skip_ws r) as [|d r']; [discriminate|].
    destruct (d =? 93)%N; [discriminate|].
    destruct (parse_elements f (d :: r')) as [[vs r2]|]; discriminate. }
  destruct (c =? 34)%N.
  { destruct (parse_chars r) as [[t r']|]; discriminate. }
  unfold expect.
  destruct (c =? 116)%N; [destruct (startsWith _ _); discriminate|].
  destruct (c =? 102)%N; [destruct (startsWith _ _); discriminate|].
  destruct (c =? 110)%N; [destruct (startsWith _ _); discriminate|].
  destruct (parse_number (c :: r)) as [[x r']|]; discriminate.
Qed.

Lemma has_value_object item : has_value item = true -> exists o, item = JObj o.
Proof.
  unfold has_value. destruct item; cbn; try discriminate; try (rewrite ?andb_false_r; discriminate).
  eauto.
Qed.

Lemma has_expires_object item : has_expires item = true -> exists o, item = JObj o.
Proof.
  unfold has_expires. destruct item; cbn; try discriminate;
    try (rewrite ?andb_false_r; discriminate).
  eauto.
Qed.

Lemma b64_encode_head s :
  b64_encode s = [] \/ exists i r, b64_encode s = b64_char i :: r.
Proof. destruct s as [|a [|b [|c s]]]; cbn [b64_encode app]; eauto. Qed.

Lemma b64_char_not_json_ws i : is_ws (b64_char i) = false.
Proof.
  pose proof (b64_char_range i) as H. cbv zeta in H. unfold is_ws.
  rewrite !orb_false_iff, !N.eqb_neq. lia.
Qed.

Lemma b64_char_not_brace i : b64_char i <> 123%N.
Proof. pose proof (b64_char_range i) as H. cbv zeta in H. lia. Qed.

(** Obfuscated text, read without reversing the obfuscation, holds no
    value field. *)
Lemma encrypted_text_no_object text key t k o :
  encrypt text key = Ok t -> deserialize t false k <> JObj o.
Proof.
  unfold encrypt, btoa. destruct (forallb _ _); [|discriminate].
  intros E. injection E as <-. intros H. unfold deserialize, JSON_parse in H.
  destruct (b64_encode_head (xor_from 0 text (key_or_default key)))
    as [E|(i & r & E)]; rewrite E in H; [discriminate|].
  destruct (parse_value _ _) as [[v rest]|] eqn:P; [|discriminate].
  destruct (skip_ws rest); [|discriminate]. subst v.
  now apply (parse_value_not_object _ _ _ _ _ (b64_char_not_json_ws i)
               (b64_char_not_brace i)) in P.
Qed.

Lemma encrypted_text_unreadable text key t k :
  encrypt text key = Ok t ->
  has_value (deserialize t false k) = false
  /\ has_expires (deserialize t false k) = false.
Proof.
  intros E. split.
  - destruct (has_value _) eqn:H; [|reflexivity].
    apply has_value_object in H as (o & H).
    now apply (encrypted_text_no_object _ _ _ _ _ E) in H.
  - destruct (has_expires _) eqn:H; [|reflexivity].
    apply has_expires_object in H as (o & H).
    now apply (encrypted_text_no_object _ _ _ _ _ E) in H.
Qed.

(** C10.  [get] deserializes with the engine's configured flag, not with
    the flag of the write: on an engine configured without obfuscation, an
    item written with the per-call override [encrypt: true] cannot be read
    back; [get] returns the default (or [null]) and [has] answers
    [false]. *)
Theorem override_write_is_unreadable this key value o g w w1 :
  opt_encrypt (options this) = false ->
  s_encrypt o = Some true ->
  set this key value o w = (Ok true, w1) ->
  fst (get this key g w1) = Ok (or_null g)
  /\ fst (has this key w1) = Ok false.
Proof.
  intros F O S. destruct (set_success _ _ _ _ _ _ S) as (t & E & _ & L).
  unfold write_flag in E. rewrite O in E. cbn [option_or] in E.
  destruct (serialize_envelope_text _ _ _ _ _ _ E) as (text & ->).
  cbn [text_of option_or] in L.
  destruct text as [|c text].
  { rewrite get_absent, has_absent by (now rewrite L). now split. }
  rewrite (get_run _ _ _ _ _ L ltac:(discriminate)).
  rewrite (has_run _ _ _ _ L ltac:(discriminate)). cbv zeta.
  unfold decode. rewrite F. cbn [option_or].
  unfold serialize, item_of in E. cbn [stringify envelope] in E.
  destruct (encrypt _ _) as [t'|] eqn:En; [|discriminate]. injection E as ->.
  destruct (encrypted_text_unreadable _ _ _ (Some (opt_encryptKey (options this))) En)
    as [V X].
  now rewrite V, X.
Qed.

Lemma override_write_is_unreadable_witness :
  fst (get plain_engine (lit "token") no_get_options
         (snd (set plain_engine (lit "token") (JStr (lit "abc123")) (with_encrypt true)
                 (world_at 1000 []))))
  = Ok (or_null no_get_options)
  /\ fst (has plain_engine (lit "token")
            (snd (set plain_engine (lit "token") (JStr (lit "abc123"))
                    (with_encrypt true) (world_at 1000 []))))
     = Ok false.
Proof.
  apply (override_write_is_unreadable plain_engine (lit "token") (JStr (lit "abc123"))
           (with_encrypt true) no_get_options (world_at 1000 [])).
  - reflexivity.
  - reflexivity.
  - vm_compute. reflexivity.
Defined.

(** ** A program logic for the computations

    [hoare P m Q]: run from a state satisfying [P], [m] ends (normally or
    by raising) in a state and with a result satisfying [Q]. *)

Section Rules.
Context {St : Type}.

Lemma hoare_ret {A} (P : St -> Prop) (a : A) Q :
  (forall s, P s -> Q (Ok a) s) -> hoare P (ret a) Q.
Proof. intros H s Ps. now apply H. Qed.

Lemma hoare_bind {A B} (P : St -> Prop) (m : M St A) (k : A -> M St B) R Q :
  hoare P m R ->
  (forall a, hoare (R (Ok a)) (k a) Q) ->
  (forall e s, R (Throw e) s -> Q (Throw e) s) ->
  hoare P (bind m k) Q.
Proof.
  intros Hm Hk He s Ps. specialize (Hm s Ps). unfold bind.
  destruct (m s) as [[a|e] s']; cbn [fst snd] in *.
  - now apply Hk.
  - now apply He.
Qed.

Lemma hoare_try_catch {A} (P : St -> Prop) (body : M St A) h R Q :
  hoare P body R ->
  (forall a s, R (Ok a) s -> Q (Ok a) s) ->
  (forall e, hoare (R (Throw e)) (h e) Q) ->
  hoare P (try_catch body h) Q.
Proof.
  intros Hb Ho Hh s Ps. specialize (Hb s Ps). unfold try_catch.
  destruct (body s) as [[a|e] s']; cbn [fst snd] in *.
  - now apply Ho.
  - now apply Hh.
Qed.

Lemma hoare_weaken {A} (P P' : St -> Prop) (m : M St A) (Q Q' : result A -> St -> Prop) :
  hoare P' m Q' -> (forall s, P s -> P' s) -> (forall r s, Q' r s -> Q r s) ->
  hoare P m Q.
Proof. intros H HP HQ s Ps. apply HQ, H, HP, Ps. Qed.

Lemma hoare_of_result {A} (P : St -> Prop) (r : result A) Q :
  (forall s, P s -> Q r s) -> hoare P (of_result r) Q.
Proof. intros H s Ps. now apply H. Qed.

Lemma hoare_for_each (I E : St -> Prop) body n : forall from,
  (forall i, hoare I (body i) (loop_post I E)) ->
  hoare I (for_each n from body) (loop_post I E).
Proof.
  induction n as [|n IH]; intros from H.
  - now apply hoare_ret.
  - cbn [for_each]. apply hoare_bind with (R := loop_post I E).
    + apply H.
    + intros a. change (hoare I (for_each n (S from) body) (loop_post I E)).
      now apply IH.
    + intros e s X. exact X.
Qed.

Lemma hoare_for_all {A} (I E : St -> Prop) (body : A -> M St unit) l :
  (forall a, In a l -> hoare I (body a) (loop_post I E)) ->
  hoare I (for_all l body) (loop_post I E).
Proof.
  induction l as [|a l IH]; intros H.
  - now apply hoare_ret.
  - cbn [for_all]. apply hoare_bind with (R := loop_post I E).
    + apply H. now left.
    + intros u. change (hoare I (for_all l body) (loop_post I E)).
      apply IH. intros b Hb. apply H. now right.
    + intros e s X. exact X.
Qed.

End Rules.

(** Local variables. *)
Lemma hoare_global {L A} (P : World * L -> Prop) (m : M World A) Q :
  (forall l, hoare (fun w => P (w, l)) m (fun r w => Q r (w, l))) ->
  hoare P (global m) Q.
Proof.
  intros H [w l] Ps. specialize (H l w Ps). unfold global. cbn [fst snd].
  now destruct (m w).
Qed.

Lemma hoare_local {L} (P : World * L -> Prop) Q :
  (forall s, P s -> Q (Ok (snd s)) s) -> hoare P local Q.
Proof. intros H s Ps. now apply H. Qed.

Lemma hoare_assign {L} (P : World * L -> Prop) (f : L -> L) Q :
  (forall s, P s -> Q (Ok tt) (fst s, f (snd s))) -> hoare P (assign f) Q.
Proof. intros H s Ps. now apply H. Qed.

Lemma hoare_block {L A} (P : World -> Prop) (l : L) (m : M (World * L) A) Q :
  hoare (fun s => P (fst s) /\ snd s = l) m (fun r s => Q r (fst s)) ->
  hoare P (block l m) Q.
Proof.
  intros H w Pw. specialize (H (w, l) (conj Pw eq_refl)). unfold block.
  now destruct (m (w, l)).
Qed.

Lemma global_run {L A} (m : M World A) w (l : L) :
  global m (w, l) = (fst (m w), (snd (m w), l)).
Proof. unfold global. cbn [fst snd]. now destruct (m w). Qed.

Section Stable.
Context {St : Type} (I : St -> Prop).

Lemma stable_ret {A} (a : A) : stable I (ret a).
Proof. now apply hoare_ret. Qed.

Lemma stable_of_result {A} (r : result A) : stable I (of_result r).
Proof. now apply hoare_of_result. Qed.

Lemma stable_bind {A B} (m : M St A) (k : A -> M St B) :
  stable I m -> (forall a, stable I (k a)) -> stable I (bind m k).
Proof.
  intros Hm Hk. apply hoare_bind with (R := always I);
    [exact Hm|exact Hk|now intros e s X].
Qed.

Lemma stable_try_catch {A} (body : M St A) h :
  stable I body -> (forall e, stable I (h e)) -> stable I (try_catch body h).
Proof.
  intros Hb Hh. apply hoare_try_catch with (R := always I);
    [exact Hb|now intros a s X|exact Hh].
Qed.

Lemma stable_for_each body n from :
  (forall i, stable I (body i)) -> stable I (for_each n from body).
Proof.
  intros H. apply hoare_weaken with (P' := I) (Q' := loop_post I I).
  - apply hoare_for_each. intros i. apply hoare_weaken with (P' := I) (Q' := always I);
      [apply H|auto|]. intros [u|e] s X; exact X.
  - auto.
  - intros [u|e] s X; exact X.
Qed.

Lemma stable_for_all {A} (body : A -> M St unit) l :
  (forall a, In a l -> stable I (body a)) -> stable I (for_all l body).
Proof.
  intros H. apply hoare_weaken with (P' := I) (Q' := loop_post I I).
  - apply hoare_for_all. intros a Ha.
    apply hoare_weaken with (P' := I) (Q' := always I); [now apply H|auto|].
    intros [u|e] s X; exact X.
  - auto.
  - intros [u|e] s X; exact X.
Qed.

End Stable.

(** ** Prefix scoping *)

Lemma scoped_refl this w : scoped this w w.
Proof.
  split; [|split; [easy|reflexivity]]. exists []. now rewrite app_nil_r.
Qed.

Lemma other_storage_with_storage this s w :
  other_storage this (with_storage this s w) = other_storage this w.
Proof. unfold other_storage, with_storage. now destruct (opt_type (options this)). Qed.

Lemma scoped_noted this w0 w c :
  call_in_scope this c = true -> scoped this w0 w -> scoped this w0 (noted this c w).
Proof.
  intros C ((j & J & F) & L & O). unfold noted. split; [|split].
  - exists (j ++ [c]). rewrite storage_of_with_storage. cbn [journaled journal].
    rewrite J, app_assoc, forallb_app, F. cbn. now rewrite C.
  - intros k K. rewrite storage_of_with_storage. cbn [journaled entries]. now apply L.
  - now rewrite other_storage_with_storage.
Qed.

Lemma scoped_removed this w0 w k :
  key_in_scope this k = true -> scoped this w0 w -> scoped this w0 (removed this k w).
Proof.
  intros C ((j & J & F) & L & O). unfold removed. split; [|split].
  - exists (j ++ [CallRemoveItem k]). rewrite storage_of_with_storage.
    cbn [journaled journal]. rewrite J, app_assoc, forallb_app, F. cbn. now rewrite C.
  - intros k' K. rewrite storage_of_with_storage. cbn [journaled entries].
    rewrite lookup_erase_other; [now apply L|]. intros ->. congruence.
  - now rewrite other_storage_with_storage.
Qed.

Lemma scoped_written this w0 w k text :
  key_in_scope this k = true -> scoped this w0 w -> scoped this w0 (written this k text w).
Proof.
  intros C ((j & J & F) & L & O). unfold written. split; [|split].
  - exists (j ++ [CallSetItem k text]). rewrite storage_of_with_storage.
    cbn [journaled journal]. rewrite J, app_assoc, forallb_app, F. cbn. now rewrite C.
  - intros k' K. rewrite storage_of_with_storage. cbn [journaled entries].
    rewrite lookup_store_other; [now apply L|]. intros ->. congruence.
  - now rewrite other_storage_with_storage.
Qed.

Lemma other_storage_emitted this' this type data w :
  other_storage this' (emitted this type data w) = other_storage this' w.
Proof.
  unfold emitted. destruct (registered this type); [reflexivity|].
  unfold other_storage. now destruct (opt_type (options this')).
Qed.

Lemma scoped_emitted this w0 w type data :
  scoped this w0 w -> scoped this w0 (emitted this type data w).
Proof.
  intros (J & L & O). unfold scoped.
  now rewrite storage_of_emitted, other_storage_emitted.
Qed.

Lemma scoped_ticked this w0 w : scoped this w0 w -> scoped this w0 (ticked w).
Proof.
  intros H. unfold scoped, ticked, storage_of, other_storage in *.
  destruct (opt_type (options this)); exact H.
Qed.

Lemma full_key_in_scope this key : key_in_scope this (getFullKey this key) = true.
Proof. apply startsWith_app. Qed.

(** *** The primitives *)

Section Scoped.
Variables (this : WebStorage) (w0 : World).
Let I := scoped this w0.

Lemma stable_length : stable I (storage_length this).
Proof. intros w H. exact H. Qed.

Lemma stable_key i : stable I (storage_key this i).
Proof. intros w H. now apply (scoped_noted this w0 w (CallKey i)). Qed.

Lemma stable_getItem k : key_in_scope this k = true -> stable I (storage_getItem this k).
Proof. intros K w H. now apply (scoped_noted this w0 w (CallGetItem k)). Qed.

Lemma stable_removeItem k : key_in_scope this k = true -> stable I (storage_removeItem this k).
Proof. intros K w H. now apply scoped_removed. Qed.

Lemma stable_setItem k text :
  key_in_scope this k = true -> stable I (storage_setItem this k text).
Proof.
  intros K w H. unfold always. rewrite storage_setItem_run.
  destruct (fits this k text w); cbn [snd].
  - now apply scoped_written.
  - now apply (scoped_noted this w0 w (CallSetItem k text)).
Qed.

Lemma stable_emit type data : stable I (emit this type data).
Proof. intros w H. unfold always. rewrite emit_run. now apply scoped_emitted. Qed.

Lemma stable_Date_now : stable I Date_now.
Proof. intros w H. now apply scoped_ticked. Qed.

Lemma stable_isExpired e : stable I (isExpired e).
Proof.
  intros w H. unfold always. rewrite isExpired_run. cbn [snd].
  destruct e; try exact H; now apply scoped_ticked.
Qed.

Lemma stable_calculateExpires d : stable I (calculateExpires d).
Proof.
  destruct d as [d|]; [|apply stable_ret]. unfold calculateExpires.
  apply stable_bind; [apply stable_Date_now|]. intros t. apply stable_ret.
Qed.

(** *** The methods *)

Lemma stable_remove key : stable I (remove this key).
Proof.
  intros w H. unfold always. rewrite remove_run. cbn [snd].
  apply scoped_emitted, scoped_removed; [apply full_key_in_scope|exact H].
Qed.

Lemma stable_set key value o : stable I (set this key value o).
Proof.
  unfold set. apply stable_try_catch; [|intros e; apply stable_ret].
  apply stable_bind; [apply stable_calculateExpires|]. intros e.
  apply stable_bind; [apply stable_Date_now|]. intros t.
  apply stable_bind; [apply stable_of_result|]. intros s.
  apply stable_bind; [apply stable_setItem, full_key_in_scope|]. intros _.
  apply stable_bind; [apply stable_emit|]. intros _. apply stable_ret.
Qed.

Lemma stable_get key o : stable I (get this key o).
Proof.
  unfold get. apply stable_try_catch; [|intros e; apply stable_ret].
  apply stable_bind; [apply stable_getItem, full_key_in_scope|]. intros data.
  destruct (no_data data); [apply stable_ret|].
  destruct (_ || _); [apply stable_ret|].
  apply stable_bind; [apply stable_isExpired|]. intros [|].
  - apply stable_bind; [apply stable_remove|]. intros _.
    apply stable_bind; [apply stable_emit|]. intros _. apply stable_ret.
  - apply stable_bind; [apply stable_emit|]. intros _. apply stable_ret.
Qed.

Lemma stable_has key : stable I (has this key).
Proof.
  unfold has. apply stable_try_catch; [|intros e; apply stable_ret].
  apply stable_bind; [apply stable_getItem, full_key_in_scope|]. intros data.
  destruct (no_data data); [apply stable_ret|].
  destruct (_ || _); [apply stable_ret|].
  apply stable_bind; [apply stable_isExpired|]. intros [|].
  - apply stable_bind; [apply stable_remove|]. intros _. apply stable_ret.
  - apply stable_ret.
Qed.

End Scoped.

(** *** The scanning methods *)

Lemma prefixed_in_scope this key :
  prefixed this key = true -> key_in_scope this (option_or key []) = true.
Proof. destruct key as [[|c k]|]; try discriminate. now intros H. Qed.

Section ScopedLoops.
Variables (this : WebStorage) (w0 : World).
Let I := scoped this w0.

Lemma stable_global {L A} (R : L -> Prop) (m : M World A) :
  stable I m -> stable (scoped_with this w0 R) (global m).
Proof.
  intros H. apply hoare_global. intros l w [Hw Hl]. split; [|exact Hl].
  now apply H.
Qed.

Lemma stable_assign {L} (R : L -> Prop) (f : L -> L) :
  (forall l, R l -> R (f l)) -> stable (scoped_with this w0 R) (assign f).
Proof.
  intros H. apply hoare_assign. intros [w l] [Hw Hl].
  split; [exact Hw|apply H, Hl].
Qed.

Lemma stable_block {L A} (R : L -> Prop) (l : L) (m : M (World * L) A) :
  R l -> stable (scoped_with this w0 R) m -> stable I (block l m).
Proof.
  intros Hl H. apply hoare_block. intros s [Hw E]. apply H. split; [exact Hw|].
  now rewrite E.
Qed.

(** After [local], the value read satisfies [R]. *)
Lemma stable_local_bind {L B} (R : L -> Prop) (k : L -> M (World * L) B) :
  (forall l, R l -> stable (scoped_with this w0 R) (k l)) ->
  stable (scoped_with this w0 R) (bind local k).
Proof.
  intros H. apply hoare_bind with (R := fun r s => scoped_with this w0 R s /\
                                          match r with Ok l => R l | Throw _ => True end).
  - apply hoare_local. intros s Hs. split; [exact Hs|apply Hs].
  - intros l s [Hs Hl]. now apply H.
  - intros e s [Hs _]. exact Hs.
Qed.

Lemma stable_local {L} (R : L -> Prop) : stable (scoped_with this w0 R) local.
Proof. apply hoare_local. now intros s Hs. Qed.

Lemma keys_in_scope_snoc l key :
  all_in_scope this l -> prefixed this key = true -> all_in_scope this (l ++ [option_or key []]).
Proof.
  intros H P. unfold all_in_scope in *. rewrite forallb_app, H. cbn.
  now rewrite (prefixed_in_scope _ _ P).
Qed.

Lemma stable_clear : stable I (clear this).
Proof.
  unfold clear. apply stable_try_catch; [|intros e; apply stable_ret].
  apply (stable_block (all_in_scope this)); [reflexivity|].
  apply stable_bind; [apply stable_global, stable_length|]. intros n.
  apply stable_bind.
  { apply stable_for_each. intros i.
    apply stable_bind; [apply stable_global, stable_key|]. intros key.
    destruct (prefixed this key) eqn:P; [|apply stable_ret].
    apply stable_assign. intros l Hl. now apply keys_in_scope_snoc. }
  intros _. apply stable_local_bind. intros l Hl.
  apply stable_bind.
  { apply stable_for_all. intros key Hk. apply stable_global, stable_removeItem.
    exact (proj1 (forallb_forall _ _) Hl key Hk). }
  intros _. apply stable_bind; [apply stable_global, stable_emit|]. intros _.
  apply stable_ret.
Qed.

Lemma stable_clearExpired : stable I (clearExpired this).
Proof.
  unfold clearExpired.
  apply (stable_block (fun l => all_in_scope this (snd l))); [reflexivity|].
  apply stable_try_catch.
  2:{ intros e. apply stable_local_bind. intros l Hl. apply stable_ret. }
  apply stable_bind; [apply stable_global, stable_length|]. intros n.
  apply stable_bind.
  { apply stable_for_each. intros i.
    apply stable_bind; [apply stable_global, stable_key|]. intros fullKey.
    destruct (prefixed this fullKey) eqn:P; cbn [negb]; [|apply stable_ret].
    apply stable_bind;
      [apply stable_global, stable_getItem, prefixed_in_scope, P|]. intros data.
    destruct (no_data data); [apply stable_ret|].
    destruct (_ && _); [|apply stable_ret].
    apply stable_bind; [apply stable_global, stable_isExpired|]. intros [|].
    - apply stable_assign. intros l Hl. cbn [snd]. now apply keys_in_scope_snoc.
    - apply stable_ret. }
  intros _. apply stable_local_bind. intros l Hl.
  apply stable_bind.
  { apply stable_for_all. intros key Hk.
    apply stable_bind.
    - apply stable_global, stable_removeItem.
      exact (proj1 (forallb_forall _ _) Hl key Hk).
    - intros _. apply stable_assign. now intros l'. }
  intros _. apply stable_local_bind. intros l' Hl'.
  apply stable_bind.
  { destruct (0 <? fst l'); [apply stable_global, stable_emit|apply stable_ret]. }
  intros _. apply stable_ret.
Qed.

Lemma stable_keys_loop fuel : forall i,
  stable (scoped_with this w0 (fun _ : list jsstring => True)) (keys_loop this fuel i).
Proof.
  induction fuel as [|f IH]; intros i; [apply stable_ret|]. cbn [keys_loop].
  apply stable_bind; [apply stable_global, stable_length|]. intros n.
  destruct (i <? n); [|apply stable_ret].
  apply stable_bind; [apply stable_global, stable_key|]. intros fullKey.
  apply stable_bind; [|intros _; apply IH].
  destruct (prefixed this fullKey); [|apply stable_ret].
  apply stable_bind; [apply stable_global, stable_has|]. intros [|].
  - now apply stable_assign.
  - apply stable_ret.
Qed.

Lemma stable_keys : stable I (keys this).
Proof.
  unfold keys. apply (stable_block (fun _ => True)); [exact Logic.I|].
  apply stable_bind.
  - apply stable_try_catch; [|intros e; apply stable_ret].
    apply stable_bind; [apply stable_global, stable_length|]. intros n.
    apply stable_keys_loop.
  - intros _. apply stable_local.
Qed.

Lemma stable_getStats : stable I (getStats this).
Proof.
  unfold getStats. apply (stable_block (fun _ => True)); [exact Logic.I|].
  apply stable_bind.
  - apply stable_try_catch; [|intros e; apply stable_ret].
    apply stable_bind; [apply stable_global, stable_length|]. intros n.
    apply stable_for_each. intros i.
    apply stable_bind; [apply stable_global, stable_key|]. intros fullKey.
    destruct (prefixed this fullKey) eqn:P; cbn [negb]; [|apply stable_ret].
    apply stable_bind;
      [apply stable_global, stable_getItem, prefixed_in_scope, P|]. intros data.
    destruct (no_data data); [apply stable_ret|].
    apply stable_bind; [now apply stable_assign|]. intros _.
    destruct (_ && _); [|now apply stable_assign].
    apply stable_bind; [apply stable_global, stable_isExpired|].
    intros [|]; now apply stable_assign.
  - intros _. apply stable_local.
Qed.

End ScopedLoops.

(** *** Every call of the engine *)

(** Whatever the engine is asked, it reads, writes and removes only keys
    that carry its prefix, and leaves every other entry as it was. *)
Lemma perform_scoped this c w : scoped this w (perform this c w).
Proof.
  destruct c; cbn [perform].
  - apply (stable_set this w key value o w), scoped_refl.
  - apply (stable_get this w key o w), scoped_refl.
  - apply (stable_has this w key w), scoped_refl.
  - apply (stable_remove this w key w), scoped_refl.
  - apply (stable_clear this w w), scoped_refl.
  - apply (stable_clearExpired this w w), scoped_refl.
  - apply (stable_keys this w w), scoped_refl.
  - apply (stable_getStats this w w), scoped_refl.
Qed.

(** ** [clear], exactly *)

Lemma entries_scanned this n : forall from w,
  entries (storage_of this (scanned this n from w)) = entries (storage_of this w).
Proof.
  induction n as [|n IH]; intros from w; [reflexivity|].
  cbn [scanned]. now rewrite IH, entries_noted.
Qed.

Lemma storage_key_run this i w :
  storage_key this i w
  = (Ok (option_map fst (nth_error (entries (storage_of this w)) i)),
     noted this (CallKey i) w).
Proof. reflexivity. Qed.

Lemma clear_turn_run this i w acc :
  clear_turn this i (w, acc)
  = (Ok tt, (noted this (CallKey i) w,
             acc ++ match nth_error (entries (storage_of this w)) i with
                    | Some kv => scan_keys this [kv]
                    | None => []
                    end)).
Proof.
  unfold clear_turn, bind, global. cbn [fst snd]. rewrite storage_key_run.
  destruct (nth_error (entries (storage_of this w)) i) as [[k v]|]; cbn [option_map fst].
  - unfold scan_keys. cbn [filter]. unfold carries_prefix. cbn [fst].
    destruct (prefixed this (Some k)); [reflexivity|]. cbn. now rewrite app_nil_r.
  - cbn. now rewrite app_nil_r.
Qed.

Lemma skipn_nth {A} (l : list A) : forall i x,
  nth_error l i = Some x -> skipn i l = x :: skipn (S i) l.
Proof.
  induction l as [|y l IH]; intros [|i] x N; try discriminate.
  - now injection N as ->.
  - cbn [nth_error] in N. cbn [skipn]. rewrite (IH i x N). reflexivity.
Qed.

Lemma scan_keys_app this a b : scan_keys this (a ++ b) = scan_keys this a ++ scan_keys this b.
Proof. unfold scan_keys. now rewrite filter_app, map_app. Qed.

Lemma clear_scan this n : forall from w acc,
  from + n <= List.length (entries (storage_of this w)) ->
  for_each n from (clear_turn this) (w, acc)
  = (Ok tt, (scanned this n from w,
             acc ++ scan_keys this (firstn n (skipn from (entries (storage_of this w)))))).
Proof.
  induction n as [|n IH]; intros from w acc L.
  - cbn. now rewrite app_nil_r.
  - cbn [for_each]. rewrite (bind_ok _ _ _ _ _ (clear_turn_run this from w acc)).
    rewrite IH by (rewrite entries_noted; lia). rewrite entries_noted. cbn [scanned].
    destruct (nth_error (entries (storage_of this w)) from) as [kv|] eqn:N.
    2:{ apply nth_error_None in N. lia. }
    rewrite (skipn_nth _ _ _ N). cbn [firstn].
    change (kv :: firstn n (skipn (S from) (entries (storage_of this w))))
      with ([kv] ++ firstn n (skipn (S from) (entries (storage_of this w)))).
    now rewrite scan_keys_app, app_assoc.
Qed.

Lemma clear_sweep {L} this l : forall w (x : L),
  for_all l (fun key => global (storage_removeItem this key)) (w, x)
  = (Ok tt, (removed_all this l w, x)).
Proof.
  induction l as [|k l IH]; intros w x; [reflexivity|].
  cbn [for_all]. unfold bind at 1. unfold global at 1. cbn [fst snd].
  rewrite storage_removeItem_run. apply IH.
Qed.

Lemma clear_run this w :
  clear this w
  = (Ok true,
     emitted this EvClear no_payload
       (removed_all this (scan_keys this (entries (storage_of this w)))
          (scanned this (List.length (entries (storage_of this w))) 0 w))).
Proof.
  unfold clear. fold (clear_turn this). unfold try_catch, block.
  unfold bind at 1. unfold global at 1. cbn [fst snd storage_length].
  unfold bind at 1. rewrite clear_scan by lia. cbn [skipn app].
  rewrite firstn_all. unfold bind at 1. cbn [local snd].
  unfold bind at 1. rewrite clear_sweep.
  unfold bind at 1. unfold global at 1. cbn [fst snd]. rewrite emit_run.
  reflexivity.
Qed.

Lemma entries_removed_all this l : forall w,
  entries (storage_of this (removed_all this l w))
  = fold_left (fun e k => erase k e) l (entries (storage_of this w)).
Proof.
  induction l as [|k l IH]; intros w; [reflexivity|].
  cbn [removed_all fold_left]. fold (removed_all this l (removed this k w)).
  now rewrite IH, entries_removed.
Qed.

Lemma erase_all l : forall e,
  fold_left (fun e k => erase k e) l e
  = filter (fun kv => negb (existsb (fun k => str_eqb k (fst kv)) l)) e.
Proof.
  induction l as [|k l IH]; intros e; cbn [fold_left existsb].
  - symmetry. apply filter_all. now apply forallb_forall.
  - rewrite IH. unfold erase. clear IH.
    induction e as [|kv e IHe]; [reflexivity|]. cbn [filter].
    destruct (str_eqb k (fst kv)); cbn [negb orb]; [exact IHe|].
    cbn [filter]. destruct (existsb _ l); cbn [negb]; [exact IHe|now rewrite IHe].
Qed.

Lemma existsb_scan_keys this l kv :
  In kv l ->
  existsb (fun k => str_eqb k (fst kv)) (scan_keys this l) = carries_prefix this kv.
Proof.
  intros H. destruct (carries_prefix this kv) eqn:P.
  - apply existsb_exists. exists (fst kv). split; [|apply str_eqb_refl].
    unfold scan_keys. apply in_map, filter_In. now split.
  - destruct (existsb _ _) eqn:E; [|reflexivity].
    apply existsb_exists in E as (k & Hk & Ek). apply str_eqb_eq in Ek.
    unfold scan_keys in Hk. apply in_map_iff in Hk as (kv' & <- & Hk).
    apply filter_In in Hk as [_ Hk]. unfold carries_prefix in *. congruence.
Qed.

(** [clear] removes the entries that carry the prefix, and only them. *)
Lemma clear_exact this w :
  fst (clear this w) = Ok true
  /\ entries (storage_of this (snd (clear this w)))
     = filter (fun kv => negb (carries_prefix this kv)) (entries (storage_of this w)).
Proof.
  rewrite clear_run. cbn [fst snd]. split; [reflexivity|].
  rewrite storage_of_emitted, entries_removed_all, entries_scanned, erase_all.
  apply filter_ext_in. intros kv H. now rewrite existsb_scan_keys.
Qed.

Lemma lookup_filtered (P : jsstring -> bool) k l :
  P k = true -> lookup k (filter (fun kv => negb (P (fst kv))) l) = None.
Proof.
  intros H. induction l as [|[k' v] l IH]; [reflexivity|]. cbn [filter fst].
  destruct (P k') eqn:E; cbn [negb]; [exact IH|]. cbn [lookup].
  destruct (str_eqb k k') eqn:K; [|exact IH].
  apply str_eqb_eq in K. congruence.
Qed.

Lemma carries_prefix_starts this kv :
  opt_prefix (options this) <> [] ->
  carries_prefix this kv = startsWith (fst kv) (opt_prefix (options this)).
Proof.
  intros H. unfold carries_prefix, prefixed. destruct (fst kv) as [|c k]; [|reflexivity].
  destruct (opt_prefix (options this)); [congruence|reflexivity].
Qed.

(** Two prefixes, neither a prefix of the other, share no key. *)
Lemma disjoint_prefixes p q k :
  startsWith p q = false -> startsWith q p = false -> startsWith (q ++ k) p = false.
Proof.
  revert q. induction p as [|x p IH]; intros [|y q] H1 H2; try discriminate.
  cbn [startsWith app] in *. destruct (x =? y)%N eqn:E; [|reflexivity].
  cbn [andb] in *. rewrite N.eqb_sym in E. rewrite E in H1. cbn [andb] in H1.
  now apply IH.
Qed.

(** The answer of [has] depends on the entry under the key and on the
    clock reading only. *)
Lemma has_answer this key w w' :
  lookup (getFullKey this key) (entries (storage_of this w))
  = lookup (getFullKey this key) (entries (storage_of this w')) ->
  now (clock w) = now (clock w') ->
  fst (has this key w) = fst (has this key w').
Proof.
  intros L C.
  destruct (lookup (getFullKey this key) (entries (storage_of this w))) as [text|] eqn:E.
  2:{ rewrite !has_absent; [reflexivity|now rewrite <- L|now rewrite E]. }
  destruct text as [|c text].
  { rewrite !has_absent; [reflexivity|now rewrite <- L|now rewrite E]. }
  rewrite (has_run _ _ w _ E ltac:(discriminate)).
  rewrite (has_run _ _ w' _ (eq_sym L) ltac:(discriminate)). cbv zeta. rewrite C.
  destruct (has_expires _); [|reflexivity].
  now destruct (expired_at _ _) as [[|]|].
Qed.

(** ** What [keys] reports *)

Lemma lookup_erase_some k k' l : lookup k (erase k' l) <> None -> lookup k l <> None.
Proof.
  destruct (str_eqb k k') eqn:E.
  - apply str_eqb_eq in E. subst. now rewrite lookup_erase_same.
  - apply str_eqb_neq in E. now rewrite lookup_erase_other.
Qed.

Lemma lookup_nth k v l : forall i, nth_error l i = Some (k, v) -> lookup k l <> None.
Proof.
  induction l as [|[k0 v0] l IH]; intros [|i] H; try discriminate; cbn [lookup].
  - injection H as -> ->. now rewrite str_eqb_refl.
  - destruct (str_eqb k k0); [discriminate|]. exact (IH i H).
Qed.

Lemma startsWith_skipn p : forall k,
  startsWith k p = true -> p ++ skipn (List.length p) k = k.
Proof.
  induction p as [|c p IH]; intros k H; [reflexivity|].
  destruct k as [|d k]; [discriminate|]. cbn [startsWith] in H.
  apply andb_true_iff in H as [C H]. apply N.eqb_eq in C. subst.
  cbn [List.length skipn app]. now rewrite IH.
Qed.

Lemma shrunk_refl this w : shrunk this w w.
Proof. now intros k. Qed.

Lemma has_shrinks this w0 key w :
  shrunk this w0 w -> shrunk this w0 (snd (has this key w)).
Proof.
  intros S k.
  destruct (lookup (getFullKey this key) (entries (storage_of this w))) as [text|] eqn:L.
  2:{ rewrite has_absent by (now rewrite L). cbn [snd]. rewrite entries_noted. apply S. }
  destruct text as [|c text].
  { rewrite has_absent by (now rewrite L). cbn [snd]. rewrite entries_noted. apply S. }
  rewrite (has_run _ _ _ _ L ltac:(discriminate)). cbv zeta.
  destruct (has_expires _); [|cbn [snd]; rewrite entries_noted; apply S].
  destruct (expired_at _ _) as [[|]|e]; cbn [snd].
  - rewrite storage_of_emitted, entries_removed. intros H.
    apply lookup_erase_some in H. rewrite entries_ticked, entries_noted in H.
    now apply S.
  - destruct (js_get _ _); rewrite ?entries_ticked, entries_noted; apply S.
  - rewrite entries_ticked, entries_noted. apply S.
Qed.

Lemma hoare_pure {St A} (P : St -> Prop) (F : Prop) (m : M St A) Q :
  (F -> hoare P m Q) -> hoare (fun s => P s /\ F) m Q.
Proof. intros H s [Ps f]. now apply H. Qed.

Lemma keys_loop_listed this w0 fuel : forall i,
  stable (fun s : World * list jsstring => shrunk this w0 (fst s) /\ listed this w0 (snd s))
         (keys_loop this fuel i).
Proof.
  induction fuel as [|f IH]; intros i; [apply stable_ret|]. cbn [keys_loop].
  apply stable_bind. { now intros [w l] H. } intros n.
  destruct (i <? n); [|apply stable_ret].
  apply hoare_bind with
    (R := fun r s => (shrunk this w0 (fst s) /\ listed this w0 (snd s))
                     /\ match r with
                        | Ok fullKey =>
                            prefixed this fullKey = true ->
                            lookup (option_or fullKey []) (entries (storage_of this w0))
                            <> None
                        | Throw _ => True
                        end).
  - intros [w l] [S Li]. rewrite global_run, storage_key_run. cbn [fst snd].
    split; [split; [|exact Li]|].
    + intros k. rewrite entries_noted. apply S.
    + destruct (nth_error (entries (storage_of this w)) i) as [[k v]|] eqn:E;
        [|discriminate]. intros _. cbn [option_map option_or fst].
      apply S. exact (lookup_nth _ _ _ _ E).
  - intros fullKey. destruct (prefixed this fullKey) eqn:P.
    2:{ apply hoare_weaken with
          (P' := fun s : World * list jsstring =>
                   shrunk this w0 (fst s) /\ listed this w0 (snd s))
          (Q' := always (fun s : World * list jsstring =>
                   shrunk this w0 (fst s) /\ listed this w0 (snd s)));
          [|now intros s [H _]|now intros r s H].
        apply stable_bind; [apply stable_ret|]. intros _. apply IH. }
    apply hoare_pure. intros F. specialize (F eq_refl).
    apply stable_bind; [|intros _; apply IH].
    apply stable_bind.
    + intros [w l] [S Li]. unfold always. rewrite global_run. cbn [fst snd].
      split; [now apply has_shrinks|exact Li].
    + intros [|]; [|apply stable_ret]. apply hoare_assign.
      intros [w l] [S Li]. split; [exact S|]. cbn [fst snd]. intros k K.
      apply in_app_or in K as [K|[<-|[]]]; [now apply Li|].
      unfold getFullKey. rewrite startsWith_skipn; [exact F|].
      now apply prefixed_in_scope.
  - now intros e s [H _].
Qed.

(** [keys] lists logical keys only: each one, put back under the prefix,
    names an entry the namespace held when [keys] was called. *)
Lemma keys_listed this w :
  exists ks, fst (keys this w) = Ok ks /\ listed this w ks.
Proof.
  assert (H : hoare (fun w' => w' = w) (keys this)
                (fun r _ => exists ks, r = Ok ks /\ listed this w ks)).
  { unfold keys. apply hoare_block.
    apply hoare_bind with
      (R := fun r (s : World * list jsstring) =>
              (shrunk this w (fst s) /\ listed this w (snd s))
              /\ exists u : unit, r = Ok u).
    - apply hoare_try_catch with
        (R := always (fun s : World * list jsstring =>
                        shrunk this w (fst s) /\ listed this w (snd s))).
      + apply hoare_weaken with
          (P' := fun s : World * list jsstring =>
                   shrunk this w (fst s) /\ listed this w (snd s))
          (Q' := always (fun s : World * list jsstring =>
                   shrunk this w (fst s) /\ listed this w (snd s))).
        * apply stable_bind; [now intros [w' l] H|]. intros n. apply keys_loop_listed.
        * intros [w' l] [E1 E2]. cbn [fst snd] in *. subst.
          split; [apply shrunk_refl|now intros k].
        * now intros r s H.
      + intros a s H. split; [exact H|now exists a].
      + intros e. apply hoare_ret. intros s H. split; [exact H|now exists tt].
    - intros u. apply hoare_local. intros s [[_ Li] _]. now exists (snd s).
    - intros e s [_ [u U]]. discriminate. }
  exact (H w eq_refl).
Qed.

(** ** Two engines over one namespace *)

(** C7.  For two engines over the same namespace whose prefixes are not
    prefixes of one another, [A.clear()] succeeds and removes exactly the
    entries whose key starts with A's prefix: no entry of A is left, the
    entry of B under any key is untouched and [B.has] answers as before.
    Whatever A is asked (set, get, has, remove, clear, clearExpired,
    keys, getStats), every [getItem], [setItem] and [removeItem] it makes
    carries its prefix and no other entry changes (to find its own keys
    it asks the namespace for the name at an index, [storage.key(i)], and
    drops the names without the prefix); and [A.keys()] lists only keys
    that, under A's prefix, name an entry of the namespace. *)
Theorem clear_is_prefix_scoped A B k1 k2 w :
  opt_type (options A) = opt_type (options B) ->
  startsWith (opt_prefix (options A)) (opt_prefix (options B)) = false ->
  startsWith (opt_prefix (options B)) (opt_prefix (options A)) = false ->
  let w' := snd (clear A w) in
  fst (clear A w) = Ok true
  /\ entries (storage_of A w')
     = filter (fun kv => negb (startsWith (fst kv) (opt_prefix (options A))))
              (entries (storage_of A w))
  /\ lookup (getFullKey A k1) (entries (storage_of A w')) = None
  /\ lookup (getFullKey B k2) (entries (storage_of B w'))
     = lookup (getFullKey B k2) (entries (storage_of B w))
  /\ (forall c, fst (has B k2 (at_clock c w')) = fst (has B k2 (at_clock c w)))
  /\ (forall call w0, scoped A w0 (perform A call w0))
  /\ (forall w0, exists ks, fst (keys A w0) = Ok ks /\ listed A w0 ks).
Proof.
  intros T PA PB. cbv zeta.
  assert (NE : opt_prefix (options A) <> []).
  { intros E. rewrite E in PB. now destruct (opt_prefix (options B)). }
  destruct (clear_exact A w) as [R E].
  assert (E' : entries (storage_of A (snd (clear A w)))
     = filter (fun kv => negb (startsWith (fst kv) (opt_prefix (options A))))
              (entries (storage_of A w))).
  { rewrite E. apply filter_ext. intros kv. now rewrite carries_prefix_starts. }
  assert (SB : forall x, storage_of B x = storage_of A x).
  { intros x. unfold storage_of. now rewrite T. }
  assert (LB : lookup (getFullKey B k2) (entries (storage_of B (snd (clear A w))))
               = lookup (getFullKey B k2) (entries (storage_of B w))).
  { rewrite !SB. apply (perform_scoped A DoClear w).
    apply (disjoint_prefixes _ _ _ PA PB). }
  split; [exact R|]. split; [exact E'|]. split; [|split; [exact LB|split; [|split]]].
  - rewrite E'.
    apply (lookup_filtered (fun k => startsWith k (opt_prefix (options A)))).
    apply startsWith_app.
  - intros c. apply has_answer; [|reflexivity].
    now rewrite !storage_of_at_clock.
  - intros call w0. apply perform_scoped.
  - intros w0. apply keys_listed.
Qed.

Lemma clear_is_prefix_scoped_witness :
  let A := engine_with_prefix "a-" in
  let B := engine_with_prefix "b-" in
  let w := two_tenants in
  let w' := snd (clear A w) in
  fst (clear A w) = Ok true
  /\ entries (storage_of A w')
     = filter (fun kv => negb (startsWith (fst kv) (opt_prefix (options A))))
              (entries (storage_of A w))
  /\ lookup (getFullKey A (lit "k1")) (entries (storage_of A w')) = None
  /\ lookup (getFullKey B (lit "k2")) (entries (storage_of B w'))
     = lookup (getFullKey B (lit "k2")) (entries (storage_of B w))
  /\ (forall c, fst (has B (lit "k2") (at_clock c w'))
                = fst (has B (lit "k2") (at_clock c w)))
  /\ (forall call w0, scoped A w0 (perform A call w0))
  /\ (forall w0, exists ks, fst (keys A w0) = Ok ks /\ listed A w0 ks).
Proof.
  apply (clear_is_prefix_scoped (engine_with_prefix "a-") (engine_with_prefix "b-")
           (lit "k1") (lit "k2") two_tenants); reflexivity.
Defined.

(** In that scenario [B.has("k2")] is true before and after [A.clear()],
    and A's entry is gone. *)
Lemma two_tenants_scenario :
  fst (has (engine_with_prefix "b-") (lit "k2") two_tenants) = Ok true
  /\ fst (has (engine_with_prefix "b-") (lit "k2")
            (snd (clear (engine_with_prefix "a-") two_tenants))) = Ok true
  /\ fst (has (engine_with_prefix "a-") (lit "k1")
            (snd (clear (engine_with_prefix "a-") two_tenants))) = Ok false
  /\ map fst (entries (localStorage (snd (clear (engine_with_prefix "a-") two_tenants))))
     = [lit "b-k2"]
  /\ fst (keys (engine_with_prefix "a-") two_tenants) = Ok [lit "k1"]
  /\ fst (keys (engine_with_prefix "b-") two_tenants) = Ok [lit "k2"].
Proof. repeat split; vm_compute; reflexivity. Qed.

(** ** Entries that do not decode *)

Section Unchanged.
Variables (this : WebStorage) (l0 : list (jsstring * jsstring)).
Context {L : Type} (R : L -> Prop).

Lemma holds_key i : stable (holds this l0 R) (global (storage_key this i)).
Proof.
  intros [w l] [E Hl]. unfold always, holds. rewrite global_run, storage_key_run.
  cbn [fst snd] in *. split; [|exact Hl]. now rewrite entries_noted.
Qed.

Lemma holds_key_ok i :
  hoare (holds this l0 R) (global (storage_key this i))
        (fun r s => holds this l0 R s /\ exists k, r = Ok k).
Proof.
  intros [w l] [E Hl]. unfold holds. rewrite global_run, storage_key_run.
  cbn [fst snd] in *. split; [|eauto]. split; [|exact Hl]. now rewrite entries_noted.
Qed.

Lemma holds_getItem k :
  hoare (holds this l0 R) (global (storage_getItem this k))
        (fun r s => holds this l0 R s /\ r = Ok (lookup k l0)).
Proof.
  intros [w l] [E Hl]. rewrite global_run, storage_getItem_run.
  unfold holds. cbn [fst snd] in *.
  split; [split; [now rewrite entries_noted|exact Hl]|now rewrite E].
Qed.

Lemma holds_isExpired e : stable (holds this l0 R) (global (isExpired e)).
Proof.
  intros [w l] [E Hl]. unfold always, holds. rewrite global_run, isExpired_run.
  cbn [fst snd] in *. split; [|exact Hl]. destruct e; try exact E;
    now rewrite entries_ticked.
Qed.

Lemma holds_assign (f : L -> L) :
  (forall l, R l -> R (f l)) -> stable (holds this l0 R) (assign f).
Proof.
  intros H. apply hoare_assign. intros [w l] [E Hl]. split; [exact E|apply H, Hl].
Qed.

End Unchanged.

Lemma sweepable_snoc this l0 (l : nat * list jsstring) k d :
  Forall (sweepable this l0) (snd l) ->
  lookup k l0 = Some d -> has_expires (decode this (Some d)) = true ->
  Forall (sweepable this l0) (snd (fst l, snd l ++ [k])).
Proof.
  intros H Lk Hk. cbn [snd]. apply Forall_app. split; [exact H|].
  constructor; [now exists d|constructor].
Qed.

Lemma holds_sweep_turn this l0 i :
  stable (holds this l0 (fun l => Forall (sweepable this l0) (snd l)))
         (sweep_turn this i).
Proof.
  unfold sweep_turn. apply stable_bind; [apply holds_key|]. intros fullKey.
  destruct (negb (prefixed this fullKey)); [apply stable_ret|].
  apply hoare_bind with
    (R := fun r s => holds this l0 (fun l => Forall (sweepable this l0) (snd l)) s
                     /\ r = Ok (lookup (option_or fullKey []) l0)).
  - apply holds_getItem.
  - intros data. destruct (no_data data) eqn:N.
    { apply hoare_ret. now intros s [H _]. }
    cbv zeta. fold (has_expires (decode this data)).
    destruct (has_expires (decode this data)) eqn:X.
    2:{ apply hoare_ret. now intros s [H _]. }
    intros s [H D]. injection D as D.
    revert s H. apply stable_bind; [apply holds_isExpired|]. intros [|].
    + apply holds_assign. intros l Hl.
      destruct data as [d|]; [|discriminate].
      now apply (sweepable_snoc this l0 l _ d).
    + apply stable_ret.
  - now intros e s [H _].
Qed.

Lemma entries_removed_other this k k0 w text0 :
  k <> k0 ->
  lookup k0 (entries (storage_of this w)) = Some text0 ->
  lookup k0 (entries (storage_of this (removed this k w))) = Some text0.
Proof.
  intros N H. rewrite entries_removed, lookup_erase_other; [exact H|congruence].
Qed.

(** [clearExpired] leaves alone every entry that does not decode to an
    object with an [expires] field. *)
Lemma clearExpired_keeps this w k0 text0 :
  lookup k0 (entries (storage_of this w)) = Some text0 ->
  has_expires (decode this (Some text0)) = false ->
  lookup k0 (entries (storage_of this (snd (clearExpired this w)))) = Some text0.
Proof.
  intros L0 X0. set (l0 := entries (storage_of this w)) in *.
  set (K := fun s : World * (nat * list jsstring) =>
              lookup k0 (entries (storage_of this (fst s))) = Some text0).
  assert (T : hoare (fun w' => entries (storage_of this w') = l0) (clearExpired this)
                (fun _ w' => lookup k0 (entries (storage_of this w')) = Some text0)).
  2:{ now apply (T w). }
  unfold clearExpired. fold (sweep_turn this). apply hoare_block.
  apply hoare_try_catch with (R := always K).
  - apply hoare_bind with
      (R := always (holds this l0 (fun l => Forall (sweepable this l0) (snd l)))).
    + apply hoare_global. intros l w' [E El]. cbn [fst snd] in *. subst l.
      split; [exact E|constructor].
    + intros n.
      apply hoare_bind with
        (R := always (holds this l0 (fun l => Forall (sweepable this l0) (snd l)))).
      * apply stable_for_each. intros i. apply holds_sweep_turn.
      * intros ?.
        apply hoare_bind with
          (R := fun r s => K s /\ match r with
                                 | Ok l => Forall (sweepable this l0) (snd l)
                                 | Throw _ => True
                                 end).
        -- apply hoare_local. intros s [E F]. split; [|exact F].
           unfold K. now rewrite E.
        -- intros l.
           apply hoare_bind with (R := always K).
           ++ intros s [Ks F]. revert s Ks.
              apply stable_for_all. intros key Hk.
              apply stable_bind.
              ** apply hoare_global. intros l' w' Kw. unfold always, K in *.
                 rewrite storage_removeItem_run. cbn [fst snd] in *.
                 apply entries_removed_other; [|exact Kw]. intros ->.
                 destruct (proj1 (Forall_forall _ _) F _ Hk) as (d & Ld & Xd).
                 rewrite L0 in Ld. injection Ld as <-. congruence.
              ** intros ?. apply hoare_assign. now intros s Ks.
           ++ intros ?. apply stable_bind; [|intros l'; apply stable_bind].
              ** apply hoare_local. now intros s Ks.
              ** destruct (0 <? fst l'); [|apply stable_ret].
                 apply hoare_global. intros l2 w' Kw. unfold always, K in *.
                 rewrite emit_run. cbn [fst snd] in *.
                 now rewrite storage_of_emitted.
              ** intros ?. apply stable_ret.
           ++ now intros e s Ks.
        -- now intros e s [Ks _].
      * intros e s [E _]. unfold always, K. now rewrite E.
    + intros e s [E _]. unfold always, K. now rewrite E.
  - now intros a s Ks.
  - intros e. apply stable_bind; [|intros l; apply stable_ret].
    apply hoare_local. now intros s Ks.
Qed.

(** *** [getStats] *)

Lemma holds_isExpired_result {L} this l0 (R : L -> Prop) e :
  hoare (holds this l0 R) (global (isExpired e))
        (fun r s => holds this l0 R s /\ exists t, r = expired_at t e).
Proof.
  intros [w l] [E Hl]. rewrite global_run, isExpired_run. unfold holds.
  cbn [fst snd] in *. split; [|eauto]. split; [|exact Hl].
  destruct e; try exact E; now rewrite entries_ticked.
Qed.

Section Stats.
Variables (this : WebStorage) (l0 : list (jsstring * jsstring)).
Variables (RI RM RE : StorageStats -> Prop).
Hypothesis counted : forall k d s, RI s -> RM (count_entry k d s).
Hypothesis classified_valid : forall s, RM s -> RI (count_valid s).
Hypothesis classified_expired :
  forall k d, lookup k l0 = Some d -> has_expires (decode this (Some d)) = true ->
  forall s, RM s -> RI (count_expired s).
Hypothesis interrupted :
  forall k d t e, lookup k l0 = Some d ->
    has_expires (decode this (Some d)) = true ->
    expired_at t (js_get (decode this (Some d)) (lit "expires")) = Throw e ->
    forall s, RM s -> RE s.

Lemma hoare_stats_turn i :
  hoare (holds this l0 RI) (stats_turn this i)
        (loop_post (holds this l0 RI) (holds this l0 RE)).
Proof.
  unfold stats_turn.
  apply hoare_bind with (R := fun r s => holds this l0 RI s /\ exists k, r = Ok k);
    [apply holds_key_ok| |intros e s [_ [k X]]; discriminate].
  intros fullKey.
  apply hoare_weaken with (P' := holds this l0 RI)
    (Q' := loop_post (holds this l0 RI) (holds this l0 RE));
    [|now intros s [H _]|auto].
  destruct (negb (prefixed this fullKey)).
  { apply hoare_ret. now intros s H. }
  apply hoare_bind with
    (R := fun r s => holds this l0 RI s /\ r = Ok (lookup (option_or fullKey []) l0));
    [apply holds_getItem| |intros e s [_ X]; discriminate].
  intros data. destruct (no_data data) eqn:N.
  { apply hoare_ret. now intros s [H _]. }
  destruct data as [d|]; [|discriminate].
  apply hoare_bind with
    (R := fun r s => holds this l0 RM s /\ lookup (option_or fullKey []) l0 = Some d
                     /\ r = Ok tt);
    [| |intros e s (_ & _ & X); discriminate].
  { apply hoare_assign. intros [w st] [[E H] D]. injection D as D.
    cbn [fst snd] in *. repeat split; [exact E|now apply counted|now rewrite D]. }
  intros u. cbv zeta. fold (has_expires (decode this (Some d))).
  destruct (has_expires (decode this (Some d))) eqn:X.
  2:{ apply hoare_assign. intros [w st] [[E H] _]. split; [exact E|].
      now apply classified_valid. }
  intros s (H & D & _). revert s H.
  apply hoare_bind with
    (R := fun r s => holds this l0 RM s /\
                     exists t, r = expired_at t (js_get (decode this (Some d)) (lit "expires")));
    [apply holds_isExpired_result| |].
  - intros [|]; apply hoare_assign; intros [w st] [[E H] _]; (split; [exact E|]).
    + now apply (classified_expired _ _ D X).
    + now apply classified_valid.
  - intros e [w st] [[E H] (t & T)]. split; [exact E|].
    now apply (interrupted _ _ t e D X (eq_sym T)).
Qed.

Lemma hoare_getStats :
  RI {| total := 0; expired := 0; valid := 0; usedBytes := 0 |} ->
  hoare (fun w => entries (storage_of this w) = l0) (getStats this)
        (fun r _ => exists s, r = Ok s /\ (RI s \/ RE s)).
Proof.
  intros Init. unfold getStats. fold (stats_turn this). apply hoare_block.
  apply hoare_bind with
    (R := fun r s => match r with
                     | Ok _ => RI (snd s) \/ RE (snd s)
                     | Throw _ => False
                     end).
  - apply hoare_try_catch with
      (R := loop_post (holds this l0 RI) (holds this l0 RE)).
    + apply hoare_bind with
        (R := fun r s => holds this l0 RI s /\ exists n : nat, r = Ok n).
      * apply hoare_global. intros l w [E El]. cbn [fst snd] in *. subst l.
        split; [now split|]. cbn. eauto.
      * intros n. apply hoare_weaken with (P' := holds this l0 RI)
          (Q' := loop_post (holds this l0 RI) (holds this l0 RE));
          [|now intros s [H _]|auto].
        apply hoare_for_each. apply hoare_stats_turn.
      * intros e s [_ [n X]]. discriminate.
    + intros u s [_ H]. now left.
    + intros e. apply hoare_ret. intros s [_ H]. now right.
  - intros u. apply hoare_local. intros s H. eauto.
  - now intros e s H.
Qed.

End Stats.

(** [getStats] never raises, and counts every entry it meets either as
    expired or as valid, except the one entry, if any, at which the scan
    was interrupted. *)
Lemma getStats_counts this w :
  exists s, fst (getStats this w) = Ok s
            /\ (total s = expired s + valid s \/ total s = S (expired s + valid s)).
Proof.
  apply (hoare_getStats this (entries (storage_of this w))
           (fun s => total s = expired s + valid s)
           (fun s => total s = S (expired s + valid s))
           (fun s => total s = S (expired s + valid s))); try reflexivity.
  - intros k d s H. cbn. now rewrite H.
  - intros s H. cbn in *. lia.
  - intros k d _ _ s H. cbn in *. lia.
  - now intros k d t e _ _ _ s H.
Qed.

(** The invariant [total = expired + valid] holds whenever no stored
    [expires] field makes the comparison with the clock raise. *)
Lemma getStats_balanced this w :
  (forall k d t e, lookup k (entries (storage_of this w)) = Some d ->
     has_expires (decode this (Some d)) = true ->
     expired_at t (js_get (decode this (Some d)) (lit "expires")) <> Throw e) ->
  exists s, fst (getStats this w) = Ok s /\ total s = expired s + valid s.
Proof.
  intros H.
  destruct (hoare_getStats this (entries (storage_of this w))
              (fun s => total s = expired s + valid s)
              (fun s => total s = S (expired s + valid s))
              (fun _ => False)) with (s := w) as (s & E & [S|[]]); try reflexivity.
  - intros k d s X. cbn. now rewrite X.
  - intros s X. cbn in *. lia.
  - intros k d _ _ s X. cbn in *. lia.
  - intros k d t e L X T s _. exact (H k d t e L X T).
  - eauto.
Qed.

(** Where no entry decodes to an object with an [expires] field, every
    counted entry is valid. *)
Lemma getStats_all_valid this w :
  (forall k d, lookup k (entries (storage_of this w)) = Some d ->
     has_expires (decode this (Some d)) = false) ->
  exists s, fst (getStats this w) = Ok s /\ expired s = 0 /\ valid s = total s.
Proof.
  intros H.
  assert (H1 : forall (k d : jsstring) s,
            expired s = 0 /\ valid s = total s ->
            expired (count_entry k d s) = 0
            /\ total (count_entry k d s) = S (valid (count_entry k d s))).
  { intros k d s [X Y]. cbn. now rewrite X, Y. }
  assert (H2 : forall s, expired s = 0 /\ total s = S (valid s) ->
            expired (count_valid s) = 0 /\ valid (count_valid s) = total (count_valid s)).
  { intros s [X Y]. cbn in *. now rewrite X, Y. }
  assert (H3 : forall k d, lookup k (entries (storage_of this w)) = Some d ->
            has_expires (decode this (Some d)) = true ->
            forall s, expired s = 0 /\ total s = S (valid s) ->
            expired (count_expired s) = 0
            /\ valid (count_expired s) = total (count_expired s)).
  { intros k d L X. rewrite (H _ _ L) in X. discriminate. }
  assert (H4 : forall k d (t : Z) (e : exn),
            lookup k (entries (storage_of this w)) = Some d ->
            has_expires (decode this (Some d)) = true ->
            expired_at t (js_get (decode this (Some d)) (lit "expires")) = Throw e ->
            forall s, expired s = 0 /\ total s = S (valid s) -> False).
  { intros k d t e L X. rewrite (H _ _ L) in X. discriminate. }
  destruct (hoare_getStats this (entries (storage_of this w)) _ _ (fun _ => False)
              H1 H2 H3 H4 (conj eq_refl eq_refl) w eq_refl) as (s & E & [S|[]]).
  eauto.
Qed.

(** *** Nothing is raised to the caller *)

Lemma get_total this key o w : exists v, fst (get this key o w) = Ok v.
Proof.
  unfold get, try_catch. destruct (bind _ _ w) as [[v|e] w']; cbn; eauto.
Qed.

Lemma has_total this key w : exists b, fst (has this key w) = Ok b.
Proof.
  unfold has, try_catch. destruct (bind _ _ w) as [[v|e] w']; cbn; eauto.
Qed.

Lemma clearExpired_total this w : exists n, fst (clearExpired this w) = Ok n.
Proof.
  unfold clearExpired, block, try_catch.
  destruct (bind _ _ (w, (0, []))) as [[v|e] s']; cbn; eauto.
Qed.

Lemma getStats_total this w : exists s, fst (getStats this w) = Ok s.
Proof. destruct (getStats_counts this w) as (s & E & _). eauto. Qed.

(** [get] and [has] on an entry their guard rejects. *)
Lemma get_rejects this key o w text :
  lookup (getFullKey this key) (entries (storage_of this w)) = Some text ->
  has_value (decode this (Some text)) = false ->
  get this key o w = (Ok (or_null o), noted this (CallGetItem (getFullKey this key)) w).
Proof.
  intros L V. destruct text as [|c text].
  - apply get_absent. now rewrite L.
  - rewrite (get_run _ _ _ _ _ L ltac:(discriminate)). cbv zeta. now rewrite V.
Qed.

Lemma has_rejects this key w text :
  lookup (getFullKey this key) (entries (storage_of this w)) = Some text ->
  has_expires (decode this (Some text)) = false ->
  has this key w = (Ok false, noted this (CallGetItem (getFullKey this key)) w).
Proof.
  intros L V. destruct text as [|c text].
  - apply has_absent. now rewrite L.
  - rewrite (has_run _ _ _ _ L ltac:(discriminate)). cbv zeta. now rewrite V.
Qed.

(** *** [getStats], entry by entry *)

(** What the guard of a scan lets through. *)
Lemma scan_guard this l0 k :
  match scan_text this l0 k with
  | [] => prefixed this (Some k) = false \/ no_data (lookup k l0) = true
  | d => prefixed this (Some k) = true /\ lookup k l0 = Some d
  end.
Proof.
  unfold scan_text. destruct (prefixed this (Some k)); [|now left].
  destruct (lookup k l0) as [[|c d]|]; cbn [option_or]; auto.
Qed.

Lemma decode_empty this : has_expires (decode this (Some [])) = false.
Proof.
  unfold decode, deserialize. cbn [option_or].
  now destruct (opt_encrypt (options this)).
Qed.

Lemma filter_partition_length {A} (P Q R : A -> bool) l :
  (forall x, In x l -> P x = Q x || R x) ->
  (forall x, In x l -> Q x && R x = false) ->
  List.length (filter P l) = List.length (filter Q l) + List.length (filter R l).
Proof.
  induction l as [|x l IH]; intros H1 H2; [reflexivity|]. cbn [filter].
  assert (IH' : List.length (filter P l)
                = List.length (filter Q l) + List.length (filter R l)).
  { apply IH; intros y I; [apply H1|apply H2]; now right. }
  specialize (H1 x (or_introl eq_refl)). specialize (H2 x (or_introl eq_refl)).
  destruct (P x), (Q x), (R x); try discriminate; cbn [List.length]; lia.
Qed.

(** Whether a comparison with the clock raises does not depend on the
    reading. *)
Lemma raises_at_any this t t' d : raises_at this t d = raises_at this t' d.
Proof.
  unfold raises_at. destruct (expiry_in this d) as [e|]; [|reflexivity].
  unfold expired_at. destruct e; try reflexivity; unfold js_gt;
    now destruct (to_number _).
Qed.

(** One turn of [getStats], whatever the clock does: the entry is passed
    over, counted and classified, or counted when the comparison raises. *)
Lemma stats_turn_any this i w s kv :
  nth_error (entries (storage_of this w)) i = Some kv ->
  let l0 := entries (storage_of this w) in
  let d := scan_text this l0 (fst kv) in
  exists r w' s',
    stats_turn this i (w, s) = (r, (w', s'))
    /\ entries (storage_of this w') = l0
    /\ delivered w' = delivered w
    /\ match r with
       | Ok _ =>
           raises_at this 0 d = false
           /\ (if counted this l0 kv
               then s' = count_valid (count_entry (fst kv) d s)
                    \/ (dated this l0 kv = true
                        /\ s' = count_expired (count_entry (fst kv) d s))
               else s' = s)
       | Throw _ =>
           raises_at this 0 d = true /\ counted this l0 kv = true
           /\ dated this l0 kv = true
           /\ s' = count_entry (fst kv) d s
       end.
Proof.
  intros N. cbv zeta.
  unfold stats_turn. unfold bind at 1. rewrite global_run, storage_key_run.
  cbn [fst snd]. rewrite N. cbn [option_map].
  pose proof (scan_guard this (entries (storage_of this w)) (fst kv)) as G.
  unfold dated, counted, raises_at, expiry_in.
  destruct (scan_text this (entries (storage_of this w)) (fst kv)) as [|c d] eqn:X.
  - rewrite decode_empty. destruct G as [G|G].
    + rewrite G. cbn [negb]. do 3 eexists. split; [reflexivity|].
      rewrite entries_noted, delivered_noted. auto.
    + destruct (prefixed this (Some (fst kv))); cbn [negb].
      * unfold bind at 1. rewrite global_run, storage_getItem_run. cbn [fst snd option_or].
        rewrite entries_noted, G. do 3 eexists. split; [reflexivity|].
        rewrite !entries_noted, !delivered_noted. auto.
      * do 3 eexists. split; [reflexivity|].
        rewrite entries_noted, delivered_noted. auto.
  - destruct G as [P L]. rewrite P. cbn [negb].
    unfold bind at 1. rewrite global_run, storage_getItem_run. cbn [fst snd option_or].
    rewrite entries_noted, L. cbn [no_data].
    unfold bind at 1. unfold assign at 1. cbn [fst snd option_or]. cbv zeta.
    change (@Some (list BinNums.N) (c :: d)) with (@Some jsstring (c :: d)).
    fold (has_expires (decode this (@Some jsstring (c :: d)))).
    destruct (has_expires (decode this (@Some jsstring (c :: d)))).
    2:{ cbv iota. do 3 eexists. split; [reflexivity|]. cbn [fst snd andb].
        rewrite !entries_noted, !delivered_noted. auto. }
    unfold bind at 1. rewrite global_run, isExpired_run. cbn [fst snd andb].
    set (e := js_get (decode this (@Some jsstring (c :: d))) (lit "expires")).
    set (w2 := noted this (CallGetItem (fst kv)) (noted this (CallKey i) w)).
    assert (E2 : entries (storage_of this (match e with JNull => w2 | _ => ticked w2 end))
                 = entries (storage_of this w)).
    { destruct e; rewrite ?entries_ticked; unfold w2; now rewrite !entries_noted. }
    assert (D2 : delivered (match e with JNull => w2 | _ => ticked w2 end) = delivered w).
    { destruct e; rewrite ?delivered_ticked; unfold w2; now rewrite !delivered_noted. }
    assert (R : forall t, match expired_at t e with Throw _ => true | _ => false end
                          = match expired_at 0 e with Throw _ => true | _ => false end).
    { intros t. unfold expired_at. destruct e; try reflexivity; unfold js_gt;
        now destruct (to_number _). }
    specialize (R (now (clock w2))).
    destruct (expired_at (now (clock w2)) e) as [[|]|x]; cbv iota;
      do 3 eexists; (split; [reflexivity|]); cbn [fst snd];
      (split; [exact E2|]); (split; [exact D2|]);
      cbv iota; rewrite <- R; auto.
Qed.

Lemma dated_counted this l0 kv : dated this l0 kv = true -> counted this l0 kv = true.
Proof. unfold dated. now intros H%andb_true_iff. Qed.

(** The scan of [getStats] over the entries [rest] found from the index
    [from] on, whatever the clock does: what it adds to the counts is
    bounded by what [rest] holds, and is exactly that when no comparison
    raises. *)
Lemma stats_scan_any this l0 : forall rest from w s,
  entries (storage_of this w) = l0 ->
  (forall j, j < List.length rest -> nth_error l0 (from + j) = nth_error rest j) ->
  exists r w' s',
    for_each (List.length rest) from (stats_turn this) (w, s) = (r, (w', s'))
    /\ entries (storage_of this w') = l0
    /\ delivered w' = delivered w
    /\ total s' <= total s + List.length (filter (counted this l0) rest)
    /\ expired s' <= expired s + List.length (filter (dated this l0) rest)
    /\ usedBytes s'
       <= usedBytes s + list_sum (map (weight this l0) (filter (counted this l0) rest))
    /\ ((forall kv, In kv rest -> raises_at this 0 (scan_text this l0 (fst kv)) = false) ->
        r = Ok tt
        /\ total s' = total s + List.length (filter (counted this l0) rest)
        /\ expired s' + valid s'
           = expired s + valid s + List.length (filter (counted this l0) rest)
        /\ usedBytes s'
           = usedBytes s
             + list_sum (map (weight this l0) (filter (counted this l0) rest))).
Proof.
  induction rest as [|kv rest IH]; intros from w s E Nth.
  - exists (Ok tt), w, s. cbn. repeat split; first [assumption | lia].
  - assert (N0 : nth_error (entries (storage_of this w)) from = Some kv).
    { rewrite E. specialize (Nth 0 ltac:(cbn; lia)). now rewrite Nat.add_0_r in Nth. }
    destruct (stats_turn_any this from w s kv N0) as (r1 & w1 & s1 & T & E1 & D1 & H1).
    cbv zeta in H1. rewrite E in E1, H1.
    cbn [List.length for_each]. unfold bind at 1. rewrite T.
    cbn [filter].
    assert (W : weight this l0 kv
                = List.length (fst kv) + List.length (scan_text this l0 (fst kv)))
      by reflexivity.
    destruct r1 as [u|x].
    + destruct H1 as [R1 H1].
      destruct (IH (S from) w1 s1 E1) as (r & w' & s' & T2 & E2 & D2 & A & B & C & F).
      { intros j Hj. specialize (Nth (S j) ltac:(cbn; lia)).
        now rewrite Nat.add_succ_r in Nth. }
      exists r, w', s'. split; [exact T2|]. split; [exact E2|].
      split; [now rewrite D2|].
      destruct (counted this l0 kv) eqn:Ck.
      * cbn [List.length map]. change (list_sum (?a :: ?l)) with (a + list_sum l).
        rewrite W.
        destruct H1 as [->|[Dk ->]];
          [destruct (dated this l0 kv)|rewrite Dk];
          cbn [List.length total expired valid usedBytes
               count_entry count_valid count_expired] in *;
          (split; [lia|]); (split; [lia|]); (split; [lia|]);
          intros Rs; (destruct F as (-> & F1 & F2 & F3);
                      [intros kv' I; apply Rs; now right|]);
          repeat split; lia.
      * subst s1.
        assert (Dk : dated this l0 kv = false).
        { destruct (dated this l0 kv) eqn:Dk; [|reflexivity].
          apply dated_counted in Dk. congruence. }
        rewrite Dk. split; [lia|]. split; [lia|]. split; [lia|].
        intros Rs. apply F. intros kv' I. apply Rs. now right.
    + destruct H1 as (R1 & Ck & Dk & ->).
      exists (Throw x), w1, (count_entry (fst kv) (scan_text this l0 (fst kv)) s).
      split; [reflexivity|]. split; [exact E1|]. split; [exact D1|].
      rewrite Ck, Dk. cbn [List.length map total expired valid usedBytes count_entry].
      change (list_sum (?a :: ?l)) with (a + list_sum l). rewrite W.
      split; [lia|]. split; [lia|]. split; [lia|].
      intros Rs. specialize (Rs kv (or_introl eq_refl)). congruence.
Qed.

(** [getStats] on any namespace and under any clock. *)
Lemma getStats_bounds this w :
  let l0 := entries (storage_of this w) in
  exists s,
    fst (getStats this w) = Ok s
    /\ entries (storage_of this (snd (getStats this w))) = l0
    /\ delivered (snd (getStats this w)) = delivered w
    /\ total s <= List.length (filter (counted this l0) l0)
    /\ expired s <= List.length (filter (dated this l0) l0)
    /\ usedBytes s <= list_sum (map (weight this l0) (filter (counted this l0) l0))
    /\ (comparable this (now (clock w)) l0 ->
        total s = List.length (filter (counted this l0) l0)
        /\ total s = expired s + valid s
        /\ usedBytes s = list_sum (map (weight this l0) (filter (counted this l0) l0))).
Proof.
  cbv zeta.
  destruct (stats_scan_any this (entries (storage_of this w)) (entries (storage_of this w))
              0 w no_stats eq_refl (fun j _ => eq_refl))
    as (r & w' & s' & T & E & D & A & B & C & F).
  assert (R : getStats this w = (Ok s', w')).
  { unfold getStats. fold (stats_turn this). fold no_stats. unfold block, try_catch.
    unfold bind at 1. unfold bind at 1. rewrite global_run. cbn [storage_length fst snd].
    rewrite T. now destruct r. }
  rewrite R. cbn [fst snd]. exists s'. split; [reflexivity|].
  split; [exact E|]. split; [exact D|].
  cbn [no_stats total expired valid usedBytes] in *.
  split; [lia|]. split; [lia|]. split; [lia|].
  intros Cm. destruct F as (_ & F1 & F2 & F3).
  { intros kv I. rewrite (raises_at_any this 0 (now (clock w))). now apply Cm. }
  cbn [Nat.add] in *. repeat split; lia.
Qed.

(** One turn of [getStats] on an entry whose comparison does not raise. *)
Lemma stats_turn_at this i w s kv :
  nth_error (entries (storage_of this w)) i = Some kv ->
  let l0 := entries (storage_of this w) in
  raises_at this 0 (scan_text this l0 (fst kv)) = false ->
  exists w',
    stats_turn this i (w, s)
    = (Ok tt, (w', snd (tally_at this l0 (clock w, s) kv)))
    /\ entries (storage_of this w') = l0
    /\ clock w' = fst (tally_at this l0 (clock w, s) kv).
Proof.
  intros N. cbv zeta. intros R.
  unfold stats_turn. unfold bind at 1. rewrite global_run, storage_key_run.
  cbn [fst snd]. rewrite N. cbn [option_map].
  pose proof (scan_guard this (entries (storage_of this w)) (fst kv)) as G.
  unfold tally_at, raises_at, expiry_in in *.
  destruct (scan_text this (entries (storage_of this w)) (fst kv)) as [|c d] eqn:X.
  - destruct G as [G|G].
    + rewrite G. cbn [negb]. eexists. split; [reflexivity|].
      now rewrite entries_noted, clock_noted.
    + destruct (prefixed this (Some (fst kv))); cbn [negb].
      * unfold bind at 1. rewrite global_run, storage_getItem_run. cbn [fst snd option_or].
        rewrite entries_noted, G. eexists. split; [reflexivity|].
        now rewrite !entries_noted, !clock_noted.
      * eexists. split; [reflexivity|]. now rewrite entries_noted, clock_noted.
  - destruct G as [P L]. rewrite P. cbn [negb].
    unfold bind at 1. rewrite global_run, storage_getItem_run. cbn [fst snd option_or].
    rewrite entries_noted, L. cbn [no_data].
    unfold bind at 1. unfold assign at 1. cbn [fst snd option_or]. cbv zeta.
    change (@Some (list BinNums.N) (c :: d)) with (@Some jsstring (c :: d)).
    fold (has_expires (decode this (@Some jsstring (c :: d)))).
    destruct (has_expires (decode this (@Some jsstring (c :: d)))).
    2:{ cbv iota. eexists. split; [reflexivity|]. cbn [fst snd].
        now rewrite !entries_noted, !clock_noted. }
    unfold bind at 1. rewrite global_run, isExpired_run. cbn [fst snd].
    set (e := js_get (decode this (@Some jsstring (c :: d))) (lit "expires")) in *.
    set (w2 := noted this (CallGetItem (fst kv)) (noted this (CallKey i) w)).
    assert (C2 : clock w2 = clock w) by (unfold w2; now rewrite !clock_noted).
    assert (E2 : entries (storage_of this w2) = entries (storage_of this w))
      by (unfold w2; now rewrite !entries_noted).
    assert (R' : match expired_at (now (clock w)) e with Throw _ => true | _ => false end
                 = false).
    { revert R. unfold expired_at. destruct e; try reflexivity; unfold js_gt;
        now destruct (to_number _). }
    rewrite C2.
    destruct e eqn:Ee;
      try (destruct (expired_at (now (clock w)) _) as [[|]|ex]; [| |discriminate];
           cbv iota; eexists; (split; [reflexivity|]); cbn [fst snd];
           now rewrite entries_ticked, clock_ticked, E2, C2).
    cbn [expired_at]. cbv iota. eexists. split; [reflexivity|]. cbn [fst snd].
    now rewrite E2, C2.
Qed.

Lemma stats_scan_at this l0 : forall rest from w s,
  entries (storage_of this w) = l0 ->
  (forall j, j < List.length rest -> nth_error l0 (from + j) = nth_error rest j) ->
  (forall kv, In kv rest -> raises_at this 0 (scan_text this l0 (fst kv)) = false) ->
  exists w',
    for_each (List.length rest) from (stats_turn this) (w, s)
    = (Ok tt, (w', snd (fold_left (tally_at this l0) rest (clock w, s))))
    /\ entries (storage_of this w') = l0.
Proof.
  induction rest as [|kv rest IH]; intros from w s E Nth R.
  - exists w. now split.
  - assert (N0 : nth_error (entries (storage_of this w)) from = Some kv).
    { rewrite E. specialize (Nth 0 ltac:(cbn; lia)). now rewrite Nat.add_0_r in Nth. }
    destruct (stats_turn_at this from w s kv N0) as (w1 & T & E1 & C1).
    { rewrite E. apply R. now left. }
    rewrite E in T, E1, C1.
    cbn [List.length for_each]. rewrite (bind_ok _ _ _ _ _ T).
    destruct (IH (S from) w1 (snd (tally_at this l0 (clock w, s) kv)) E1)
      as (w2 & T2 & E2).
    + intros j Hj. specialize (Nth (S j) ltac:(cbn; lia)).
      now rewrite Nat.add_succ_r in Nth.
    + intros kv' I. apply R. now right.
    + exists w2. split; [|exact E2]. rewrite T2. cbn [fold_left].
      rewrite C1. now rewrite <- surjective_pairing.
Qed.

(** [getStats] when no comparison raises: the fold of [tally_at] over the
    entries, in the order of [key(i)]. *)
Lemma getStats_at this w :
  let l0 := entries (storage_of this w) in
  comparable this (now (clock w)) l0 ->
  fst (getStats this w) = Ok (snd (fold_left (tally_at this l0) l0 (clock w, no_stats))).
Proof.
  cbv zeta. intros Cm.
  destruct (stats_scan_at this (entries (storage_of this w)) (entries (storage_of this w))
              0 w no_stats eq_refl (fun j _ => eq_refl)) as (w' & T & E).
  { intros kv I. rewrite (raises_at_any this 0 (now (clock w))). now apply Cm. }
  unfold getStats. fold (stats_turn this). fold no_stats. unfold block, try_catch.
  unfold bind at 1. unfold bind at 1. rewrite global_run. cbn [storage_length fst snd].
  rewrite T. reflexivity.
Qed.

(** An entry a scan looks into and finds no [expires] field in is counted
    as valid, and the clock is not read for it. *)
Lemma tally_at_undated this l0 cs kv :
  counted this l0 kv = true -> dated this l0 kv = false ->
  tally_at this l0 cs kv
  = (fst cs, count_valid (count_entry (fst kv) (scan_text this l0 (fst kv)) (snd cs))).
Proof.
  unfold dated, counted, tally_at, expiry_in. intros C D. rewrite C in D. cbn [andb] in D.
  destruct (scan_text this l0 (fst kv)) as [|c d]; [discriminate|].
  change (@Some (list BinNums.N) (c :: d)) with (@Some jsstring (c :: d)) in *.
  now rewrite D.
Qed.

Lemma prefixed_full_key this key :
  getFullKey this key <> [] -> prefixed this (Some (getFullKey this key)) = true.
Proof.
  intros N. unfold prefixed. destruct (getFullKey this key) as [|c k] eqn:E; [easy|].
  rewrite <- E. apply startsWith_app.
Qed.

(** How a scan sees the entry under a full key: as one whose text holds
    no [expires] field, and, when the text is not empty, as one to look
    into. *)
Lemma undated_entry this l0 key text v :
  lookup (getFullKey this key) l0 = Some text ->
  has_expires (decode this (Some text)) = false ->
  dated this l0 (getFullKey this key, v) = false
  /\ (text <> [] -> getFullKey this key <> [] ->
      counted this l0 (getFullKey this key, v) = true).
Proof.
  intros L X. unfold dated, counted, scan_text. cbn [fst]. rewrite L. cbn [option_or].
  destruct (prefixed this (Some (getFullKey this key))) eqn:P.
  - split.
    + destruct text; [reflexivity|]. cbn [andb]. exact X.
    + intros T _. now destruct text.
  - split; [reflexivity|]. intros _ N. rewrite (prefixed_full_key this key N) in P.
    discriminate.
Qed.

(** C8, as amended.  Nothing is ever raised by [get], [has],
    [clearExpired] or [getStats].  An entry whose text does not decode to
    an object holding a [value] field (malformed text, failed reversal, a
    primitive, a missing field) makes [get] return the default (or
    [null]) and stays in place.  An entry whose text does not decode to
    an object holding an [expires] field makes [has] answer [false] and
    is not deleted by [clearExpired].  [getStats] counts as expired only
    entries whose text holds an [expires] field; and when no stored
    [expires] field makes the comparison with the clock raise (the scan
    stops at such an entry), it goes through the entries in the order of
    [key(i)] and counts every entry that carries the prefix and has a
    non-empty text, each as expired or as valid: an entry among them
    whose text holds no [expires] field is counted as valid, without the
    clock being read. *)
Theorem entries_that_do_not_decode this w :
  let l0 := entries (storage_of this w) in
  (forall key g, exists v, fst (get this key g w) = Ok v)
  /\ (forall key, exists b, fst (has this key w) = Ok b)
  /\ (exists n, fst (clearExpired this w) = Ok n)
  /\ (forall key g text,
        lookup (getFullKey this key) l0 = Some text ->
        has_value (decode this (Some text)) = false ->
        get this key g w
        = (Ok (or_null g), noted this (CallGetItem (getFullKey this key)) w))
  /\ (forall key text,
        lookup (getFullKey this key) l0 = Some text ->
        has_expires (decode this (Some text)) = false ->
        has this key w = (Ok false, noted this (CallGetItem (getFullKey this key)) w)
        /\ lookup (getFullKey this key)
                  (entries (storage_of this (snd (clearExpired this w)))) = Some text
        /\ forall v,
             dated this l0 (getFullKey this key, v) = false
             /\ (text <> [] -> getFullKey this key <> [] ->
                 counted this l0 (getFullKey this key, v) = true))
  /\ (exists s,
        fst (getStats this w) = Ok s
        /\ expired s <= List.length (filter (dated this l0) l0)
        /\ (comparable this (now (clock w)) l0 ->
            s = snd (fold_left (tally_at this l0) l0 (clock w, no_stats))
            /\ total s = List.length (filter (counted this l0) l0)
            /\ total s = expired s + valid s
            /\ List.length (filter (fun kv => counted this l0 kv
                                              && negb (dated this l0 kv)) l0)
               <= valid s))
  /\ (forall cs kv,
        counted this l0 kv = true -> dated this l0 kv = false ->
        tally_at this l0 cs kv
        = (fst cs,
           count_valid (count_entry (fst kv) (scan_text this l0 (fst kv)) (snd cs)))).
Proof.
  cbv zeta. split; [|split; [|split; [|split; [|split; [|split]]]]].
  - intros key g. apply get_total.
  - intros key. apply has_total.
  - apply clearExpired_total.
  - intros key g text L V. exact (get_rejects _ _ _ _ text L V).
  - intros key text L X.
    split; [exact (has_rejects _ _ _ text L X)|].
    split; [now apply clearExpired_keeps|].
    intros v. now apply undated_entry.
  - destruct (getStats_bounds this w) as (s & Gs & _ & _ & _ & B & _ & F).
    cbv zeta in *. exists s. split; [exact Gs|]. split; [exact B|].
    intros Cm. destruct (F Cm) as (F1 & F2 & _).
    split.
    { pose proof (getStats_at this w Cm) as A. rewrite Gs in A. now injection A. }
    split; [exact F1|]. split; [exact F2|].
    assert (P : List.length (filter (counted this (entries (storage_of this w)))
                               (entries (storage_of this w)))
                = List.length (filter (dated this (entries (storage_of this w)))
                                 (entries (storage_of this w)))
                  + List.length (filter (fun kv =>
                       counted this (entries (storage_of this w)) kv
                       && negb (dated this (entries (storage_of this w)) kv))
                      (entries (storage_of this w)))).
    { apply filter_partition_length; intros kv _; unfold dated;
        destruct (counted this _ kv), (has_expires _); reflexivity. }
    lia.
  - intros cs kv. apply tally_at_undated.
Qed.

Lemma entries_that_do_not_decode_witness :
  let this := plain_engine in
  let key := lit "k" in
  let g := {| defaultValue := JStr (lit "fallback") |} in
  let w := world_at 1000 garbled_entry in
  fst (get this key g w) = Ok (JStr (lit "fallback"))
  /\ fst (has this key w) = Ok false
  /\ lookup (getFullKey this key)
            (entries (storage_of this (snd (clearExpired this w))))
     = Some (lit "not json at all")
  /\ (exists s, fst (getStats this w) = Ok s
                /\ total s = 1 /\ expired s = 0 /\ valid s = 1).
Proof.
  cbv zeta.
  destruct (entries_that_do_not_decode plain_engine (world_at 1000 garbled_entry))
    as (_ & _ & _ & G & H & (s & Gs & E & C) & _).
  cbv zeta in *.
  destruct (H (lit "k") (lit "not json at all") eq_refl eq_refl) as (H1 & H2 & _).
  split; [now rewrite (G (lit "k") _ (lit "not json at all") eq_refl eq_refl)|].
  split; [now rewrite H1|]. split; [exact H2|].
  exists s. split; [exact Gs|].
  destruct C as (_ & C1 & C2 & C3).
  { intros kv [<-|[]]. vm_compute. reflexivity. }
  change (expired s <= 0) in E. change (total s = 1) in C1. change (1 <= valid s) in C3.
  lia.
Defined.

(** C8, as stated, fails on an entry with a missing [value] field: [has]
    answers [true] for [{"expires":null}], and [clearExpired] deletes
    [{"expires":5}]. *)
Lemma missing_value_is_not_absent :
  fst (get plain_engine (lit "k") no_get_options
         (world_at 1000 [(lit "vue-storage-k", jtext "{'expires':null}")]))
  = Ok JNull
  /\ fst (has plain_engine (lit "k")
            (world_at 1000 [(lit "vue-storage-k", jtext "{'expires':null}")]))
     = Ok true
  /\ fst (clearExpired plain_engine
            (world_at 1000 [(lit "vue-storage-k", jtext "{'expires':5}")]))
     = Ok 1
  /\ entries (localStorage (snd (clearExpired plain_engine
            (world_at 1000 [(lit "vue-storage-k", jtext "{'expires':5}")]))))
     = [].
Proof. repeat split; vm_compute; reflexivity. Qed.

(** ** [getStats] and the entry it cannot classify *)

(** C5 fails on the code.  The stored [expires] field is an object whose
    own [toString] is not callable; [Date.now() > expires] raises
    [TypeError] after [total] was incremented and before the entry is
    classified, the [catch] of [getStats] swallows it, and the counts
    returned have [total = 1] with [expired = valid = 0]. *)
Theorem getStats_loses_an_entry :
  fst (getStats plain_engine (world_at 1000 unclassifiable_entry))
  = Ok {| total := 1; expired := 0; valid := 0; usedBytes := 39 |}
  /\ expired_at 1000 (js_get (decode plain_engine
                                (Some (jtext "{'expires':{'toString':0}}")))
                             (lit "expires"))
     = Throw TypeError.
Proof. split; vm_compute; reflexivity. Qed.

(** ** The codec under a key *)

(** [serialize] with obfuscation succeeds exactly when every code unit of
    the transformed text is a byte. *)
Lemma serialize_encrypted_succeeds x key :
  json_value x = true ->
  (exists t, serialize x true key = Ok (Some t))
  <-> bytes (xor_from 0 (element_text x) (key_or_default key)) = true.
Proof.
  intros J. unfold serialize, encrypt, btoa. rewrite (json_value_text x J).
  fold (bytes (xor_from 0 (element_text x) (key_or_default key))).
  destruct (bytes _); split; intros H; try discriminate; eauto.
  now destruct H.
Qed.

(** C6, as amended.  For every JSON value [x] and every key (the empty
    key included) under which [serialize] with obfuscation returns a
    text, [deserialize] with the same key gives [x] back.  With any key,
    right or wrong, and on any text, [deserialize] raises nothing: it
    returns what the reversed text parses to, or [null] when it does not
    parse. *)
Theorem codec_round_trip x key t :
  json_value x = true ->
  serialize x true key = Ok (Some t) ->
  deserialize t true key = x
  /\ (forall text k2,
        JSON_parse (decrypt text k2) = Ok (deserialize text true k2)
        \/ (deserialize text true k2 = JNull
            /\ exists e, JSON_parse (decrypt text k2) = Throw e)).
Proof.
  intros J S. split; [now apply deserialize_serialize_encrypted|].
  intros text k2. unfold deserialize.
  destruct (JSON_parse (decrypt text k2)) as [v|e]; [now left|right; eauto].
Qed.

Lemma codec_round_trip_witness :
  deserialize (lit "Ak0FE14AEgwAAVYXSVRLSltARA8O") true (Some (lit "your-secret-key"))
  = JObj [(lit "password", JStr (lit "123456"))]
  /\ (forall text k2,
        JSON_parse (decrypt text k2) = Ok (deserialize text true k2)
        \/ (deserialize text true k2 = JNull
            /\ exists e, JSON_parse (decrypt text k2) = Throw e)).
Proof.
  apply (codec_round_trip (JObj [(lit "password", JStr (lit "123456"))])
           (Some (lit "your-secret-key")) (lit "Ak0FE14AEgwAAVYXSVRLSltARA8O"));
    reflexivity.
Defined.

(** C6, as stated, fails twice.  A string outside Latin-1 makes [btoa],
    hence [serialize], raise, so there is nothing to read back; and a
    wrong key that agrees with the right one on the positions used reads
    the very same value back. *)
Lemma codec_round_trip_fails :
  serialize (JStr [20013%N]) true (Some (lit "vue-web-storage"))
  = Throw InvalidCharacterError
  /\ lit "ab" <> lit "a"
  /\ serialize (JNum (Int 1)) true (Some (lit "a")) = Ok (Some (lit "UA=="))
  /\ deserialize (lit "UA==") true (Some (lit "ab")) = JNum (Int 1).
Proof. repeat split; try discriminate; vm_compute; reflexivity. Qed.

(* ================================================================== *)
(** * Part III. Further properties *)
(* ================================================================== *)

(** ** Single calls *)

Lemma delivered_emitted this type data w :
  delivered (emitted this type data w)
  = delivered w ++
    deliveries {| ev_type := type; ev_key := p_key data; ev_value := p_value data;
                  ev_timestamp := now (clock w) |}
               (registered this type).
Proof.
  unfold emitted. destruct (registered this type); [|reflexivity].
  cbn [deliveries map]. now rewrite app_nil_r.
Qed.

Lemma clock_emitted this type data w :
  clock (emitted this type data w)
  = match registered this type with [] => clock w | _ => tick (clock w) end.
Proof. unfold emitted. now destruct (registered this type). Qed.

Lemma full_key_inj this k k' : getFullKey this k = getFullKey this k' -> k = k'.
Proof. apply app_inv_head. Qed.

(** The answer of [get] depends on the entry under its key and on the
    clock reading only. *)
Lemma get_answer this key g w w' :
  lookup (getFullKey this key) (entries (storage_of this w))
  = lookup (getFullKey this key) (entries (storage_of this w')) ->
  now (clock w) = now (clock w') ->
  fst (get this key g w) = fst (get this key g w').
Proof.
  intros L C.
  destruct (lookup (getFullKey this key) (entries (storage_of this w))) as [text|] eqn:E.
  2:{ rewrite !get_absent; [reflexivity|now rewrite <- L|now rewrite E]. }
  destruct text as [|c text].
  { rewrite !get_absent; [reflexivity|now rewrite <- L|now rewrite E]. }
  rewrite (get_run _ _ _ w _ E ltac:(discriminate)).
  rewrite (get_run _ _ _ w' _ (eq_sym L) ltac:(discriminate)). cbv zeta. rewrite C.
  destruct (has_value _); [|reflexivity].
  now destruct (expired_at _ _) as [[|]|].
Qed.

(** X1.  [remove] always answers [true].  It deletes the entry of its key
    and changes no other; every listener registered for [remove] receives
    one event carrying the key, whether or not there was an entry; and
    afterwards [get] returns the default (or [null]) and [has] answers
    [false]. *)
Theorem remove_then_absent this key g w :
  fst (remove this key w) = Ok true
  /\ lookup (getFullKey this key)
            (entries (storage_of this (snd (remove this key w)))) = None
  /\ (forall k, k <> getFullKey this key ->
        lookup k (entries (storage_of this (snd (remove this key w))))
        = lookup k (entries (storage_of this w)))
  /\ delivered (snd (remove this key w))
     = delivered w ++
       deliveries {| ev_type := EvRemove; ev_key := Some key; ev_value := None;
                     ev_timestamp := now (clock w) |}
                  (registered this EvRemove)
  /\ fst (get this key g (snd (remove this key w))) = Ok (or_null g)
  /\ fst (has this key (snd (remove this key w))) = Ok false.
Proof.
  rewrite remove_run. cbn [fst snd].
  assert (L : lookup (getFullKey this key)
                (entries (storage_of this
                   (emitted this EvRemove (key_payload key)
                      (removed this (getFullKey this key) w)))) = None).
  { rewrite storage_of_emitted, entries_removed. apply lookup_erase_same. }
  split; [reflexivity|]. split; [exact L|]. split; [|split; [|split]].
  - intros k K. rewrite storage_of_emitted, entries_removed.
    now apply lookup_erase_other.
  - now rewrite delivered_emitted, delivered_removed, clock_removed.
  - rewrite get_absent; [reflexivity|now rewrite L].
  - rewrite has_absent; [reflexivity|now rewrite L].
Qed.

(** What [set] leaves in the storage. *)
Lemma entries_after_set this key value o w :
  entries (storage_of this (snd (set this key value o w)))
  = entries (storage_of this w)
  \/ exists text,
       fst (set this key value o w) = Ok true
       /\ entries (storage_of this (snd (set this key value o w)))
          = store (getFullKey this key) text (entries (storage_of this w)).
Proof.
  rewrite set_run. cbv zeta.
  assert (T : forall w0, entries (storage_of this (ticked (after_expiry this o w0)))
                         = entries (storage_of this w0)).
  { intros w0. rewrite entries_ticked. unfold after_expiry.
    destruct (effective_expires this o); [apply entries_ticked|reflexivity]. }
  destruct (serialize _ _ _) as [t|e]; cbn [fst snd].
  - destruct (fits _ _ _ _); cbn [fst snd].
    + right. exists (text_of t). split; [reflexivity|].
      now rewrite storage_of_emitted, entries_written, T.
    + left. now rewrite entries_noted, T.
  - left. apply T.
Qed.

(** X2.  A write touches the entry of its own key only: after
    [set(key, ...)], whether it succeeded or not, the entry of every other
    key is what it was, so [get] and [has] on another key answer as they
    would have without the write. *)
Theorem set_leaves_other_keys this key value o key' g w :
  key' <> key ->
  lookup (getFullKey this key')
         (entries (storage_of this (snd (set this key value o w))))
  = lookup (getFullKey this key') (entries (storage_of this w))
  /\ (forall c, fst (get this key' g (at_clock c (snd (set this key value o w))))
                = fst (get this key' g (at_clock c w)))
  /\ (forall c, fst (has this key' (at_clock c (snd (set this key value o w))))
                = fst (has this key' (at_clock c w))).
Proof.
  intros N.
  assert (L : lookup (getFullKey this key')
                (entries (storage_of this (snd (set this key value o w))))
              = lookup (getFullKey this key') (entries (storage_of this w))).
  { destruct (entries_after_set this key value o w) as [E|(text & _ & E)];
      rewrite E; [reflexivity|].
    apply lookup_store_other. intros F. apply N. exact (full_key_inj _ _ _ F). }
  split; [exact L|]. split; intros c.
  - apply get_answer; [|reflexivity]. now rewrite !storage_of_at_clock.
  - apply has_answer; [|reflexivity]. now rewrite !storage_of_at_clock.
Qed.

Lemma set_leaves_other_keys_witness :
  let w := world_at 1000 [(lit "vue-storage-a", jtext "{'value':1,'expires':null,'created':5}")] in
  let w' := snd (set plain_engine (lit "b") (JNum (Int 2)) no_set_options w) in
  lookup (lit "vue-storage-a") (entries (storage_of plain_engine w'))
  = Some (jtext "{'value':1,'expires':null,'created':5}")
  /\ fst (get plain_engine (lit "a") no_get_options w') = Ok (JNum (Int 1)).
Proof.
  cbv zeta.
  destruct (set_leaves_other_keys plain_engine (lit "b") (JNum (Int 2)) no_set_options
              (lit "a") no_get_options
              (world_at 1000 [(lit "vue-storage-a",
                               jtext "{'value':1,'expires':null,'created':5}")])
              ltac:(discriminate)) as (L & G & _).
  split; [exact L|].
  specialize (G {| now := 1000; later := [] |}). exact G.
Defined.

Lemma delivered_written this k text w : delivered (written this k text w) = delivered w.
Proof. apply delivered_with_storage. Qed.

Lemma delivered_after_expiry this o w : delivered (after_expiry this o w) = delivered w.
Proof. unfold after_expiry. now destruct (effective_expires this o). Qed.

Lemma entries_after_expiry this o w :
  entries (storage_of this (after_expiry this o w)) = entries (storage_of this w).
Proof.
  unfold after_expiry. destruct (effective_expires this o); [apply entries_ticked|reflexivity].
Qed.

(** X3.  [set] never raises: it answers [true] or [false].  When it
    answers [false] (the value has no text to store, the obfuscation
    fails, or the quota is exceeded) no entry has changed and no listener
    has been called. *)
Theorem failed_set_changes_nothing this key value o w :
  fst (set this key value o w) <> Ok true ->
  fst (set this key value o w) = Ok false
  /\ entries (storage_of this (snd (set this key value o w)))
     = entries (storage_of this w)
  /\ delivered (snd (set this key value o w)) = delivered w.
Proof.
  rewrite set_run. cbv zeta.
  destruct (serialize _ _ _) as [t|e]; cbn [fst snd].
  - destruct (fits _ _ _ _); cbn [fst snd]; [now intros []|]. intros _.
    rewrite entries_noted, entries_ticked, entries_after_expiry.
    now rewrite delivered_noted, delivered_ticked, delivered_after_expiry.
  - intros _. rewrite entries_ticked, entries_after_expiry.
    now rewrite delivered_ticked, delivered_after_expiry.
Qed.

Lemma failed_set_changes_nothing_witness :
  let this := on encrypting_engine EvSet 3 in
  let w := world_at 1000 [] in
  fst (set this (lit "name") (JStr [20013%N]) no_set_options w) = Ok false
  /\ entries (storage_of this (snd (set this (lit "name") (JStr [20013%N])
                                      no_set_options w)))
     = entries (storage_of this w)
  /\ delivered (snd (set this (lit "name") (JStr [20013%N]) no_set_options w))
     = delivered w.
Proof.
  apply (failed_set_changes_nothing (on encrypting_engine EvSet 3) (lit "name")
           (JStr [20013%N]) no_set_options (world_at 1000 [])).
  vm_compute. discriminate.
Defined.

(** X4.  [get] on an entry that is present, holds a [value] field and is
    expired returns the default (or [null]) and deletes the entry; the
    listeners of [remove] are called first (by the [remove] it goes
    through), then those of [expired], each with the key. *)
Theorem get_evicts_expired this key g w text :
  lookup (getFullKey this key) (entries (storage_of this w)) = Some text ->
  text <> [] ->
  has_value (decode this (Some text)) = true ->
  expired_at (now (clock w)) (js_get (decode this (Some text)) (lit "expires"))
  = Ok true ->
  let c1 := tick (clock w) in
  let c2 := match registered this EvRemove with [] => c1 | _ => tick c1 end in
  exists w',
    get this key g w = (Ok (or_null g), w')
    /\ lookup (getFullKey this key) (entries (storage_of this w')) = None
    /\ delivered w'
       = (delivered w ++
          deliveries {| ev_type := EvRemove; ev_key := Some key; ev_value := None;
                        ev_timestamp := now c1 |}
                     (registered this EvRemove)) ++
         deliveries {| ev_type := EvExpired; ev_key := Some key; ev_value := None;
                       ev_timestamp := now c2 |}
                    (registered this EvExpired).
Proof.
  intros L T V E. cbv zeta. rewrite (get_run _ _ _ _ _ L T). cbv zeta. rewrite V, E.
  eexists. split; [reflexivity|]. split.
  - rewrite !storage_of_emitted, entries_removed. apply lookup_erase_same.
  - rewrite !delivered_emitted, clock_emitted.
    rewrite delivered_removed, clock_removed, delivered_ticked, clock_ticked,
      delivered_noted, clock_noted.
    reflexivity.
Qed.

Lemma get_evicts_expired_witness :
  let this := on (on plain_engine EvRemove 7) EvExpired 8 in
  exists w',
    get this (lit "k") no_get_options (world_at 2000 expired_entry) = (Ok JNull, w')
    /\ lookup (lit "vue-storage-k") (entries (storage_of this w')) = None
    /\ delivered w'
       = [(7, {| ev_type := EvRemove; ev_key := Some (lit "k"); ev_value := None;
                 ev_timestamp := 2000 |});
          (8, {| ev_type := EvExpired; ev_key := Some (lit "k"); ev_value := None;
                 ev_timestamp := 2000 |})].
Proof.
  exact (get_evicts_expired (on (on plain_engine EvRemove 7) EvExpired 8) (lit "k")
           no_get_options (world_at 2000 expired_entry)
           (jtext "{'value':1,'expires':1500,'created':500}")
           eq_refl ltac:(discriminate) eq_refl eq_refl).
Defined.

(** What [get] and [has] leave in the storage. *)
Lemma entries_after_get this key g w :
  entries (storage_of this (snd (get this key g w))) = entries (storage_of this w)
  \/ (entries (storage_of this (snd (get this key g w)))
      = erase (getFullKey this key) (entries (storage_of this w))
      /\ fst (get this key g w) = Ok (or_null g)).
Proof.
  destruct (lookup (getFullKey this key) (entries (storage_of this w))) as [text|] eqn:E.
  2:{ left. rewrite get_absent by (now rewrite E). apply entries_noted. }
  destruct text as [|c text].
  { left. rewrite get_absent by (now rewrite E). apply entries_noted. }
  rewrite (get_run _ _ _ _ _ E ltac:(discriminate)). cbv zeta.
  destruct (has_value _); [|left; apply entries_noted].
  destruct (expired_at _ _) as [[|]|e]; cbn [fst snd].
  - right. split; [|reflexivity].
    now rewrite !storage_of_emitted, entries_removed, entries_ticked, entries_noted.
  - left. rewrite storage_of_emitted.
    destruct (js_get _ _); now rewrite ?entries_ticked, entries_noted.
  - left. now rewrite entries_ticked, entries_noted.
Qed.

Lemma entries_after_has this key w :
  entries (storage_of this (snd (has this key w))) = entries (storage_of this w)
  \/ (entries (storage_of this (snd (has this key w)))
      = erase (getFullKey this key) (entries (storage_of this w))
      /\ fst (has this key w) = Ok false).
Proof.
  destruct (lookup (getFullKey this key) (entries (storage_of this w))) as [text|] eqn:E.
  2:{ left. rewrite has_absent by (now rewrite E). apply entries_noted. }
  destruct text as [|c text].
  { left. rewrite has_absent by (now rewrite E). apply entries_noted. }
  rewrite (has_run _ _ _ _ E ltac:(discriminate)). cbv zeta.
  destruct (has_expires _); [|left; apply entries_noted].
  destruct (expired_at _ _) as [[|]|e]; cbn [fst snd].
  - right. split; [|reflexivity].
    now rewrite !storage_of_emitted, entries_removed, entries_ticked, entries_noted.
  - left. destruct (js_get _ _); now rewrite ?entries_ticked, entries_noted.
  - left. now rewrite entries_ticked, entries_noted.
Qed.

(** X5.  [get] and [has] never write.  After either, the entry of every
    other key is what it was, and the entry of the key asked for is
    either what it was or gone; it is gone only when the call answered
    the default (for [get]) or [false] (for [has]). *)
Theorem reads_never_write this key g w k :
  (lookup k (entries (storage_of this (snd (get this key g w))))
   = lookup k (entries (storage_of this w))
   \/ (k = getFullKey this key
       /\ lookup k (entries (storage_of this (snd (get this key g w)))) = None
       /\ fst (get this key g w) = Ok (or_null g)))
  /\ (lookup k (entries (storage_of this (snd (has this key w))))
      = lookup k (entries (storage_of this w))
      \/ (k = getFullKey this key
          /\ lookup k (entries (storage_of this (snd (has this key w)))) = None
          /\ fst (has this key w) = Ok false)).
Proof.
  split.
  - destruct (entries_after_get this key g w) as [E|[E R]]; rewrite E; [now left|].
    destruct (str_eqb k (getFullKey this key)) eqn:K.
    + apply str_eqb_eq in K. subst k. right. now rewrite lookup_erase_same.
    + apply str_eqb_neq in K. left. now apply lookup_erase_other.
  - destruct (entries_after_has this key w) as [E|[E R]]; rewrite E; [now left|].
    destruct (str_eqb k (getFullKey this key)) eqn:K.
    + apply str_eqb_eq in K. subst k. right. now rewrite lookup_erase_same.
    + apply str_eqb_neq in K. left. now apply lookup_erase_other.
Qed.

(** X6.  [has] answers [true] exactly when the entry of the key decodes
    to an object holding an [expires] field that is not in the past; and
    when it answers [true] it has changed no entry and called no
    listener. *)
Theorem has_true_iff this key w :
  (fst (has this key w) = Ok true
   <-> exists text,
         lookup (getFullKey this key) (entries (storage_of this w)) = Some text
         /\ has_expires (decode this (Some text)) = true
         /\ expired_at (now (clock w)) (js_get (decode this (Some text)) (lit "expires"))
            = Ok false)
  /\ (fst (has this key w) = Ok true ->
      entries (storage_of this (snd (has this key w))) = entries (storage_of this w)
      /\ delivered (snd (has this key w)) = delivered w).
Proof.
  destruct (lookup (getFullKey this key) (entries (storage_of this w))) as [text|] eqn:E.
  2:{ rewrite has_absent by (now rewrite E). cbn [fst]. split; [split|]; try discriminate.
      now intros (text & X & _). }
  destruct text as [|c text].
  { rewrite has_absent by (now rewrite E). cbn [fst]. split; [split|]; try discriminate.
    intros (text & X & H & _). injection X as <-.
    apply has_expires_object in H as (o & H). now apply decode_nonempty in H. }
  rewrite (has_run _ _ _ _ E ltac:(discriminate)). cbv zeta.
  destruct (has_expires _) eqn:H; cbn [fst snd].
  2:{ split; [split|]; try discriminate. intros (t & X & H' & _).
      injection X as <-. congruence. }
  destruct (expired_at _ _) as [[|]|e] eqn:X; cbn [fst snd].
  - split; [split|]; try discriminate. intros (t & T & _ & X').
    injection T as <-. congruence.
  - split; [split|].
    + intros _. exists (c :: text). auto.
    + reflexivity.
    + intros _. destruct (js_get _ _);
        now rewrite ?entries_ticked, ?delivered_ticked, entries_noted, delivered_noted.
  - split; [split|]; try discriminate. intros (t & T & _ & X').
    injection T as <-. congruence.
Qed.

(** [has] after a successful [set]. *)
Lemma has_after_set this key value o w w1 c :
  json_value value = true ->
  write_flag this o = opt_encrypt (options this) ->
  set this key value o w = (Ok true, w1) ->
  fst (has this key (at_clock c w1))
  = match effective_expires this o with
    | Some d =>
        if num_finite (num_add (Int (now (clock w))) d)
           && num_lt (num_add (Int (now (clock w))) d) (Int (now c))
        then Ok false else Ok true
    | None => Ok true
    end.
Proof.
  intros J F S. destruct (set_success _ _ _ _ _ _ S) as (t & E & _ & L).
  destruct (decode_after_set _ _ _ _ _ J F E) as (D & T).
  destruct (read_envelope this key {| defaultValue := JUndefined |} w1 _ _ _ _ c L T D)
    as [_ H].
  rewrite H, expired_at_kept.
  destruct (effective_expires this o) as [d|]; [|reflexivity].
  now destruct (_ && _).
Qed.

(** X7.  After a successful [set] of a JSON value made with the engine's
    own obfuscation flag, [has] answers [true] for ever when there is no
    effective duration (the per-call one, else the configured default, is
    absent, zero or [NaN]), and also when the duration is [+Infinity] or
    [-Infinity] (the stored [expires] is then [null]); with an integer
    duration [z] it answers [true] at every moment [t <= r + z] and
    [false] at every [t > r + z], [r] being the clock reading at which
    [set] computes the expiry.  Here [r], [z], [r + z] and [t] are
    integers binary64 holds exactly. *)
Theorem set_then_has this key value o w w1 :
  json_value value = true ->
  write_flag this o = opt_encrypt (options this) ->
  set this key value o w = (Ok true, w1) ->
  let r := now (clock w) in
  let d := option_or (s_expires o) (opt_defaultExpires (options this)) in
  (d = Int 0 \/ d = NaN -> effective_expires this o = None)
  /\ (effective_expires this o = None ->
      forall c, fst (has this key (at_clock c w1)) = Ok true)
  /\ (forall b, effective_expires this o = Some (Inf b) ->
      forall c, fst (has this key (at_clock c w1)) = Ok true)
  /\ (forall z, effective_expires this o = Some (Int z) ->
      exact_int r = true -> exact_int z = true -> exact_int (r + z) = true ->
      forall c, exact_int (now c) = true ->
        fst (has this key (at_clock c w1)) = Ok (now c <=? r + z)%Z).
Proof.
  intros J F S. cbv zeta. split; [|split; [|split]].
  - apply effective_expires_falsy.
  - intros N c. now rewrite (has_after_set _ _ _ _ _ _ c J F S), N.
  - intros b B c. now rewrite (has_after_set _ _ _ _ _ _ c J F S), B.
  - intros z Z _ _ _ c _.
    rewrite (has_after_set _ _ _ _ _ _ c J F S), Z. cbn [num_add num_finite num_lt andb].
    rewrite Z.leb_antisym. now destruct (now (clock w) + z <? now c)%Z.
Qed.

Lemma set_then_has_witness :
  let w1 := snd (set plain_engine (lit "k") (JStr (lit "x")) (with_expires 1000)
                   (world_at 5000 [])) in
  fst (has plain_engine (lit "k") (at_clock {| now := 6000; later := [] |} w1)) = Ok true
  /\ fst (has plain_engine (lit "k") (at_clock {| now := 6001; later := [] |} w1))
     = Ok false.
Proof.
  cbv zeta.
  destruct (set_then_has plain_engine (lit "k") (JStr (lit "x")) (with_expires 1000)
              (world_at 5000 []) _ eq_refl eq_refl eq_refl) as (_ & _ & _ & H).
  split.
  - exact (H 1000%Z eq_refl eq_refl eq_refl eq_refl {| now := 6000; later := [] |} eq_refl).
  - exact (H 1000%Z eq_refl eq_refl eq_refl eq_refl {| now := 6001; later := [] |} eq_refl).
Defined.

(** ** Plain entries under an obfuscating engine *)








(** ** The codec, further *)

(** X9.  Without obfuscation [serialize] succeeds on every JSON value,
    whatever key is passed, and [deserialize] gives the value back. *)
Theorem codec_round_trip_plain x key key' :
  json_value x = true ->
  exists t, serialize x false key = Ok (Some t)
            /\ deserialize t false key' = x.
Proof.
  intros J. exists (element_text x). unfold serialize.
  rewrite (json_value_text x J). split; [reflexivity|].
  unfold deserialize. now rewrite (JSON_parse_stringify x _ J (json_value_text x J)).
Qed.

Lemma codec_round_trip_plain_witness :
  exists t, serialize sample_value false None = Ok (Some t)
            /\ deserialize t false (Some (lit "any")) = sample_value.
Proof. exact (codec_round_trip_plain sample_value None (Some (lit "any")) eq_refl). Defined.

Lemma lxor_byte c k : (k <= 255)%N -> (N.lxor c k / 256 = c / 256)%N.
Proof.
  intros K. change 256%N with (2 ^ 8)%N. rewrite <- !N.shiftr_div_pow2.
  rewrite N.shiftr_lxor. replace (N.shiftr k 8) with 0%N; [apply N.lxor_0_r|].
  symmetry. rewrite N.shiftr_div_pow2. apply N.div_small.
  change (2 ^ 8)%N with 256%N. lia.
Qed.

Lemma key_code_byte key i : bytes key = true -> (key_code key i <= 255)%N.
Proof.
  intros B. unfold key_code.
  destruct (charCodeAt key (i mod List.length key)) as [k|] eqn:E; [|lia].
  unfold charCodeAt in E. apply nth_error_In in E.
  unfold bytes in B. rewrite forallb_forall in B. apply N.leb_le. now apply B.
Qed.

Lemma xor_from_bytes text key : forall i,
  str_ok text = true -> bytes key = true ->
  bytes (xor_from i text key) = bytes text.
Proof.
  induction text as [|c text IH]; intros i Hs B; [reflexivity|].
  cbn [str_ok forallb] in Hs. apply andb_true_iff in Hs as [C Hs].
  cbn [xor_from bytes forallb]. fold (bytes (xor_from (S i) text key)). fold (bytes text).
  rewrite (IH (S i) Hs B). f_equal.
  pose proof (key_code_byte key i B) as K. pose proof (lxor_byte c _ K) as L.
  apply N.ltb_lt in C.
  assert (X : (N.lxor c (key_code key i) < 65536)%N).
  { assert (N.lxor c (key_code key i) / 256 < 256)%N by (rewrite L; lia). lia. }
  rewrite (N.mod_small _ _ X).
  destruct (c <=? 255)%N eqn:E; [apply N.leb_le in E|apply N.leb_gt in E].
  - apply N.leb_le. assert (c / 256 = 0)%N by lia. lia.
  - apply N.leb_gt. assert (c / 256 <> 0)%N by lia. lia.
Qed.

(** X10.  With a key made of bytes (the default key is one, the empty
    key too), [encrypt] succeeds exactly on the texts made of bytes:
    then [decrypt] under the same key gives the text back; a text holding
    a code unit above 255 makes [encrypt] raise [InvalidCharacterError]. *)
Theorem encrypt_succeeds_on_bytes text key :
  str_ok text = true ->
  bytes (key_or_default key) = true ->
  if bytes text
  then exists t, encrypt text key = Ok t /\ decrypt t key = text
  else encrypt text key = Throw InvalidCharacterError.
Proof.
  intros S B. destruct (bytes text) eqn:T.
  - assert (E : encrypt text key = Ok (b64_encode (xor_from 0 text (key_or_default key)))).
    { unfold encrypt, btoa.
      fold (bytes (xor_from 0 text (key_or_default key))).
      now rewrite (xor_from_bytes _ _ 0 S B), T. }
    eexists. split; [exact E|]. exact (decrypt_encrypt _ _ _ S E).
  - unfold encrypt, btoa. fold (bytes (xor_from 0 text (key_or_default key))).
    now rewrite (xor_from_bytes _ _ 0 S B), T.
Qed.

Lemma encrypt_succeeds_on_bytes_witness :
  (exists t, encrypt (jtext "{'a':1}") None = Ok t /\ decrypt t None = jtext "{'a':1}")
  /\ encrypt [34; 20013; 34]%N None = Throw InvalidCharacterError.
Proof.
  split.
  - exact (encrypt_succeeds_on_bytes (jtext "{'a':1}") None eq_refl eq_refl).
  - exact (encrypt_succeeds_on_bytes [34; 20013; 34]%N None eq_refl eq_refl).
Defined.

Lemma xor_from_empty_key text : forall i,
  str_ok text = true -> xor_from i text [] = text.
Proof.
  induction text as [|c text IH]; intros i Hs; [reflexivity|].
  cbn [str_ok forallb] in Hs. apply andb_true_iff in Hs as [C Hs].
  cbn [xor_from]. rewrite (IH (S i) Hs). f_equal.
  unfold key_code. replace (charCodeAt [] (i mod List.length (@nil N))) with (@None N)
    by (unfold charCodeAt; now destruct (i mod _)).
  rewrite N.lxor_0_r. apply N.mod_small. now apply N.ltb_lt.
Qed.

Lemma b64_index_range c i : b64_index c = Some i -> (i < 64)%N.
Proof.
  unfold b64_index.
  destruct ((65 <=? c)%N && (c <=? 90)%N) eqn:A.
  { apply andb_true_iff in A as [A1 A2]. apply N.leb_le in A1, A2.
    intros E. injection E as <-. lia. }
  destruct ((97 <=? c)%N && (c <=? 122)%N) eqn:B.
  { apply andb_true_iff in B as [B1 B2]. apply N.leb_le in B1, B2.
    intros E. injection E as <-. lia. }
  destruct ((48 <=? c)%N && (c <=? 57)%N) eqn:C.
  { apply andb_true_iff in C as [C1 C2]. apply N.leb_le in C1, C2.
    intros E. injection E as <-. lia. }
  destruct (c =? 43)%N; [intros E; injection E as <-; lia|].
  destruct (c =? 47)%N; [intros E; injection E as <-; lia|discriminate].
Qed.

Lemma b64_indices_range : forall s l,
  b64_indices s = Some l -> Forall (fun i => (i < 64)%N) l.
Proof.
  induction s as [|c s IH]; intros l E; cbn [b64_indices] in E.
  - injection E as <-. constructor.
  - destruct (b64_index c) as [i|] eqn:I; [|discriminate].
    destruct (b64_indices s) as [l'|]; [|discriminate]. injection E as <-.
    constructor; [exact (b64_index_range _ _ I)|now apply IH].
Qed.

Lemma b64_decode_bytes n : forall l,
  List.length l <= n -> Forall (fun i => (i < 64)%N) l -> bytes (b64_decode l) = true.
Proof.
  induction n as [|n IH]; intros l Hl F.
  { destruct l; [reflexivity|cbn in Hl; lia]. }
  destruct l as [|a [|b [|c [|d rest]]]]; try reflexivity.
  - inversion F as [|? ? Ha F1]; subst. inversion F1 as [|? ? Hb F2]; subst.
    cbn [b64_decode bytes forallb]. rewrite andb_true_r. apply N.leb_le. lia.
  - inversion F as [|? ? Ha F1]; subst. inversion F1 as [|? ? Hb F2]; subst.
    inversion F2 as [|? ? Hc F3]; subst.
    cbn [b64_decode bytes forallb]. rewrite andb_true_r.
    apply andb_true_iff. split; apply N.leb_le; lia.
  - inversion F as [|? ? Ha F1]; subst. inversion F1 as [|? ? Hb F2]; subst.
    inversion F2 as [|? ? Hc F3]; subst. inversion F3 as [|? ? Hd F4]; subst.
    cbn [b64_decode app bytes forallb]. fold (bytes (b64_decode rest)).
    rewrite (IH rest); [|cbn [List.length] in Hl; lia|exact F4].
    rewrite andb_true_r.
    repeat (apply andb_true_iff; split); apply N.leb_le; lia.
Qed.

(** What [atob] returns is made of bytes. *)
Lemma atob_bytes t s : atob t = Ok s -> bytes s = true.
Proof.
  unfold atob. cbv zeta. destruct (_ =? 1)%nat; [discriminate|].
  destruct (b64_indices _) as [l|] eqn:E; [|discriminate].
  intros X. injection X as <-.
  exact (b64_decode_bytes _ l (le_n _) (b64_indices_range _ _ E)).
Qed.

Lemma bytes_str_ok s : bytes s = true -> str_ok s = true.
Proof.
  unfold bytes, str_ok. rewrite !forallb_forall. intros H c I.
  specialize (H c I). apply N.leb_le in H. apply N.ltb_lt. lia.
Qed.

(** X11.  The empty key obfuscates nothing: [key.charCodeAt(i % 0)] is
    [NaN], which [^] reads as 0, so [encrypt] is [btoa] of the text
    itself and [decrypt] is [atob] (the text itself when it is not
    base64). *)
Theorem empty_key_is_plain_base64 text :
  str_ok text = true ->
  encrypt text (Some []) = btoa text
  /\ (forall s, atob text = Ok s -> decrypt text (Some []) = s)
  /\ (forall e, atob text = Throw e -> decrypt text (Some []) = text).
Proof.
  intros Hs. unfold encrypt. cbn [key_or_default].
  rewrite (xor_from_empty_key text 0 Hs). split; [reflexivity|]. split.
  - intros s A. unfold decrypt. rewrite A. cbn [key_or_default].
    apply xor_from_empty_key, bytes_str_ok. exact (atob_bytes _ _ A).
  - intros e A. unfold decrypt. now rewrite A.
Qed.

Lemma empty_key_is_plain_base64_witness :
  encrypt (lit "hi") (Some []) = Ok (lit "aGk=")
  /\ decrypt (lit "aGk=") (Some []) = lit "hi"
  /\ decrypt (lit "{}") (Some []) = lit "{}".
Proof.
  split; [|split].
  - exact (proj1 (empty_key_is_plain_base64 (lit "hi") eq_refl)).
  - exact (proj1 (proj2 (empty_key_is_plain_base64 (lit "aGk=") eq_refl))
             (lit "hi") eq_refl).
  - exact (proj2 (proj2 (empty_key_is_plain_base64 (lit "{}") eq_refl))
             InvalidCharacterError eq_refl).
Defined.

(** ** [deepClone], further *)

(** X12.  [deepClone] returns a value equal to its argument for every
    value whose objects have distinct keys other than [__proto__]:
    [undefined], [NaN] and dates included, at any depth. *)
Theorem deepClone_structural v : cloneable v = true -> deepClone v = v.
Proof.
  induction v as [| |b|x|s|t|items IH|o IH] using jsval_induction;
    intros J; try reflexivity.
  - cbn [cloneable] in J. cbn [deepClone]. f_equal.
    pose proof (forallb_Forall_impl _ _ _ J IH) as S. clear - S.
    induction S as [|x l Hx Hl IHl]; [reflexivity|]. cbn [map]. now rewrite Hx, IHl.
  - cbn [cloneable] in J. apply andb_true_iff in J as [J N].
    cbn [deepClone]. f_equal.
    rewrite (fold_left_agree _ (fun o kv => prop_define o (fst kv) (snd kv))).
    + now apply (fold_define_nodup o []).
    + clear - J IH. induction IH as [|[k x] o Hx Ho IHo]; constructor.
      * intros a. cbn [forallb fst snd] in *. apply andb_true_iff in J as [J _].
        apply andb_true_iff in J as [K J]. apply negb_true_iff in K.
        unfold prop_assign. now rewrite K, (Hx J).
      * apply IHo. cbn [forallb] in J. now apply andb_true_iff in J as [_ J].
Qed.

Lemma deepClone_structural_witness :
  deepClone (JObj [(lit "when", JDate 86400000); (lit "n", JNum NaN);
                   (lit "list", JArr [JUndefined; JObj [(lit "k", JNull)]])])
  = JObj [(lit "when", JDate 86400000); (lit "n", JNum NaN);
          (lit "list", JArr [JUndefined; JObj [(lit "k", JNull)]])].
Proof.
  exact (deepClone_structural
           (JObj [(lit "when", JDate 86400000); (lit "n", JNum NaN);
                  (lit "list", JArr [JUndefined; JObj [(lit "k", JNull)]])]) eq_refl).
Defined.

(** ** Batches *)

Lemma batchRemove_cons storage key keys w :
  batchRemove storage (key :: keys) w
  = batchRemove storage keys (snd (remove storage key w)).
Proof.
  unfold batchRemove. cbn [for_all]. unfold bind at 1. unfold bind at 1.
  rewrite remove_run. reflexivity.
Qed.

Lemma batchRemove_ok storage keys : forall w, fst (batchRemove storage keys w) = Ok tt.
Proof.
  induction keys as [|key keys IH]; intros w; [reflexivity|].
  rewrite batchRemove_cons. apply IH.
Qed.

Lemma entries_after_remove this key w :
  entries (storage_of this (snd (remove this key w)))
  = erase (getFullKey this key) (entries (storage_of this w)).
Proof. rewrite remove_run. cbn [snd]. now rewrite storage_of_emitted, entries_removed. Qed.

Lemma lookup_erase_none k k' l : lookup k l = None -> lookup k (erase k' l) = None.
Proof.
  intros H. destruct (lookup k (erase k' l)) eqn:E; [|reflexivity].
  exfalso. apply (lookup_erase_some k k' l); [now rewrite E|exact H].
Qed.

Lemma batchRemove_lookup storage keys : forall w k,
  lookup k (entries (storage_of storage (snd (batchRemove storage keys w))))
  = if existsb (fun key => str_eqb k (getFullKey storage key)) keys then None
    else lookup k (entries (storage_of storage w)).
Proof.
  induction keys as [|key keys IH]; intros w k; [reflexivity|].
  rewrite batchRemove_cons, IH, entries_after_remove. cbn [existsb].
  destruct (str_eqb k (getFullKey storage key)) eqn:E; cbn [orb].
  - apply str_eqb_eq in E. subst k. rewrite lookup_erase_same. now destruct (existsb _ _).
  - apply str_eqb_neq in E. now rewrite lookup_erase_other.
Qed.

Lemma existsb_full_key storage k keys :
  existsb (fun key => str_eqb (getFullKey storage k) (getFullKey storage key)) keys = true
  <-> In k keys.
Proof.
  rewrite existsb_exists. split.
  - intros (x & I & E). apply str_eqb_eq, full_key_inj in E. now subst.
  - intros I. exists k. split; [exact I|apply str_eqb_refl].
Qed.

(** X13.  [batchRemove] never fails.  Afterwards no listed key has an
    entry, so [get] returns the default (or [null]) and [has] answers
    [false] for each of them, and the entry of every key that is not
    listed is what it was. *)
Theorem batchRemove_clears storage keys g w :
  fst (batchRemove storage keys w) = Ok tt
  /\ (forall k, In k keys ->
        lookup (getFullKey storage k)
               (entries (storage_of storage (snd (batchRemove storage keys w)))) = None
        /\ fst (get storage k g (snd (batchRemove storage keys w))) = Ok (or_null g)
        /\ fst (has storage k (snd (batchRemove storage keys w))) = Ok false)
  /\ (forall k, ~ In k keys ->
        lookup (getFullKey storage k)
               (entries (storage_of storage (snd (batchRemove storage keys w))))
        = lookup (getFullKey storage k) (entries (storage_of storage w))).
Proof.
  split; [apply batchRemove_ok|]. split.
  - intros k I.
    assert (L : lookup (getFullKey storage k)
                  (entries (storage_of storage (snd (batchRemove storage keys w))))
                = None).
    { rewrite batchRemove_lookup.
      now rewrite (proj2 (existsb_full_key storage k keys) I). }
    split; [exact L|]. split.
    + rewrite get_absent; [reflexivity|now rewrite L].
    + rewrite has_absent; [reflexivity|now rewrite L].
  - intros k N. rewrite batchRemove_lookup.
    destruct (existsb _ keys) eqn:E; [|reflexivity].
    now apply existsb_full_key in E.
Qed.

Lemma set_total this key value o w : exists b, fst (set this key value o w) = Ok b.
Proof.
  unfold set, try_catch. destruct (bind _ _ w) as [[v|e] w']; cbn; eauto.
Qed.

Lemma batchSet_cons storage kv items o w :
  batchSet storage (kv :: items) o w
  = batchSet storage items o (snd (set storage (fst kv) (snd kv) o w)).
Proof.
  unfold batchSet. cbn [for_all]. unfold bind at 1. unfold bind at 1.
  destruct (set_total storage (fst kv) (snd kv) o w) as [b E].
  destruct (set storage (fst kv) (snd kv) o w) as [r w1]. cbn [fst snd] in *.
  now rewrite E.
Qed.

Lemma set_lookup_other this key value o w k :
  k <> getFullKey this key ->
  lookup k (entries (storage_of this (snd (set this key value o w))))
  = lookup k (entries (storage_of this w)).
Proof.
  intros N. destruct (entries_after_set this key value o w) as [E|(text & _ & E)];
    rewrite E; [reflexivity|].
  now apply lookup_store_other.
Qed.

Lemma batchSet_lookup_other storage items o : forall w k,
  existsb (fun kv => str_eqb k (getFullKey storage (fst kv))) items = false ->
  lookup k (entries (storage_of storage (snd (batchSet storage items o w))))
  = lookup k (entries (storage_of storage w)).
Proof.
  induction items as [|kv items IH]; intros w k X; [reflexivity|].
  cbn [existsb] in X. apply orb_false_iff in X as [X1 X2].
  rewrite batchSet_cons, (IH _ _ X2). apply set_lookup_other.
  now apply str_eqb_neq.
Qed.

Lemma own_key_existsb storage k (items : props) :
  own_key k items = false ->
  existsb (fun kv => str_eqb (getFullKey storage k) (getFullKey storage (fst kv))) items
  = false.
Proof.
  induction items as [|[k' v] items IH]; [reflexivity|]. cbn [own_key existsb fst].
  intros H. apply orb_false_iff in H as [H1 H2]. rewrite (IH H2), orb_false_r.
  apply str_eqb_neq. apply str_eqb_neq in H1. intros E. apply H1.
  exact (full_key_inj _ _ _ E).
Qed.

(** What a successful batch of never-expiring writes leaves behind. *)
Lemma batchSet_items storage o :
  write_flag storage o = opt_encrypt (options storage) ->
  effective_expires storage o = None ->
  forall items w,
    json_value (JObj items) = true ->
    batch_written storage items o w ->
    Forall (fun kv => item_in storage
                        (entries (storage_of storage (snd (batchSet storage items o w))))
                        (fst kv) (snd kv)) items.
Proof.
  intros F N. induction items as [|[k v] items IH]; intros w J B; [constructor|].
  cbn [json_value forallb fst snd nodup_keys] in J.
  apply andb_true_iff in J as [J ND]. apply andb_true_iff in J as [Jk J].
  apply andb_true_iff in Jk as [_ Jv]. apply andb_true_iff in ND as [Fr ND].
  apply negb_true_iff in Fr.
  cbn [batch_written fst snd] in B. destruct B as [S B].
  rewrite batchSet_cons. cbn [fst snd]. constructor.
  - cbn [fst snd]. unfold item_in.
    rewrite (batchSet_lookup_other _ _ _ _ _ (own_key_existsb storage k items Fr)).
    assert (S' : set storage k v o w = (Ok true, snd (set storage k v o w))).
    { destruct (set storage k v o w) as [r w1]. cbn [fst snd] in *. now subst. }
    destruct (set_success _ _ _ _ _ _ S') as (t & E & _ & L).
    destruct (decode_after_set _ _ _ _ _ Jv F E) as (D & T).
    exists (text_of t), (now (clock (after_expiry storage o w))).
    split; [exact L|]. split; [exact T|]. rewrite D. unfold expires_for.
    now rewrite N.
  - apply IH; [|exact B]. cbn [json_value]. now rewrite J, ND.
Qed.

(** [get] on a never-expiring envelope. *)
Lemma get_item_in this key g w v :
  item_in this (entries (storage_of this w)) key v ->
  fst (get this key g w) = Ok (deepClone v)
  /\ entries (storage_of this (snd (get this key g w))) = entries (storage_of this w).
Proof.
  intros (text & created & L & T & D).
  rewrite (get_run _ _ _ _ _ L T). cbv zeta. rewrite D.
  change (has_value (envelope v JNull created)) with true. cbv iota.
  change (js_get (envelope v JNull created) (lit "expires")) with JNull.
  change (js_get (envelope v JNull created) (lit "value")) with v.
  cbn [expired_at fst snd]. split; [reflexivity|].
  now rewrite storage_of_emitted, entries_noted.
Qed.

Lemma batchGet_loop storage g l0 : forall (items : props) w acc,
  entries (storage_of storage w) = l0 ->
  Forall (fun kv => item_in storage l0 (fst kv) (snd kv)) items ->
  fst (for_all (map fst items) (fun key =>
         v <- global (get storage key g) ;;
         assign (fun result => prop_assign result key v)) (w, acc))
  = Ok tt
  /\ snd (snd (for_all (map fst items) (fun key =>
         v <- global (get storage key g) ;;
         assign (fun result => prop_assign result key v)) (w, acc)))
     = fold_left (fun r kv => prop_assign r (fst kv) (deepClone (snd kv))) items acc.
Proof.
  induction items as [|[k v] items IH]; intros w acc E F; [now split|].
  inversion F as [|? ? Hk Hr]; subst. cbn [fst snd] in Hk.
  destruct (get_item_in storage k g w v Hk) as [G Ge].
  cbn [map for_all fst snd fold_left].
  unfold bind at 1. unfold bind at 1. rewrite global_run, G. cbn [fst snd].
  unfold bind at 2. unfold bind at 2. rewrite global_run, G. cbn [fst snd].
  unfold assign at 1. unfold assign at 2. cbn [fst snd].
  apply IH; [exact Ge|exact Hr].
Qed.

(** X14.  A batch read returns a batch write: when [items] is a JSON
    object, every write of [batchSet(items)] succeeds, is made with the
    engine's own obfuscation flag and carries no duration, then
    [batchGet] of the keys of [items] returns an object equal to
    [items]. *)
Theorem batchSet_then_batchGet storage items o g w :
  json_value (JObj items) = true ->
  write_flag storage o = opt_encrypt (options storage) ->
  effective_expires storage o = None ->
  batch_written storage items o w ->
  fst (batchGet storage (map fst items) g (snd (batchSet storage items o w)))
  = Ok items.
Proof.
  intros J F N B.
  pose proof (batchSet_items storage o F N items w J B) as I.
  destruct (batchGet_loop storage g _ items (snd (batchSet storage items o w)) []
              eq_refl I) as [R A].
  unfold batchGet, block. unfold bind at 1.
  destruct (for_all _ _ _) as [r [w' acc]]. cbn [fst snd] in *. subst r acc.
  cbn [local fst snd].
  pose proof (deepClone_json (JObj items) J) as C. cbn [deepClone] in C.
  now injection C as ->.
Qed.

Lemma batchSet_then_batchGet_witness :
  let items := [(lit "a", JNum (Int 1)); (lit "b", JArr [JStr (lit "x"); JNull])] in
  fst (batchGet encrypting_engine [lit "a"; lit "b"] no_get_options
         (snd (batchSet encrypting_engine items no_set_options (world_at 1000 []))))
  = Ok items.
Proof.
  cbv zeta.
  apply (batchSet_then_batchGet encrypting_engine
           [(lit "a", JNum (Int 1)); (lit "b", JArr [JStr (lit "x"); JNull])]
           no_set_options no_get_options (world_at 1000 [])).
  - reflexivity.
  - reflexivity.
  - reflexivity.
  - split; [vm_compute; reflexivity|]. split; [vm_compute; reflexivity|exact I].
Defined.

(** ** The scans while time stands still *)

Lemma steady_refl this w : steady this w w.
Proof. now split. Qed.

Lemma steady_noted this w0 w c : steady this w0 w -> steady this w0 (noted this c w).
Proof.
  intros (E & C & D). split; [|split].
  - now rewrite entries_noted.
  - now rewrite clock_noted.
  - now rewrite delivered_noted.
Qed.

Lemma tick_standing c : later c = [] -> tick c = c.
Proof. intros H. unfold tick. now rewrite H. Qed.

Lemma steady_ticked this w0 w :
  later (clock w0) = [] -> steady this w0 w -> steady this w0 (ticked w).
Proof.
  intros S (E & C & D). split; [|split].
  - now rewrite entries_ticked.
  - rewrite clock_ticked, C. now apply tick_standing.
  - now rewrite delivered_ticked.
Qed.

Lemma steady_isExpired this w0 w e :
  later (clock w0) = [] -> steady this w0 w ->
  isExpired e w = (expired_at (now (clock w0)) e, snd (isExpired e w))
  /\ steady this w0 (snd (isExpired e w)).
Proof.
  intros S H. rewrite isExpired_run. cbn [snd]. destruct H as (E & C & D).
  rewrite C. split; [reflexivity|].
  destruct e; try (now split); apply steady_ticked; try exact S; now split.
Qed.

(** One turn of [clearExpired]. *)
Lemma sweep_turn_run this w0 i w n acc kv :
  later (clock w0) = [] -> steady this w0 w ->
  nth_error (entries (storage_of this w0)) i = Some kv ->
  raises_at this (now (clock w0)) (scan_text this (entries (storage_of this w0)) (fst kv))
  = false ->
  exists w',
    sweep_turn this i (w, (n, acc))
    = (Ok tt, (w', (n, acc ++ if swept this (now (clock w0))
                                      (entries (storage_of this w0)) kv
                              then [fst kv] else [])))
    /\ steady this w0 w'.
Proof.
  intros S H N R. pose proof H as (E & C & D).
  unfold sweep_turn. unfold bind at 1. rewrite global_run, storage_key_run.
  cbn [fst snd]. rewrite E, N. cbn [option_map].
  pose proof (scan_guard this (entries (storage_of this w0)) (fst kv)) as G.
  unfold swept, counted. 
  destruct (scan_text this (entries (storage_of this w0)) (fst kv)) as [|c d] eqn:X.
  - cbn [andb]. rewrite (app_nil_r acc). destruct G as [G|G].
    + rewrite G. cbn [negb]. eexists. split; [reflexivity|now apply steady_noted].
    + destruct (prefixed this (Some (fst kv))); cbn [negb].
      * unfold bind at 1. rewrite global_run, storage_getItem_run. cbn [fst snd option_or].
        rewrite entries_noted, E, G. eexists. split; [reflexivity|].
        now apply steady_noted, steady_noted.
      * eexists. split; [reflexivity|now apply steady_noted].
  - destruct G as [P L]. rewrite P. cbn [negb andb].
    unfold bind at 1. rewrite global_run, storage_getItem_run. cbn [fst snd option_or].
    rewrite entries_noted, E, L. cbn [no_data]. cbv zeta.
    change (@Some (list BinNums.N) (c :: d)) with (@Some jsstring (c :: d)).
    fold (has_expires (decode this (@Some jsstring (c :: d)))).
    unfold gone_at, raises_at, expiry_in in *.
    destruct (has_expires (decode this (@Some jsstring (c :: d)))).
    2:{ cbv iota. rewrite app_nil_r. eexists. split; [reflexivity|].
        now apply steady_noted, steady_noted. }
    assert (H2 : steady this w0 (noted this (CallGetItem (fst kv))
                                   (noted this (CallKey i) w)))
      by now apply steady_noted, steady_noted.
    destruct (steady_isExpired this w0 _
                (js_get (decode this (@Some jsstring (c :: d))) (lit "expires")) S H2)
      as [I H3].
    unfold bind at 1. rewrite global_run, I. cbn [fst snd].
    destruct (expired_at _ _) as [[|]|e]; [| |discriminate]; cbv iota.
    + eexists. split; [reflexivity|exact H3].
    + rewrite app_nil_r. eexists. split; [reflexivity|exact H3].
Qed.

(** The scan of [clearExpired] over the entries [rest] found from the
    index [from] on. *)
Lemma sweep_scan this w0 :
  later (clock w0) = [] ->
  forall rest from w n acc,
    (forall j, j < List.length rest ->
       nth_error (entries (storage_of this w0)) (from + j) = nth_error rest j) ->
    (forall kv, In kv rest ->
       raises_at this (now (clock w0))
         (scan_text this (entries (storage_of this w0)) (fst kv)) = false) ->
    steady this w0 w ->
    exists w',
      for_each (List.length rest) from (sweep_turn this) (w, (n, acc))
      = (Ok tt, (w', (n, acc ++ map fst (filter (swept this (now (clock w0))
                                             (entries (storage_of this w0))) rest))))
      /\ steady this w0 w'.
Proof.
  intros St. induction rest as [|kv rest IH]; intros from w n acc Nth R H.
  - exists w. cbn. now rewrite app_nil_r.
  - assert (N0 : nth_error (entries (storage_of this w0)) from = Some kv).
    { specialize (Nth 0 ltac:(cbn; lia)). now rewrite Nat.add_0_r in Nth. }
    destruct (sweep_turn_run this w0 from w n acc kv St H N0 (R kv (or_introl eq_refl)))
      as (w1 & T & H1).
    cbn [List.length for_each]. rewrite (bind_ok _ _ _ _ _ T).
    destruct (IH (S from) w1 n
                (acc ++ if swept this (now (clock w0)) (entries (storage_of this w0)) kv
                        then [fst kv] else [])) as (w2 & T2 & H2).
    + intros j Hj. specialize (Nth (S j) ltac:(cbn; lia)).
      now rewrite Nat.add_succ_r in Nth.
    + intros kv' I. apply R. now right.
    + exact H1.
    + exists w2. split; [|exact H2]. rewrite T2. cbn [filter].
      destruct (swept _ _ _ kv); cbn [map app]; now rewrite <- app_assoc.
Qed.

Lemma delivered_removed_all this l : forall w,
  delivered (removed_all this l w) = delivered w.
Proof.
  induction l as [|k l IH]; intros w; [reflexivity|].
  cbn [removed_all fold_left]. fold (removed_all this l (removed this k w)).
  now rewrite IH, delivered_removed.
Qed.

Lemma clock_removed_all this l : forall w, clock (removed_all this l w) = clock w.
Proof.
  induction l as [|k l IH]; intros w; [reflexivity|].
  cbn [removed_all fold_left]. fold (removed_all this l (removed this k w)).
  now rewrite IH, clock_removed.
Qed.

(** The removals of [clearExpired]. *)
Lemma sweep_removals this l : forall w n (x : list jsstring),
  for_all l (fun key =>
     global (storage_removeItem this key) ;;;
     assign (fun l : nat * list jsstring => (S (fst l), snd l))) (w, (n, x))
  = (Ok tt, (removed_all this l w, (List.length l + n, x))).
Proof.
  induction l as [|k l IH]; intros w n x; [reflexivity|].
  cbn [for_all]. unfold bind at 1. unfold bind at 1. rewrite global_run.
  rewrite storage_removeItem_run. cbn [fst snd]. unfold assign at 1. cbn [fst snd].
  rewrite IH. cbn [List.length]. replace (List.length l + S n) with (S (List.length l) + n) by lia.
  reflexivity.
Qed.

Lemma existsb_swept this t l0 kv :
  In kv l0 ->
  existsb (fun k => str_eqb k (fst kv)) (map fst (filter (swept this t l0) l0))
  = swept this t l0 kv.
Proof.
  intros H. destruct (swept this t l0 kv) eqn:P.
  - apply existsb_exists. exists (fst kv). split; [|apply str_eqb_refl].
    apply in_map, filter_In. now split.
  - destruct (existsb _ _) eqn:E; [|reflexivity].
    apply existsb_exists in E as (k & Hk & Ek). apply str_eqb_eq in Ek.
    apply in_map_iff in Hk as (kv' & F & Hk).
    apply filter_In in Hk as [_ Hk]. unfold swept, counted in *.
    rewrite <- Ek, <- F in P. congruence.
Qed.

(** [clearExpired] while time stands still and every expiry compares. *)
Lemma clearExpired_run this w :
  later (clock w) = [] ->
  comparable this (now (clock w)) (entries (storage_of this w)) ->
  let gone := filter (swept this (now (clock w)) (entries (storage_of this w)))
                     (entries (storage_of this w)) in
  exists w1,
    steady this w w1
    /\ clearExpired this w
       = (Ok (List.length gone),
          match gone with
          | [] => removed_all this [] w1
          | _ => emitted this EvExpired no_payload (removed_all this (map fst gone) w1)
          end).
Proof.
  intros St Cm. cbv zeta.
  destruct (sweep_scan this w St (entries (storage_of this w)) 0 w 0 []
              (fun j _ => eq_refl) Cm (steady_refl this w)) as (w1 & T & H).
  exists w1. split; [exact H|].
  unfold clearExpired. fold (sweep_turn this). unfold block, try_catch.
  unfold bind at 1. rewrite global_run. cbn [storage_length fst snd].
  unfold bind at 1. rewrite T. cbn [app].
  unfold bind at 1. cbn [local fst snd].
  unfold bind at 1. rewrite sweep_removals. rewrite Nat.add_0_r, length_map.
  unfold bind at 1. cbn [local fst snd].
  destruct (filter _ _) as [|kv gone] eqn:G; cbn [List.length Nat.ltb Nat.leb].
  - reflexivity.
  - unfold bind at 1. rewrite global_run, emit_run. reflexivity.
Qed.

Lemma entries_removed_all_steady this w0 w1 l :
  steady this w0 w1 ->
  entries (storage_of this (removed_all this l w1))
  = fold_left (fun e k => erase k e) l (entries (storage_of this w0)).
Proof. intros (E & _ & _). now rewrite entries_removed_all, E. Qed.

Lemma lookup_filter_keys (P : jsstring -> bool) k l :
  lookup k (filter (fun kv => P (fst kv)) l) = if P k then lookup k l else None.
Proof.
  induction l as [|[k' v] l IH]; cbn [filter lookup fst]; [now destruct (P k)|].
  destruct (P k') eqn:Pk'; cbn [lookup].
  - destruct (str_eqb k k') eqn:E; [|exact IH].
    apply str_eqb_eq in E. subst. now rewrite Pk'.
  - destruct (str_eqb k k') eqn:E; [|exact IH].
    apply str_eqb_eq in E. subst. rewrite IH. now rewrite Pk'.
Qed.

Lemma clearExpired_result this w :
  later (clock w) = [] ->
  comparable this (now (clock w)) (entries (storage_of this w)) ->
  let l0 := entries (storage_of this w) in
  let gone := filter (swept this (now (clock w)) l0) l0 in
  fst (clearExpired this w) = Ok (List.length gone)
  /\ entries (storage_of this (snd (clearExpired this w)))
     = filter (fun kv => negb (swept this (now (clock w)) l0 kv)) l0
  /\ delivered (snd (clearExpired this w))
     = delivered w ++
       match gone with
       | [] => []
       | _ => deliveries {| ev_type := EvExpired; ev_key := None; ev_value := None;
                            ev_timestamp := now (clock w) |}
                         (registered this EvExpired)
       end.
Proof.
  intros St Cm. cbv zeta.
  destruct (clearExpired_run this w St Cm) as (w1 & H & R). cbv zeta in R.
  rewrite R. cbn [fst snd]. split; [reflexivity|].
  pose proof H as (E & C & D).
  destruct (filter _ _) as [|kv gone] eqn:G.
  - cbn [removed_all fold_left]. rewrite E, D, app_nil_r. split; [|reflexivity].
    symmetry. apply filter_all. apply forallb_forall. intros kv I.
    destruct (swept _ _ _ kv) eqn:X; [|reflexivity].
    assert (F : In kv (filter (swept this (now (clock w)) (entries (storage_of this w)))
                         (entries (storage_of this w)))) by (apply filter_In; now split).
    rewrite G in F. destruct F.
  - rewrite storage_of_emitted, (entries_removed_all_steady this w w1 _ H), erase_all.
    split.
    + rewrite <- G. apply filter_ext_in. intros kv' I. now rewrite existsb_swept.
    + rewrite delivered_emitted, delivered_removed_all, clock_removed_all, D, C.
      reflexivity.
Qed.

Lemma lookup_after_sweep this t l0 kv :
  lookup (fst kv) (filter (fun kv => negb (swept this t l0 kv)) l0)
  = if swept this t l0 kv then None else lookup (fst kv) l0.
Proof.
  change (fun kv => negb (swept this t l0 kv))
    with (fun kv : jsstring * jsstring =>
            (fun k' => negb (swept this t l0 (k', []))) (fst kv)).
  rewrite lookup_filter_keys.
  change (swept this t l0 (fst kv, [])) with (swept this t l0 kv).
  now destruct (swept this t l0 kv).
Qed.

(** X15.  [clearExpired] while the clock stands still, on a namespace in
    which every stored expiry can be compared with the clock: it removes
    exactly the entries that carry the prefix, have a non-empty text that
    decodes to an object with an [expires] field, and whose expiry is in
    the past; it returns their number; it calls the listeners of
    [expired] once, with no key, when that number is not zero; and
    afterwards [getItem] finds nothing under a removed key and the same
    text as before under every other. *)
Theorem clearExpired_exact this w :
  later (clock w) = [] ->
  comparable this (now (clock w)) (entries (storage_of this w)) ->
  let l0 := entries (storage_of this w) in
  let gone := filter (swept this (now (clock w)) l0) l0 in
  fst (clearExpired this w) = Ok (List.length gone)
  /\ entries (storage_of this (snd (clearExpired this w)))
     = filter (fun kv => negb (swept this (now (clock w)) l0 kv)) l0
  /\ delivered (snd (clearExpired this w))
     = delivered w ++
       match gone with
       | [] => []
       | _ => deliveries {| ev_type := EvExpired; ev_key := None; ev_value := None;
                            ev_timestamp := now (clock w) |}
                         (registered this EvExpired)
       end
  /\ (forall kv, In kv l0 ->
        lookup (fst kv) (entries (storage_of this (snd (clearExpired this w))))
        = if swept this (now (clock w)) l0 kv then None else lookup (fst kv) l0).
Proof.
  intros St Cm. cbv zeta.
  destruct (clearExpired_result this w St Cm) as (R & E & D). cbv zeta in R, E, D.
  split; [exact R|]. split; [exact E|]. split; [exact D|].
  intros kv _. rewrite E. apply lookup_after_sweep.
Qed.

Lemma clearExpired_exact_witness :
  let this := on plain_engine EvExpired 4 in
  let w := world_at 2000
             [(lit "vue-storage-old", jtext "{'value':1,'expires':1500,'created':500}");
              (lit "other", jtext "{'value':2,'expires':1500,'created':500}");
              (lit "vue-storage-new", jtext "{'value':3,'expires':2500,'created':500}");
              (lit "vue-storage-raw", lit "hello")] in
  fst (clearExpired this w) = Ok 1
  /\ map fst (entries (storage_of this (snd (clearExpired this w))))
     = [lit "other"; lit "vue-storage-new"; lit "vue-storage-raw"]
  /\ delivered (snd (clearExpired this w))
     = [(4, {| ev_type := EvExpired; ev_key := None; ev_value := None;
               ev_timestamp := 2000 |})].
Proof.
  cbv zeta.
  destruct (clearExpired_exact (on plain_engine EvExpired 4)
              (world_at 2000
                 [(lit "vue-storage-old", jtext "{'value':1,'expires':1500,'created':500}");
                  (lit "other", jtext "{'value':2,'expires':1500,'created':500}");
                  (lit "vue-storage-new", jtext "{'value':3,'expires':2500,'created':500}");
                  (lit "vue-storage-raw", lit "hello")])
              eq_refl) as (R & E & D & _).
  - intros kv [<-|[<-|[<-|[<-|[]]]]]; vm_compute; reflexivity.
  - split; [exact R|]. split; [now rewrite E|exact D].
Defined.

(** One turn of [getStats]. *)
Lemma stats_turn_run this w0 i w s kv :
  later (clock w0) = [] -> steady this w0 w ->
  nth_error (entries (storage_of this w0)) i = Some kv ->
  raises_at this (now (clock w0)) (scan_text this (entries (storage_of this w0)) (fst kv))
  = false ->
  exists w',
    stats_turn this i (w, s)
    = (Ok tt, (w', tally this (now (clock w0)) (entries (storage_of this w0)) s kv))
    /\ steady this w0 w'.
Proof.
  intros St H N R. pose proof H as (E & C & D).
  unfold stats_turn. unfold bind at 1. rewrite global_run, storage_key_run.
  cbn [fst snd]. rewrite E, N. cbn [option_map].
  pose proof (scan_guard this (entries (storage_of this w0)) (fst kv)) as G.
  unfold tally.
  destruct (scan_text this (entries (storage_of this w0)) (fst kv)) as [|c d] eqn:X.
  - destruct G as [G|G].
    + rewrite G. cbn [negb]. eexists. split; [reflexivity|now apply steady_noted].
    + destruct (prefixed this (Some (fst kv))); cbn [negb].
      * unfold bind at 1. rewrite global_run, storage_getItem_run. cbn [fst snd option_or].
        rewrite entries_noted, E, G. eexists. split; [reflexivity|].
        now apply steady_noted, steady_noted.
      * eexists. split; [reflexivity|now apply steady_noted].
  - destruct G as [P L]. rewrite P. cbn [negb].
    unfold bind at 1. rewrite global_run, storage_getItem_run. cbn [fst snd option_or].
    rewrite entries_noted, E, L. cbn [no_data].
    unfold bind at 1. unfold assign at 1. cbn [fst snd option_or]. cbv zeta.
    change (@Some (list BinNums.N) (c :: d)) with (@Some jsstring (c :: d)).
    fold (has_expires (decode this (@Some jsstring (c :: d)))).
    unfold gone_at, raises_at, expiry_in in *.
    assert (H2 : steady this w0 (noted this (CallGetItem (fst kv))
                                   (noted this (CallKey i) w)))
      by now apply steady_noted, steady_noted.
    destruct (has_expires (decode this (@Some jsstring (c :: d)))).
    2:{ cbv iota. eexists. split; [reflexivity|exact H2]. }
    destruct (steady_isExpired this w0 _
                (js_get (decode this (@Some jsstring (c :: d))) (lit "expires")) St H2)
      as [I H3].
    unfold bind at 1. rewrite global_run, I. cbn [fst snd].
    destruct (expired_at _ _) as [[|]|e]; [| |discriminate]; cbv iota;
      (eexists; split; [reflexivity|exact H3]).
Qed.

Lemma stats_scan this w0 :
  later (clock w0) = [] ->
  forall rest from w s,
    (forall j, j < List.length rest ->
       nth_error (entries (storage_of this w0)) (from + j) = nth_error rest j) ->
    (forall kv, In kv rest ->
       raises_at this (now (clock w0))
         (scan_text this (entries (storage_of this w0)) (fst kv)) = false) ->
    steady this w0 w ->
    exists w',
      for_each (List.length rest) from (stats_turn this) (w, s)
      = (Ok tt, (w', fold_left (tally this (now (clock w0)) (entries (storage_of this w0)))
                               rest s))
      /\ steady this w0 w'.
Proof.
  intros St. induction rest as [|kv rest IH]; intros from w s Nth R H.
  - exists w. now split.
  - assert (N0 : nth_error (entries (storage_of this w0)) from = Some kv).
    { specialize (Nth 0 ltac:(cbn; lia)). now rewrite Nat.add_0_r in Nth. }
    destruct (stats_turn_run this w0 from w s kv St H N0 (R kv (or_introl eq_refl)))
      as (w1 & T & H1).
    cbn [List.length for_each]. rewrite (bind_ok _ _ _ _ _ T).
    destruct (IH (S from) w1
                (tally this (now (clock w0)) (entries (storage_of this w0)) s kv))
      as (w2 & T2 & H2).
    + intros j Hj. specialize (Nth (S j) ltac:(cbn; lia)).
      now rewrite Nat.add_succ_r in Nth.
    + intros kv' I. apply R. now right.
    + exact H1.
    + exists w2. split; [|exact H2]. now rewrite T2.
Qed.

(** The counts after the entries [l]. *)
Lemma tally_counts this t l0 l : forall s,
  let s' := fold_left (tally this t l0) l s in
  total s' = total s + List.length (filter (counted this l0) l)
  /\ expired s' = expired s + List.length (filter (swept this t l0) l)
  /\ valid s' = valid s
                + List.length (filter (fun kv => counted this l0 kv
                                                 && negb (swept this t l0 kv)) l)
  /\ usedBytes s' = usedBytes s
                    + list_sum (map (weight this l0) (filter (counted this l0) l)).
Proof.
  induction l as [|kv l IH]; intros s; cbv zeta.
  - cbn. repeat split; lia.
  - cbn [fold_left filter]. specialize (IH (tally this t l0 s kv)). cbv zeta in IH.
    destruct IH as (A & B & C & D). rewrite A, B, C, D. clear A B C D.
    unfold tally, swept, counted, weight.
    destruct (scan_text this l0 (fst kv)) as [|c d] eqn:X.
    + cbn [andb]. repeat split; reflexivity.
    + cbn [andb]. destruct (gone_at this t (c :: d)); cbn [negb];
        cbn [List.length map total expired valid usedBytes
             count_entry count_expired count_valid];
        rewrite ?X; cbn [List.length];
        change (list_sum (?a :: ?l)) with (a + list_sum l);
        repeat split; lia.
Qed.

Lemma getStats_result this w :
  later (clock w) = [] ->
  comparable this (now (clock w)) (entries (storage_of this w)) ->
  let l0 := entries (storage_of this w) in
  exists s,
    fst (getStats this w) = Ok s
    /\ total s = List.length (filter (counted this l0) l0)
    /\ expired s = List.length (filter (swept this (now (clock w)) l0) l0)
    /\ valid s = List.length (filter (fun kv => counted this l0 kv
                                && negb (swept this (now (clock w)) l0 kv)) l0)
    /\ usedBytes s = list_sum (map (weight this l0) (filter (counted this l0) l0))
    /\ entries (storage_of this (snd (getStats this w))) = l0
    /\ delivered (snd (getStats this w)) = delivered w.
Proof.
  intros St Cm. cbv zeta.
  destruct (stats_scan this w St (entries (storage_of this w)) 0 w no_stats
              (fun j _ => eq_refl) Cm (steady_refl this w)) as (w1 & T & (E & _ & D)).
  assert (R : getStats this w
              = (Ok (fold_left (tally this (now (clock w)) (entries (storage_of this w)))
                               (entries (storage_of this w)) no_stats), w1)).
  { unfold getStats. fold (stats_turn this). fold no_stats. unfold block, try_catch.
    unfold bind at 1. unfold bind at 1. rewrite global_run. cbn [storage_length fst snd].
    rewrite T. reflexivity. }
  rewrite R. cbn [fst snd]. eexists. split; [reflexivity|].
  destruct (tally_counts this (now (clock w)) (entries (storage_of this w))
              (entries (storage_of this w)) no_stats) as (A & B & C & U).
  now rewrite A, B, C, U, E, D.
Qed.

(** X16.  [getStats] while the clock stands still, on a namespace in
    which every stored expiry can be compared with the clock: [total]
    counts the entries that carry the prefix and have a non-empty text,
    [expired] those among them that [clearExpired] would remove, [valid]
    the others, so that [total = expired + valid], and [usedBytes] adds
    up the UTF-16 code units of their full keys and texts; no entry
    changes and no listener is called. *)
Theorem getStats_exact this w :
  later (clock w) = [] ->
  comparable this (now (clock w)) (entries (storage_of this w)) ->
  let l0 := entries (storage_of this w) in
  exists s,
    fst (getStats this w) = Ok s
    /\ total s = List.length (filter (counted this l0) l0)
    /\ expired s = List.length (filter (swept this (now (clock w)) l0) l0)
    /\ valid s = List.length (filter (fun kv => counted this l0 kv
                                && negb (swept this (now (clock w)) l0 kv)) l0)
    /\ usedBytes s = list_sum (map (weight this l0) (filter (counted this l0) l0))
    /\ entries (storage_of this (snd (getStats this w))) = l0
    /\ delivered (snd (getStats this w)) = delivered w
    /\ total s = expired s + valid s.
Proof.
  intros St Cm. cbv zeta.
  destruct (getStats_result this w St Cm) as (s & Gs & A & B & C & U & E & D).
  cbv zeta in A, B, C, U, E, D. exists s.
  repeat (split; [assumption|]).
  rewrite A, B, C. apply filter_partition_length.
  - intros kv _. unfold swept. destruct (counted this _ kv), (gone_at this _ _); reflexivity.
  - intros kv _. unfold swept. destruct (counted this _ kv), (gone_at this _ _); reflexivity.
Qed.

Lemma getStats_exact_witness :
  let w := world_at 2000
             [(lit "vue-storage-old", jtext "{'value':1,'expires':1500,'created':500}");
              (lit "other", jtext "{'value':2,'expires':1500,'created':500}");
              (lit "vue-storage-new", jtext "{'value':3,'expires':2500,'created':500}");
              (lit "vue-storage-raw", lit "hello")] in
  fst (getStats plain_engine w)
  = Ok {| total := 3; expired := 1; valid := 2; usedBytes := 130 |}.
Proof.
  cbv zeta.
  destruct (getStats_exact plain_engine
              (world_at 2000
                 [(lit "vue-storage-old", jtext "{'value':1,'expires':1500,'created':500}");
                  (lit "other", jtext "{'value':2,'expires':1500,'created':500}");
                  (lit "vue-storage-new", jtext "{'value':3,'expires':2500,'created':500}");
                  (lit "vue-storage-raw", lit "hello")])
              eq_refl) as (s & R & A & B & C & U & _).
  - intros kv [<-|[<-|[<-|[<-|[]]]]]; vm_compute; reflexivity.
  - rewrite R. destruct s as [a b c u]. cbn [total expired valid usedBytes] in *.
    subst. vm_compute. reflexivity.
Defined.

(** *** [keys] *)

Lemma live_at_empty this t : live_at this t [] = false.
Proof. unfold live_at, expiry_in. now rewrite decode_empty. Qed.

(** [has] on a key found by a scan, when it has nothing to remove. *)
Lemma has_steady this w0 w k :
  later (clock w0) = [] -> steady this w0 w ->
  prefixed this (Some k) = true ->
  gone_at this (now (clock w0)) (scan_text this (entries (storage_of this w0)) k) = false ->
  exists w',
    has this (skipn (List.length (opt_prefix (options this))) k) w
    = (Ok (live_at this (now (clock w0)) (scan_text this (entries (storage_of this w0)) k)),
       w')
    /\ steady this w0 w'.
Proof.
  intros St H P G. pose proof H as (E & C & D).
  assert (F : getFullKey this (skipn (List.length (opt_prefix (options this))) k) = k).
  { unfold getFullKey. apply startsWith_skipn. now apply (prefixed_in_scope this (Some k)). }
  unfold scan_text in *. rewrite P in *.
  destruct (lookup k (entries (storage_of this w0))) as [[|c d]|] eqn:L; cbn [option_or] in *.
  - rewrite has_absent by (now rewrite F, E, L). rewrite live_at_empty, F.
    eexists. split; [reflexivity|now apply steady_noted].
  - rewrite <- E, <- F in L.
    rewrite (has_run _ _ _ _ L ltac:(discriminate)). cbv zeta. rewrite F, C.
    unfold gone_at, live_at, expiry_in in *.
    change (@Some (list BinNums.N) (c :: d)) with (@Some jsstring (c :: d)) in *.
    destruct (has_expires (decode this (@Some jsstring (c :: d)))).
    2:{ eexists. split; [reflexivity|now apply steady_noted]. }
    destruct (expired_at _ _) as [[|]|e]; [discriminate| |].
    + eexists. split; [reflexivity|].
      destruct (js_get _ _); try apply steady_ticked; try exact St; now apply steady_noted.
    + eexists. split; [reflexivity|]. apply steady_ticked; [exact St|].
      now apply steady_noted.
  - rewrite has_absent by (now rewrite F, E, L). rewrite live_at_empty, F.
    eexists. split; [reflexivity|now apply steady_noted].
Qed.

Lemma kept_not_gone this t l0 kv :
  swept this t l0 kv = false -> gone_at this t (scan_text this l0 (fst kv)) = false.
Proof.
  intros S. destruct (gone_at this t (scan_text this l0 (fst kv))) eqn:G; [|reflexivity].
  unfold swept, counted in S. rewrite G, andb_true_r in S.
  destruct (scan_text this l0 (fst kv)) eqn:X; [|discriminate].
  unfold gone_at, expiry_in in G. now rewrite decode_empty in G.
Qed.

Lemma keys_scan this w0 :
  later (clock w0) = [] ->
  forall rest from w acc,
    from + List.length rest = List.length (entries (storage_of this w0)) ->
    (forall j, j < List.length rest ->
       nth_error (entries (storage_of this w0)) (from + j) = nth_error rest j) ->
    (forall kv, In kv rest ->
       swept this (now (clock w0)) (entries (storage_of this w0)) kv = false) ->
    steady this w0 w ->
    exists w',
      keys_loop this (List.length rest) from (w, acc)
      = (Ok tt, (w', acc ++ map (logical_key this)
                         (filter (known this (now (clock w0))
                                    (entries (storage_of this w0))) rest)))
      /\ steady this w0 w'.
Proof.
  intros St. induction rest as [|kv rest IH]; intros from w acc Len Nth Sw H.
  - exists w. cbn. now rewrite app_nil_r.
  - assert (N0 : nth_error (entries (storage_of this w0)) from = Some kv).
    { specialize (Nth 0 ltac:(cbn; lia)). now rewrite Nat.add_0_r in Nth. }
    pose proof H as (E & C & D).
    cbn [List.length keys_loop]. unfold bind at 1. rewrite global_run.
    cbn [storage_length fst snd]. rewrite E.
    replace (from <? List.length (entries (storage_of this w0))) with true
      by (symmetry; apply Nat.ltb_lt; cbn [List.length] in Len; lia).
    unfold bind at 1. rewrite global_run, storage_key_run. cbn [fst snd].
    rewrite E, N0. cbn [option_map option_or].
    assert (H1 : steady this w0 (noted this (CallKey from) w)) by now apply steady_noted.
    assert (Next : forall w1 acc1, steady this w0 w1 ->
              exists w',
                keys_loop this (List.length rest) (S from) (w1, acc1)
                = (Ok tt, (w', acc1 ++ map (logical_key this)
                                   (filter (known this (now (clock w0))
                                              (entries (storage_of this w0))) rest)))
                /\ steady this w0 w').
    { intros w1 acc1 Hw1. apply IH; [cbn [List.length] in Len; lia| | |exact Hw1].
      - intros j Hj. specialize (Nth (S j) ltac:(cbn; lia)).
        now rewrite Nat.add_succ_r in Nth.
      - intros kv' I. apply Sw. now right. }
    specialize (Sw kv (or_introl eq_refl)).
    cbn [filter]. unfold known at 1, counted at 1. unfold swept, counted in Sw.
    pose proof (scan_guard this (entries (storage_of this w0)) (fst kv)) as G.
    destruct (prefixed this (Some (fst kv))) eqn:P.
    + assert (Gn : gone_at this (now (clock w0))
                     (scan_text this (entries (storage_of this w0)) (fst kv)) = false).
      { destruct (scan_text this (entries (storage_of this w0)) (fst kv)) eqn:X;
          [|exact Sw].
        unfold gone_at, expiry_in. now rewrite decode_empty. }
      destruct (has_steady this w0 _ (fst kv) St H1 P Gn) as (w2 & Hs & H2).
      unfold bind at 1. unfold bind at 1. rewrite global_run, Hs. cbn [fst snd].
      destruct (scan_text this (entries (storage_of this w0)) (fst kv)) as [|c d] eqn:X.
      * rewrite live_at_empty. cbn [andb]. unfold ret. cbv iota.
        apply Next, H2.
      * cbn [andb]. destruct (live_at this (now (clock w0)) (c :: d)).
        -- unfold assign at 1. cbn [fst snd].
           destruct (Next w2 (acc ++ [logical_key this kv]) H2) as (w3 & T & H3).
           exists w3. split; [|exact H3]. refine (eq_trans T _).
           cbn [map]. now rewrite <- app_assoc.
        -- unfold ret. cbv iota. apply Next, H2.
    + unfold bind at 1. unfold ret at 1. cbv iota.
      assert (X : scan_text this (entries (storage_of this w0)) (fst kv) = []).
      { unfold scan_text. now rewrite P. }
      rewrite X. cbn [andb]. apply Next, H1.
Qed.

Lemma keys_result this w :
  later (clock w) = [] ->
  (forall kv, In kv (entries (storage_of this w)) ->
     swept this (now (clock w)) (entries (storage_of this w)) kv = false) ->
  let l0 := entries (storage_of this w) in
  fst (keys this w)
  = Ok (map (logical_key this) (filter (known this (now (clock w)) l0) l0))
  /\ entries (storage_of this (snd (keys this w))) = l0
  /\ delivered (snd (keys this w)) = delivered w.
Proof.
  intros St Sw. cbv zeta.
  destruct (keys_scan this w St (entries (storage_of this w)) 0 w []
              eq_refl (fun j _ => eq_refl) Sw (steady_refl this w))
    as (w1 & T & (E & _ & D)).
  assert (R : keys this w
              = (Ok (map (logical_key this)
                       (filter (known this (now (clock w)) (entries (storage_of this w)))
                               (entries (storage_of this w)))), w1)).
  { unfold keys, block, try_catch. unfold bind at 1. unfold bind at 1.
    rewrite global_run. cbn [storage_length fst snd]. rewrite T. reflexivity. }
  rewrite R. cbn [fst snd]. now rewrite E, D.
Qed.

(** [has] answers [true] for the keys a standing scan knows. *)
Lemma has_known this w kv :
  later (clock w) = [] ->
  swept this (now (clock w)) (entries (storage_of this w)) kv = false ->
  known this (now (clock w)) (entries (storage_of this w)) kv = true ->
  fst (has this (logical_key this kv) w) = Ok true.
Proof.
  intros St Sw K. unfold known in K. apply andb_true_iff in K as [C L].
  assert (P : prefixed this (Some (fst kv)) = true).
  { unfold counted, scan_text in C. now destruct (prefixed this (Some (fst kv))). }
  destruct (has_steady this w w (fst kv) St (steady_refl this w) P
              (kept_not_gone this _ _ kv Sw)) as (w' & H & _).
  unfold logical_key. now rewrite H, L.
Qed.

(** X17.  [keys] while the clock stands still, on a namespace where
    [clearExpired] would find nothing to remove: it lists, in the order
    of the namespace and without the prefix, the keys of the entries
    that carry the prefix and decode to an object with an [expires]
    field that is not in the past; [has] answers [true] for each key
    listed; no entry changes and no listener is called. *)
Theorem keys_exact this w :
  later (clock w) = [] ->
  (forall kv, In kv (entries (storage_of this w)) ->
     swept this (now (clock w)) (entries (storage_of this w)) kv = false) ->
  let l0 := entries (storage_of this w) in
  fst (keys this w)
  = Ok (map (logical_key this) (filter (known this (now (clock w)) l0) l0))
  /\ entries (storage_of this (snd (keys this w))) = l0
  /\ delivered (snd (keys this w)) = delivered w
  /\ (forall key, In key (map (logical_key this)
                            (filter (known this (now (clock w)) l0) l0)) ->
        fst (has this key w) = Ok true).
Proof.
  intros St Sw. cbv zeta.
  destruct (keys_result this w St Sw) as (K & E & D). cbv zeta in K, E, D.
  split; [exact K|]. split; [exact E|]. split; [exact D|].
  intros key I. apply in_map_iff in I as (kv & <- & I).
  apply filter_In in I as [I Kn]. apply has_known; [exact St|now apply Sw|exact Kn].
Qed.

Lemma keys_exact_witness :
  let w := world_at 2000
             [(lit "vue-storage-a", jtext "{'value':1,'expires':null,'created':500}");
              (lit "other", jtext "{'value':2,'expires':null,'created':500}");
              (lit "vue-storage-b", jtext "{'value':3}");
              (lit "vue-storage-c", jtext "{'value':3,'expires':2500,'created':500}")] in
  fst (keys plain_engine w) = Ok [lit "a"; lit "c"].
Proof.
  cbv zeta.
  refine (proj1 (keys_exact plain_engine
              (world_at 2000
                 [(lit "vue-storage-a", jtext "{'value':1,'expires':null,'created':500}");
                  (lit "other", jtext "{'value':2,'expires':null,'created':500}");
                  (lit "vue-storage-b", jtext "{'value':3}");
                  (lit "vue-storage-c", jtext "{'value':3,'expires':2500,'created':500}")])
              eq_refl _)).
  intros kv [<-|[<-|[<-|[<-|[]]]]]; vm_compute; reflexivity.
Defined.

(** Where there is something to remove, [has] removes it while [keys]
    scans, the entries shift, and the entry that follows is not
    visited. *)
Lemma keys_skips_after_an_eviction :
  fst (keys plain_engine
         (world_at 2000
            [(lit "vue-storage-old", jtext "{'value':1,'expires':1500,'created':500}");
             (lit "vue-storage-new", jtext "{'value':3,'expires':2500,'created':500}")]))
  = Ok []
  /\ fst (has plain_engine (lit "new")
            (world_at 2000
               [(lit "vue-storage-old", jtext "{'value':1,'expires':1500,'created':500}");
                (lit "vue-storage-new", jtext "{'value':3,'expires':2500,'created':500}")]))
     = Ok true.
Proof. split; vm_compute; reflexivity. Qed.

(** *** After a sweep *)

(** The entries left by a sweep read as before, and none of them is to be
    removed. *)
Lemma scan_text_kept this t l0 k :
  let l1 := filter (fun kv => negb (swept this t l0 kv)) l0 in
  gone_at this t (scan_text this l0 k) = false ->
  scan_text this l1 k = scan_text this l0 k.
Proof.
  cbv zeta. intros G.
  assert (L : lookup k (filter (fun kv => negb (swept this t l0 kv)) l0) = lookup k l0).
  { change (fun kv => negb (swept this t l0 kv))
      with (fun kv : jsstring * jsstring =>
              (fun k' => negb (swept this t l0 (k', []))) (fst kv)).
    rewrite lookup_filter_keys. unfold swept. cbn [fst]. now rewrite G, andb_false_r. }
  unfold scan_text. now rewrite L.
Qed.

Lemma swept_after_sweep this t l0 kv :
  let l1 := filter (fun kv => negb (swept this t l0 kv)) l0 in
  In kv l1 -> swept this t l1 kv = false.
Proof.
  cbv zeta. intros I. apply filter_In in I as [_ S]. apply negb_true_iff in S.
  pose proof (kept_not_gone this t l0 kv S) as G.
  unfold swept at 1. rewrite (scan_text_kept this t l0 (fst kv) G), G.
  apply andb_false_r.
Qed.

Lemma comparable_after_sweep this t l0 :
  comparable this t l0 ->
  comparable this t (filter (fun kv => negb (swept this t l0 kv)) l0).
Proof.
  intros C kv I. pose proof I as I'. apply filter_In in I' as [I0 S].
  apply negb_true_iff in S. specialize (C kv I0).
  now rewrite (scan_text_kept this t l0 (fst kv) (kept_not_gone this t l0 kv S)).
Qed.

Lemma clock_after_sweep this w :
  later (clock w) = [] ->
  comparable this (now (clock w)) (entries (storage_of this w)) ->
  clock (snd (clearExpired this w)) = clock w.
Proof.
  intros St Cm. destruct (clearExpired_run this w St Cm) as (w1 & (E & C & D) & R).
  cbv zeta in R. rewrite R. cbn [snd].
  destruct (filter _ _); [exact C|].
  rewrite clock_emitted, clock_removed_all, C.
  destruct (registered this EvExpired); [reflexivity|now apply tick_standing].
Qed.

Lemma filter_none {A} (f : A -> bool) l :
  (forall x, In x l -> f x = false) -> filter f l = [].
Proof.
  induction l as [|a l IH]; intros H; [reflexivity|]. cbn [filter].
  rewrite (H a (or_introl eq_refl)). apply IH. intros x I. apply H. now right.
Qed.

(** The world a sweep leaves: the clock still stands, every expiry still
    compares, and nothing is left to remove. *)
Lemma after_sweep this w :
  later (clock w) = [] ->
  comparable this (now (clock w)) (entries (storage_of this w)) ->
  let w' := snd (clearExpired this w) in
  later (clock w') = []
  /\ comparable this (now (clock w')) (entries (storage_of this w'))
  /\ (forall kv, In kv (entries (storage_of this w')) ->
        swept this (now (clock w')) (entries (storage_of this w')) kv = false).
Proof.
  intros St Cm. cbv zeta.
  destruct (clearExpired_result this w St Cm) as (_ & E & _). cbv zeta in E.
  rewrite (clock_after_sweep this w St Cm), E. split; [exact St|]. split.
  - now apply comparable_after_sweep.
  - intros kv. apply swept_after_sweep.
Qed.



(** *** The constructor *)

Lemma new_WebStorage_run o w :
  new_WebStorage o w
  = (Ok {| options := resolve o; listeners := [] |},
     snd (clearExpired {| options := resolve o; listeners := [] |} w)).
Proof.
  unfold new_WebStorage. unfold bind.
  destruct (clearExpired_total {| options := resolve o; listeners := [] |} w) as [n E].
  destruct (clearExpired _ w) as [r w1]. cbn [fst snd] in *. now rewrite E.
Qed.

(** Computations of the world that call no listener keep the deliveries. *)
Lemma quiet_global {L A} d (m : M World A) :
  (forall w, delivered (snd (m w)) = delivered w) ->
  stable (fun s : World * L => delivered (fst s) = d) (global m).
Proof.
  intros H [w l] D. unfold always. rewrite global_run. cbn [fst snd] in *.
  now rewrite H.
Qed.

Lemma emitted_nobody this type data w : registered this type = [] ->
  emitted this type data w = w.
Proof. intros H. unfold emitted. now rewrite H. Qed.

(** [clearExpired] calls nobody when nobody listens to [expired]. *)
Lemma clearExpired_silent this w :
  registered this EvExpired = [] ->
  delivered (snd (clearExpired this w)) = delivered w.
Proof.
  intros Nobody.
  assert (T : hoare (fun w' => delivered w' = delivered w) (clearExpired this)
                (fun _ w' => delivered w' = delivered w)).
  2:{ now apply (T w). }
  unfold clearExpired. apply hoare_block.
  apply hoare_weaken with
    (P' := fun s : World * (nat * list jsstring) => delivered (fst s) = delivered w)
    (Q' := always (fun s : World * (nat * list jsstring) =>
                     delivered (fst s) = delivered w));
    [|now intros s [H _]|auto].
  assert (Loc : forall A (k : nat * list jsstring -> M (World * (nat * list jsstring)) A),
            (forall l, stable (fun s : World * (nat * list jsstring) =>
                                 delivered (fst s) = delivered w) (k l)) ->
            stable (fun s : World * (nat * list jsstring) =>
                      delivered (fst s) = delivered w) (bind local k)).
  { intros A k H. apply stable_bind; [|exact H]. apply hoare_local. now intros s X. }
  apply stable_try_catch.
  - apply stable_bind; [now apply quiet_global|]. intros n.
    apply stable_bind.
    + apply stable_for_each. intros i.
      apply stable_bind.
      { apply quiet_global. intros w'. rewrite storage_key_run. apply delivered_noted. }
      intros fullKey. destruct (negb (prefixed this fullKey)); [apply stable_ret|].
      apply stable_bind.
      { apply quiet_global. intros w'. rewrite storage_getItem_run. apply delivered_noted. }
      intros data. destruct (no_data data); [apply stable_ret|]. cbv zeta.
      destruct (_ && _); [|apply stable_ret].
      apply stable_bind.
      { apply quiet_global. intros w'. rewrite isExpired_run. cbn [snd].
        destruct (js_get _ _); try reflexivity; apply delivered_ticked. }
      intros [|]; [|apply stable_ret]. apply hoare_assign. now intros s X.
    + intros _. apply Loc. intros l. apply stable_bind.
      * apply stable_for_all. intros key _. apply stable_bind.
        { apply quiet_global. intros w'. rewrite storage_removeItem_run.
          apply delivered_removed. }
        intros _. apply hoare_assign. now intros s X.
      * intros _. apply Loc. intros l'. apply stable_bind; [|intros _; apply stable_ret].
        destruct (0 <? fst l'); [|apply stable_ret].
        apply quiet_global. intros w'. rewrite emit_run. cbn [snd].
        now rewrite emitted_nobody.
  - intros e. apply Loc. intros l. apply stable_ret.
Qed.

(** X19.  [new WebStorage(options)] never fails: it returns the engine
    with the given options over the defaults and no listener, calls no
    listener, and removes no entry whose text does not decode to an
    object holding an [expires] field.  While the clock stands still and
    every stored expiry compares, the namespace it leaves holds exactly
    the entries [clearExpired] keeps, and the new engine's first
    [getStats] reports no expired entry. *)
Theorem constructor_sweeps o w :
  let this := {| options := resolve o; listeners := [] |} in
  let l0 := entries (storage_of this w) in
  let w1 := snd (new_WebStorage o w) in
  fst (new_WebStorage o w) = Ok this
  /\ delivered w1 = delivered w
  /\ (forall k text, lookup k l0 = Some text ->
        has_expires (decode this (Some text)) = false ->
        lookup k (entries (storage_of this w1)) = Some text)
  /\ (later (clock w) = [] ->
      comparable this (now (clock w)) l0 ->
      entries (storage_of this w1)
      = filter (fun kv => negb (swept this (now (clock w)) l0 kv)) l0
      /\ exists s, fst (getStats this w1) = Ok s
                   /\ expired s = 0 /\ valid s = total s).
Proof.
  cbv zeta. rewrite new_WebStorage_run. cbn [fst snd].
  split; [reflexivity|]. split; [now apply clearExpired_silent|]. split.
  - intros k text. apply clearExpired_keeps.
  - intros St Cm.
    destruct (clearExpired_result _ w St Cm) as (_ & E & _). cbv zeta in E.
    split; [exact E|].
    destruct (after_sweep _ w St Cm) as (St' & Cm' & Sw). cbv zeta in *.
    destruct (getStats_result _ _ St' Cm') as (s & Gs & A & B & C & _).
    cbv zeta in A, B, C.
    exists s. split; [exact Gs|]. split; [now rewrite B, (filter_none _ _ Sw)|].
    rewrite C, A. f_equal. apply filter_ext_in. intros kv I.
    now rewrite (Sw kv I), andb_true_r.
Qed.

Lemma constructor_sweeps_witness :
  let o := {| o_type := None; o_defaultExpires := None; o_prefix := Some (lit "app-");
              o_encrypt := None; o_encryptKey := None |} in
  let w := world_at 2000
             [(lit "app-old", jtext "{'value':1,'expires':1500,'created':500}");
              (lit "vue-storage-old", jtext "{'value':1,'expires':1500,'created':500}");
              (lit "app-new", jtext "{'value':3,'expires':2500,'created':500}")] in
  map fst (entries (localStorage (snd (new_WebStorage o w))))
  = [lit "vue-storage-old"; lit "app-new"].
Proof.
  cbv zeta.
  destruct (constructor_sweeps
              {| o_type := None; o_defaultExpires := None; o_prefix := Some (lit "app-");
                 o_encrypt := None; o_encryptKey := None |}
              (world_at 2000
                 [(lit "app-old", jtext "{'value':1,'expires':1500,'created':500}");
                  (lit "vue-storage-old", jtext "{'value':1,'expires':1500,'created':500}");
                  (lit "app-new", jtext "{'value':3,'expires':2500,'created':500}")]))
    as (_ & _ & _ & H).
  destruct (H eq_refl) as (E & _).
  - intros kv [<-|[<-|[<-|[]]]]; vm_compute; reflexivity.
  - change (entries (localStorage ?x)) with
      (entries (storage_of {| options := resolve
                 {| o_type := None; o_defaultExpires := None;
                    o_prefix := Some (lit "app-");
                    o_encrypt := None; o_encryptKey := None |}; listeners := [] |} x)).
    rewrite E. vm_compute. reflexivity.
Defined.

(** *** Listeners *)

Lemma event_eqb_refl t : event_eqb t t = true.
Proof. now destruct t. Qed.

Lemma event_eqb_eq a b : event_eqb a b = true <-> a = b.
Proof. destruct a, b; split; (reflexivity || discriminate). Qed.

Lemma event_eqb_sym a b : event_eqb a b = event_eqb b a.
Proof. now destruct a, b. Qed.

Lemma listeners_add_cons type l t ls m :
  listeners_add type l ((t, ls) :: m)
  = if event_eqb type t
    then (t, if existsb (Nat.eqb l) ls then ls else ls ++ [l]) :: m
    else (t, ls) :: listeners_add type l m.
Proof. reflexivity. Qed.

Lemma listeners_get_add type l m t' :
  listeners_get t' (listeners_add type l m)
  = if event_eqb t' type
    then Some (let ls := match listeners_get type m with Some ls => ls | None => [] end in
               if existsb (Nat.eqb l) ls then ls else ls ++ [l])
    else listeners_get t' m.
Proof.
  induction m as [|[t ls] m IH].
  - cbn. now destruct (event_eqb t' type).
  - rewrite listeners_add_cons. cbn [listeners_get].
    destruct (event_eqb type t) eqn:Et.
    + apply event_eqb_eq in Et. subst t. cbn [listeners_get].
      now destruct (event_eqb t' type).
    + cbn [listeners_get]. destruct (event_eqb t' t) eqn:Et'.
      * apply event_eqb_eq in Et'. subst t'. now rewrite event_eqb_sym, Et.
      * exact IH.
Qed.

Lemma registered_on this type l t' :
  registered (on this type l) t'
  = if event_eqb t' type
    then if existsb (Nat.eqb l) (registered this type) then registered this type
         else registered this type ++ [l]
    else registered this t'.
Proof.
  unfold registered, on. cbn [listeners]. rewrite listeners_get_add.
  now destruct (event_eqb t' type).
Qed.

Lemma registered_off this type l t' :
  registered (off this type l) t'
  = if event_eqb t' type
    then filter (fun x => negb (Nat.eqb l x)) (registered this type)
    else registered this t'.
Proof.
  unfold registered, off. cbn [listeners].
  induction (listeners this) as [|[t ls] m IH]; cbn [map listeners_get fst snd].
  - now destruct (event_eqb t' type).
  - destruct (event_eqb type t) eqn:Et; cbn [fst snd listeners_get].
    + apply event_eqb_eq in Et. subst t.
      destruct (event_eqb t' type) eqn:E; [reflexivity|exact IH].
    + destruct (event_eqb t' t) eqn:Et'.
      * apply event_eqb_eq in Et'. subst t'. now rewrite event_eqb_sym, Et.
      * exact IH.
Qed.

Lemma existsb_eqb_In l ls : existsb (Nat.eqb l) ls = true <-> In l ls.
Proof.
  rewrite existsb_exists. split.
  - intros (x & I & E). apply Nat.eqb_eq in E. now subst.
  - intros I. exists l. split; [exact I|apply Nat.eqb_refl].
Qed.

Lemma filter_absent (l : StorageEventListener) (ls : list StorageEventListener) :
  ~ In l ls -> filter (fun x => negb (Nat.eqb l x)) ls = ls.
Proof.
  induction ls as [|x ls IH]; intros N; [reflexivity|]. cbn [filter].
  destruct (Nat.eqb l x) eqn:E.
  - apply Nat.eqb_eq in E. subst. destruct N. now left.
  - cbn [negb]. f_equal. apply IH. intros I. apply N. now right.
Qed.

(** X20.  The listeners of an event type form a set kept in the order
    of registration.  [on] puts the listener at the end unless it is
    there already, in which case nothing changes, so registering it twice
    has it called once per event; it leaves the other event types alone.
    [off] removes the listener, keeps the others in their order and
    leaves the other event types alone.  What [emit] delivers is one
    record per registered listener, in the order of registration, all
    with the same reading of the clock. *)
Theorem listeners_form_a_set this type l data w :
  NoDup (registered this type) ->
  let once := on this type l in
  let twice := on once type l in
  let record := {| ev_type := type; ev_key := p_key data; ev_value := p_value data;
                   ev_timestamp := now (clock w) |} in
  registered once type
  = (if existsb (Nat.eqb l) (registered this type)
     then registered this type else registered this type ++ [l])
  /\ registered (off this type l) type
     = filter (fun x => negb (Nat.eqb l x)) (registered this type)
  /\ (~ In l (registered this type) ->
      registered (off once type l) type = registered this type)
  /\ registered twice type = registered once type
  /\ NoDup (registered once type)
  /\ In l (registered once type)
  /\ (forall x, In x (registered this type) -> In x (registered once type))
  /\ (forall t', t' <> type ->
        registered once t' = registered this t'
        /\ registered (off this type l) t' = registered this t')
  /\ ~ In l (registered (off once type l) type)
  /\ (forall x, x <> l ->
        (In x (registered (off once type l) type) <-> In x (registered this type)))
  /\ delivered (snd (emit this type data w))
     = delivered w ++ map (fun x => (x, record)) (registered this type)
  /\ delivered (snd (emit twice type data w))
     = delivered w ++
       map (fun x => (x, record))
           (if existsb (Nat.eqb l) (registered this type)
            then registered this type else registered this type ++ [l]).
Proof.
  intros ND. cbv zeta.
  assert (On : registered (on this type l) type
               = if existsb (Nat.eqb l) (registered this type)
                 then registered this type else registered this type ++ [l]).
  { now rewrite registered_on, event_eqb_refl. }
  assert (In1 : In l (registered (on this type l) type)).
  { rewrite On.
    destruct (existsb (Nat.eqb l) (registered this type)) eqn:E.
    - now apply existsb_eqb_In.
    - apply in_or_app. right. now left. }
  assert (Tw : registered (on (on this type l) type l) type
               = registered (on this type l) type).
  { rewrite (registered_on (on this type l)), event_eqb_refl.
    now rewrite (proj2 (existsb_eqb_In l _) In1). }
  split; [exact On|].
  split; [now rewrite registered_off, event_eqb_refl|].
  split.
  { intros N. rewrite registered_off, event_eqb_refl, On.
    destruct (existsb (Nat.eqb l) (registered this type)) eqn:E.
    - apply existsb_eqb_In in E. now destruct N.
    - rewrite filter_app. cbn [filter]. rewrite Nat.eqb_refl. cbn [negb].
      rewrite app_nil_r. exact (filter_absent _ _ N). }
  split; [exact Tw|]. split; [|split; [exact In1|split; [|split; [|split; [|split; [|split]]]]]].
  - rewrite On.
    destruct (existsb (Nat.eqb l) (registered this type)) eqn:E; [exact ND|].
    apply NoDup_app; [exact ND|repeat constructor; intros []|].
    intros x I [<-|[]]. apply existsb_eqb_In in I. congruence.
  - intros x I. rewrite On.
    destruct (existsb _ _); [exact I|]. apply in_or_app. now left.
  - intros t' N.
    assert (X : event_eqb t' type = false).
    { destruct (event_eqb t' type) eqn:X; [|reflexivity].
      apply event_eqb_eq in X. now destruct N. }
    now rewrite registered_on, registered_off, X.
  - rewrite registered_off, event_eqb_refl. intros I.
    apply filter_In in I as [_ I]. now rewrite Nat.eqb_refl in I.
  - intros x N. rewrite registered_off, event_eqb_refl, filter_In.
    rewrite On.
    assert (Q : negb (l =? x) = true).
    { apply negb_true_iff, Nat.eqb_neq. congruence. }
    rewrite Q. destruct (existsb _ _); [tauto|]. rewrite in_app_iff. cbn [In].
    split; [intros [[I|[E|[]]] _]; [exact I|congruence]|tauto].
  - rewrite emit_run. cbn [snd]. now rewrite delivered_emitted.
  - rewrite emit_run. cbn [snd]. rewrite delivered_emitted, Tw, On. reflexivity.
Qed.

Lemma listeners_form_a_set_witness :
  registered (on (on plain_engine EvSet 5) EvSet 7) EvSet = [5; 7]
  /\ registered (on (on (on plain_engine EvSet 5) EvSet 7) EvSet 5) EvSet = [5; 7]
  /\ registered (off (on (on plain_engine EvSet 5) EvSet 7) EvSet 5) EvSet = [7]
  /\ delivered (snd (emit (on (on (on plain_engine EvSet 5) EvSet 7) EvSet 7) EvSet
                       no_payload (world_at 1000 [])))
     = [(5, {| ev_type := EvSet; ev_key := None; ev_value := None;
               ev_timestamp := 1000 |});
        (7, {| ev_type := EvSet; ev_key := None; ev_value := None;
               ev_timestamp := 1000 |})].
Proof.
  destruct (listeners_form_a_set (on plain_engine EvSet 5) EvSet 7 no_payload
              (world_at 1000 []))
    as (On & _ & _ & _ & _ & _ & _ & _ & _ & _ & _ & D).
  { repeat constructor; intros []. }
  split; [exact On|]. split; [reflexivity|]. split; [reflexivity|exact D].
Defined.

(** ** [getStorageSize] and [usedBytes] *)

Lemma lookup_nodup l : distinct_keys l = true ->
  forall k v, In (k, v) l -> lookup k l = Some v.
Proof.
  induction l as [|[k0 v0] l IH]; intros ND k v I; [destruct I|].
  cbn [distinct_keys fst] in ND. apply andb_true_iff in ND as [N0 ND].
  apply negb_true_iff in N0.
  cbn [lookup]. destruct I as [E|I].
  - injection E as -> ->. now rewrite str_eqb_refl.
  - destruct (str_eqb k k0) eqn:E; [|now apply IH].
    apply str_eqb_eq in E. subst k0.
    assert (X : existsb (fun kv' => str_eqb k (fst kv')) l = true).
    { apply existsb_exists. exists (k, v). split; [exact I|apply str_eqb_refl]. }
    congruence.
Qed.

Lemma fold_sum {A} (P : A -> bool) (f : A -> nat) l : forall a,
  fold_left (fun t x => if P x then t + f x else t) l a
  = a + list_sum (map f (filter P l)).
Proof.
  induction l as [|x l IH]; intros a; cbn [fold_left filter]; [cbn; lia|].
  rewrite IH. destruct (P x); [|reflexivity].
  cbn [map]. change (list_sum (?b :: ?m)) with (b + list_sum m). lia.
Qed.

Lemma list_sum_filter_le {A} (P Q : A -> bool) (f : A -> nat) l :
  (forall x, In x l -> P x = true -> Q x = true) ->
  list_sum (map f (filter P l)) <= list_sum (map f (filter Q l)).
Proof.
  induction l as [|x l IH]; intros H; [reflexivity|]. cbn [filter].
  assert (IH' : list_sum (map f (filter P l)) <= list_sum (map f (filter Q l))).
  { apply IH. intros y I. apply H. now right. }
  specialize (H x (or_introl eq_refl)).
  destruct (P x); [rewrite (H eq_refl)|destruct (Q x)]; cbn [map];
    repeat change (list_sum (?b :: ?m)) with (b + list_sum m); lia.
Qed.

(** The text a scan reads for an entry it counts is the entry's own. *)
Lemma counted_text this l0 kv :
  distinct_keys l0 = true -> In kv l0 -> counted this l0 kv = true ->
  scan_text this l0 (fst kv) = snd kv.
Proof.
  intros ND I C. unfold counted in C. unfold scan_text in *.
  destruct (prefixed this (Some (fst kv))); [|discriminate].
  destruct kv as [k v]. cbn [fst snd] in *. now rewrite (lookup_nodup l0 ND k v I).
Qed.

(** X21.  [getStorageSize] measures the whole namespace, [usedBytes] of
    [getStats] the engine's share of it, both in UTF-16 code units of
    keys and texts.  On a namespace with distinct keys, where no key the
    engine counts is a name inherited by the [Storage] object, the share
    is at most the whole; and it is the whole when no stored [expires]
    field makes the comparison with the clock raise ([getStats] stops
    counting at such an entry) and every entry visible on the object
    carries the prefix and has a non-empty text. *)
Theorem usedBytes_within_storage_size this w :
  distinct_keys (entries (storage_of this w)) = true ->
  (forall kv, In kv (entries (storage_of this w)) ->
     counted this (entries (storage_of this w)) kv = true -> own_name (fst kv) = true) ->
  exists s,
    fst (getStats this w) = Ok s
    /\ usedBytes s <= getStorageSize (storage_of this w)
    /\ (comparable this (now (clock w)) (entries (storage_of this w)) ->
        (forall kv, In kv (entries (storage_of this w)) -> own_name (fst kv) = true ->
           counted this (entries (storage_of this w)) kv = true) ->
        usedBytes s = getStorageSize (storage_of this w)).
Proof.
  intros ND Own.
  destruct (getStats_bounds this w) as (s & Gs & _ & _ & _ & _ & U & F).
  cbv zeta in U, F. exists s. split; [exact Gs|].
  set (l0 := entries (storage_of this w)) in *.
  set (f := fun kv : jsstring * jsstring => List.length (fst kv) + List.length (snd kv)).
  assert (W : list_sum (map (weight this l0) (filter (counted this l0) l0))
              = list_sum (map f (filter (counted this l0) l0))).
  { f_equal. apply map_ext_in. intros kv I. apply filter_In in I as [I C].
    unfold weight, f. now rewrite (counted_text this l0 kv ND I C). }
  assert (G : getStorageSize (storage_of this w)
              = list_sum (map f (filter (fun kv => own_name (fst kv)) l0))).
  { unfold getStorageSize. fold l0.
    rewrite (fold_sum (fun kv => own_name (fst kv))
               (fun kv => List.length (option_or (lookup (fst kv) l0) [])
                          + List.length (fst kv))).
    cbn [Nat.add]. f_equal. apply map_ext_in. intros [k v] I.
    apply filter_In in I as [I _]. cbn [fst snd]. unfold f. cbn [fst snd].
    rewrite (lookup_nodup l0 ND k v I). cbn [option_or]. lia. }
  rewrite W in U. rewrite G. split.
  - etransitivity; [exact U|]. apply list_sum_filter_le. exact Own.
  - intros Cm All. destruct (F Cm) as (_ & _ & ->). rewrite W.
    f_equal. f_equal. apply filter_ext_in. intros kv I.
    destruct (own_name (fst kv)) eqn:O.
    + now apply All.
    + destruct (counted this l0 kv) eqn:C; [|reflexivity].
      rewrite (Own kv I C) in O. discriminate.
Qed.

Lemma usedBytes_within_storage_size_witness :
  let w := world_at 2000
             [(lit "vue-storage-a", jtext "{'value':1,'expires':null,'created':500}");
              (lit "theme", lit "dark");
              (lit "length", lit "7")] in
  (exists s, fst (getStats plain_engine w) = Ok s /\ usedBytes s <= 62)
  /\ getStorageSize (localStorage w) = 62.
Proof.
  cbv zeta.
  destruct (usedBytes_within_storage_size plain_engine
              (world_at 2000
                 [(lit "vue-storage-a", jtext "{'value':1,'expires':null,'created':500}");
                  (lit "theme", lit "dark");
                  (lit "length", lit "7")])
              eq_refl) as (s & Gs & Le & _).
  - intros kv [<-|[<-|[<-|[]]]]; vm_compute; (reflexivity || discriminate).
  - split; [|reflexivity]. exists s. split; [exact Gs|exact Le].
Defined.

(** *** What the listeners of [get] and [set] receive *)

(** X22.  [get] on an entry that is present, holds a [value] field and
    is not expired returns a deep clone of the stored value and changes
    no entry; every listener of [get] receives one event carrying the
    logical key and the stored value. *)
Theorem get_reads_live_entry this key g w text :
  lookup (getFullKey this key) (entries (storage_of this w)) = Some text ->
  has_value (decode this (Some text)) = true ->
  expired_at (now (clock w)) (js_get (decode this (Some text)) (lit "expires"))
  = Ok false ->
  let stored := js_get (decode this (Some text)) (lit "value") in
  let c1 := match js_get (decode this (Some text)) (lit "expires") with
            | JNull => clock w
            | _ => tick (clock w)
            end in
  fst (get this key g w) = Ok (deepClone stored)
  /\ entries (storage_of this (snd (get this key g w))) = entries (storage_of this w)
  /\ delivered (snd (get this key g w))
     = delivered w ++
       deliveries {| ev_type := EvGet; ev_key := Some key; ev_value := Some stored;
                     ev_timestamp := now c1 |}
                  (registered this EvGet).
Proof.
  intros L V E. cbv zeta.
  assert (T : text <> []).
  { destruct (has_value_object _ V) as (o & D). exact (decode_nonempty _ _ _ D). }
  rewrite (get_run _ _ _ _ _ L T). cbv zeta. rewrite V, E. cbn [fst snd].
  split; [reflexivity|]. rewrite storage_of_emitted, delivered_emitted.
  destruct (js_get (decode this (Some text)) (lit "expires"));
    rewrite ?entries_ticked, ?delivered_ticked, ?clock_ticked,
      entries_noted, delivered_noted, clock_noted; now split.
Qed.

Lemma get_reads_live_entry_witness :
  let this := on plain_engine EvGet 9 in
  let w := world_at 1000
             [(lit "vue-storage-k", jtext "{'value':[1,2],'expires':1500,'created':500}")] in
  fst (get this (lit "k") no_get_options w) = Ok (JArr [JNum (Int 1); JNum (Int 2)])
  /\ delivered (snd (get this (lit "k") no_get_options w))
     = [(9, {| ev_type := EvGet; ev_key := Some (lit "k");
               ev_value := Some (JArr [JNum (Int 1); JNum (Int 2)]);
               ev_timestamp := 1000 |})].
Proof.
  cbv zeta.
  destruct (get_reads_live_entry (on plain_engine EvGet 9) (lit "k") no_get_options
              (world_at 1000
                 [(lit "vue-storage-k",
                   jtext "{'value':[1,2],'expires':1500,'created':500}")])
              (jtext "{'value':[1,2],'expires':1500,'created':500}")
              eq_refl eq_refl eq_refl) as (R & _ & D).
  split; [exact R|exact D].
Defined.

(** X23.  A successful [set] stores its text under the prefixed key and
    then calls every listener of [set] once, with the logical key and
    the value as the caller passed it (not the clone that was stored);
    the entry of the key holds the text when the listeners are called. *)
Theorem set_notifies this key value o w w1 :
  set this key value o w = (Ok true, w1) ->
  exists text,
    serialize (item_of this value o w) (write_flag this o)
              (Some (opt_encryptKey (options this))) = Ok (Some text)
    /\ entries (storage_of this w1)
       = store (getFullKey this key) text (entries (storage_of this w))
    /\ delivered w1
       = delivered w ++
         deliveries {| ev_type := EvSet; ev_key := Some key; ev_value := Some value;
                       ev_timestamp := now (tick (clock (after_expiry this o w))) |}
                    (registered this EvSet).
Proof.
  intros S. destruct (set_success _ _ _ _ _ _ S) as (t & E & -> & _).
  destruct (serialize_envelope_text _ _ _ _ _ _ E) as (text & ->).
  exists text. split; [exact E|]. cbn [text_of option_or].
  rewrite storage_of_emitted, entries_written, entries_ticked, entries_after_expiry.
  split; [reflexivity|].
  now rewrite delivered_emitted, delivered_written, clock_written, delivered_ticked,
    clock_ticked, delivered_after_expiry.
Qed.

Lemma set_notifies_witness :
  let this := on plain_engine EvSet 2 in
  let w1 := snd (set this (lit "k") (JNum (Int 7)) no_set_options (world_at 1000 [])) in
  entries (storage_of this w1)
  = [(lit "vue-storage-k", jtext "{'value':7,'expires':null,'created':1000}")]
  /\ delivered w1
     = [(2, {| ev_type := EvSet; ev_key := Some (lit "k"); ev_value := Some (JNum (Int 7));
               ev_timestamp := 1000 |})].
Proof.
  cbv zeta.
  destruct (set_notifies (on plain_engine EvSet 2) (lit "k") (JNum (Int 7)) no_set_options
              (world_at 1000 [])
              (snd (set (on plain_engine EvSet 2) (lit "k") (JNum (Int 7)) no_set_options
                      (world_at 1000 [])))
              ltac:(vm_compute; reflexivity)) as (text & E & S & D).
  split; [|exact D]. rewrite S. vm_compute in E. injection E as <-.
  vm_compute. reflexivity.
Defined.

